(** * petite-vue reactivity core: a shallow embedding

    The development follows the TypeScript sources module by module:
    [utils.ts], [reactivity/reactive.ts], [reactivity/collectionHandlers.ts],
    [reactivity/effectScope.ts] and [reactivity/computed.ts].

    JavaScript objects live in a heap indexed by identities; the module-level
    [WeakMap]s of [reactive.ts] are finite maps keyed by identity.  Recursive
    source functions and the engine's walk through chains of proxies take a
    fuel argument and return [None] when it runs out. *)

From Stdlib Require Import ZArith Ascii String List Bool Lia.
From Stdlib Require Import Floats.SpecFloat.
From stdpp Require Import base option list gmap strings.

Local Open Scope string_scope.
Local Open Scope nat_scope.
Local Open Scope list_scope.

(** ** JavaScript values *)

(** Object identity. *)
Abbreviation loc := positive.

#[global] Instance spec_float_eq_dec : EqDecision spec_float.
Proof. solve_decision. Defined.

(** Numbers are IEEE doubles in their canonical decoded form: one NaN, signed
    zeros and infinities, and sign/mantissa/exponent for the rest.  On this
    representation structural equality is [SameValue]. *)
Inductive value : Type :=
| VUndefined
| VNull
| VBool (b : bool)
| VNum (x : spec_float)
| VBigInt (z : Z)
| VStr (s : string)
| VSym (id : positive)
| VRef (l : loc).

#[global] Instance value_eq_dec : EqDecision value.
Proof. solve_decision. Defined.

(** [ToBoolean]. *)
Definition truthy (v : value) : bool :=
  match v with
  | VUndefined | VNull => false
  | VBool b => b
  | VNum S754_nan | VNum (S754_zero _) => false
  | VNum _ => true
  | VBigInt z => negb (Z.eqb z 0)
  | VStr s => negb (String.eqb s "")
  | VSym _ | VRef _ => true
  end.

(** [Object.is]. *)
Definition Object_is (a b : value) : bool := bool_decide (a = b).

(** The key comparison of [Map] and [Set]: [SameValueZero]. *)
Definition normZero (v : value) : value :=
  match v with
  | VNum (S754_zero _) => VNum (S754_zero false)
  | _ => v
  end.

Definition sameValueZero (a b : value) : bool :=
  bool_decide (normZero a = normZero b).

(** ** The heap *)

(** The keys of [ReactiveFlags] that the [Target] interface declares. *)
Inductive ReactiveFlags : Type :=
| SKIP | IS_REACTIVE | IS_READONLY | IS_SHALLOW | RAW.

#[global] Instance ReactiveFlags_eq_dec : EqDecision ReactiveFlags.
Proof. solve_decision. Defined.

(** Internal slots of the four collection classes. *)
Inductive slots : Type :=
| NoSlots
| MapData (weak : bool) (entries : list (value * value))
| SetData (weak : bool) (members : list value).

(** An ordinary (non-proxy) object, as far as [reactive.ts] looks at it: the
    tag reported by [Object.prototype.toString], whether it is callable,
    whether it is extensible, the optional fields of [interface Target] with
    their declared types, and the collection slots. *)
Record Target : Type := mkTarget {
  o_tag : string;
  o_callable : bool;
  o_extensible : bool;
  o_skip : option bool;
  o_isReactive : option bool;
  o_isReadonly : option bool;
  o_isShallow : option bool;
  o_raw : value;
  o_data : slots
}.

(** The handler objects passed to [new Proxy]. *)
Inductive ProxyHandler : Type :=
| mutableHandlers
| readonlyHandlers
| mutableCollectionHandlers
| readonlyCollectionHandlers.

#[global] Instance ProxyHandler_eq_dec : EqDecision ProxyHandler.
Proof. solve_decision. Defined.

Inductive object : Type :=
| Ordinary (t : Target)
| Proxy (target : loc) (handler : ProxyHandler).

Abbreviation heap := (gmap loc object).

Definition of_flag (b : option bool) : value :=
  match b with
  | Some b => VBool b
  | None => VUndefined
  end.

(** Reading a flag key off an ordinary object. *)
Definition own_flag (t : Target) (k : ReactiveFlags) : value :=
  match k with
  | SKIP => of_flag (o_skip t)
  | IS_REACTIVE => of_flag (o_isReactive t)
  | IS_READONLY => of_flag (o_isReadonly t)
  | IS_SHALLOW => of_flag (o_isShallow t)
  | RAW => o_raw t
  end.

(** ** utils.ts *)

Module Utils.

Definition typeof (h : heap) (v : value) : string :=
  match v with
  | VUndefined => "undefined"
  | VNull => "object"
  | VBool _ => "boolean"
  | VNum _ => "number"
  | VBigInt _ => "bigint"
  | VStr _ => "string"
  | VSym _ => "symbol"
  | VRef l =>
      match h !! l with
      | Some (Ordinary t) => if o_callable t then "function" else "object"
      | _ => "object"
      end
  end.

Definition isObject (h : heap) (val : value) : bool :=
  negb (bool_decide (val = VNull)) && String.eqb (typeof h val) "object".

Definition hasChanged (value oldValue : value) : bool :=
  negb (Object_is value oldValue).

(** [str.slice(8, -1)]. *)
Definition slice_8_m1 (s : string) : string :=
  String.substring 8 (String.length s - 9) s.

(** [Object.prototype.toString] of an object with tag [t]. *)
Definition objectToString (t : string) : string :=
  String.append "[object " (String.append t "]").

Definition primitive_tag (v : value) : string :=
  match v with
  | VUndefined => "Undefined"
  | VNull => "Null"
  | VBool _ => "Boolean"
  | VNum _ => "Number"
  | VBigInt _ => "BigInt"
  | VStr _ => "String"
  | VSym _ => "Symbol"
  | VRef _ => "Object"
  end.

(** *** Arrays *)

(** [a === b] *)
Definition strictEquals (a b : value) : bool :=
  match a, b with
  | VNum S754_nan, _ | _, VNum S754_nan => false
  | VNum (S754_zero _), VNum (S754_zero _) => true
  | _, _ => bool_decide (a = b)
  end.

(** An array element against the searched value; a hole has no property
    to compare. *)
Definition matches (el : value) (x : option value) : bool :=
  match x with
  | Some v => strictEquals v el
  | None => false
  end.

(** [arr.indexOf(el)]; [None] is [-1]. *)
Fixpoint indexOf (arr : list (option value)) (el : value) : option nat :=
  match arr with
  | [] => None
  | x :: r => if matches el x then Some 0 else S <$> indexOf r el
  end.

(** [arr.splice(i, 1)], as it leaves the array. *)
Definition splice_1 (i : nat) (arr : list (option value))
  : list (option value) :=
  take i arr ++ drop (S i) arr.

Definition remove (arr : list (option value)) (el : value)
  : list (option value) :=
  match indexOf arr el with
  | Some i => splice_1 i arr
  | None => arr
  end.

(** *** Strings

    A string is its sequence of code units; the characters of [string] are
    the code units below 256. *)

Definition in_range (lo hi : nat) (c : ascii) : bool :=
  (lo <=? nat_of_ascii c) && (nat_of_ascii c <=? hi).

(** [[A-Z]], [[a-z]], [[0-9]] and [\w]. *)
Definition is_upper (c : ascii) : bool := in_range 65 90 c.
Definition is_lower (c : ascii) : bool := in_range 97 122 c.
Definition is_digit (c : ascii) : bool := in_range 48 57 c.
Definition is_word (c : ascii) : bool :=
  is_upper c || is_lower c || is_digit c || Ascii.eqb c "_".

(** [c.toUpperCase()] for a character of [\w]. *)
Definition toUpperCase_word (c : ascii) : ascii :=
  if is_lower c then ascii_of_nat (nat_of_ascii c - 32) else c.

(** [toLowerCase] on one code unit below 256: the letters A to Z, and the
    capital letters of the Latin-1 supplement, which are U+00C0 to U+00DE
    without the multiplication sign U+00D7.  A string of this model holds
    such code units only; on these [String.prototype.toLowerCase] works
    unit by unit.  Strings with code units from U+0100 on, where it maps
    code points and looks at the context, are not modelled. *)
Definition toLowerCase_unit (c : ascii) : ascii :=
  if is_upper c
     || (in_range 192 222 c && negb (nat_of_ascii c =? 215))
  then ascii_of_nat (nat_of_ascii c + 32) else c.

Fixpoint toLowerCase (s : string) : string :=
  match s with
  | EmptyString => EmptyString
  | String c r => String (toLowerCase_unit c) (toLowerCase r)
  end.

(** [str.split(',')] *)
Fixpoint split_comma (str : string) : list string :=
  match str with
  | EmptyString => [EmptyString]
  | String c r =>
      if Ascii.eqb c "," then EmptyString :: split_comma r
      else
        match split_comma r with
        | piece :: rest => String c piece :: rest
        | [] => [String c EmptyString]
        end
  end.

(** A piece holds no comma. *)
Fixpoint no_comma (s : string) : bool :=
  match s with
  | EmptyString => true
  | String c r => negb (Ascii.eqb c ",") && no_comma r
  end.

(** [makeMap(str)]: the object without prototype that gets one key for
    each piece, and the test [val in map]. *)
Definition makeMap (str : string) : string -> bool :=
  let map : gset string := list_to_set (split_comma str) in
  fun val => bool_decide (val ∈ map).

(** [cacheStringFunction(fn)], called on [str] with the cache [cache]: a
    hit counts when it is truthy, that is, not the empty string. *)
Definition cacheStringFunction (fn : string -> string)
    (cache : gmap string string) (str : string)
  : string * gmap string string :=
  match cache !! str with
  | Some hit =>
      if negb (String.eqb hit "") then (hit, cache)
      else (fn str, <[str := fn str]> cache)
  | None => (fn str, <[str := fn str]> cache)
  end.

(** [str.replace(/-(\w)/g, (_, c) => (c ? c.toUpperCase() : ''))]: the
    matches are taken from left to right and do not overlap. *)
Fixpoint camelize_fn (str : string) : string :=
  match str with
  | EmptyString => EmptyString
  | String a t =>
      match t with
      | String c r =>
          if Ascii.eqb a "-" && is_word c
          then String (toUpperCase_word c) (camelize_fn r)
          else String a (camelize_fn t)
      | EmptyString => String a EmptyString
      end
  end.

(** [str.replace(/\B([A-Z])/g, '-$1')]: a capital letter is at a
    non-boundary exactly when the code unit before it is of [\w];
    [prev_word] tells whether it is. *)
Fixpoint hyphenate_marks (prev_word : bool) (str : string) : string :=
  match str with
  | EmptyString => EmptyString
  | String c r =>
      let rest := hyphenate_marks (is_word c) r in
      if prev_word && is_upper c then String "-" (String c rest)
      else String c rest
  end.

Definition hyphenate_fn (str : string) : string :=
  toLowerCase (hyphenate_marks false str).

(** Kebab case: every code unit is its own lower case, and a hyphen that
    is followed by a code unit of [\w] is followed by a letter from a to z
    and comes after a code unit of [\w]; [prev_word] tells whether the
    code unit before the string is of [\w]. *)
Fixpoint kebab (prev_word : bool) (s : string) : bool :=
  match s with
  | EmptyString => true
  | String c r =>
      if Ascii.eqb c "-" then
        match r with
        | String d r' =>
            if is_word d then prev_word && is_lower d && kebab true r'
            else kebab false r
        | EmptyString => true
        end
      else Ascii.eqb (toLowerCase_unit c) c && kebab (is_word c) r
  end.

(** A cache of [cacheStringFunction(fn)] holds results of [fn] only. *)
Definition cache_ok (fn : string -> string) (cache : gmap string string)
  : Prop :=
  ∀ k v, cache !! k = Some v → v = fn k.

(** The exported [camelize] and [hyphenate], each with its own cache. *)
Definition camelize := cacheStringFunction camelize_fn.
Definition hyphenate := cacheStringFunction hyphenate_fn.

(** [WhiteSpace] and [LineTerminator] below 256: tab, line feed, vertical
    tab, form feed, carriage return, space and no-break space. *)
Definition is_space (c : ascii) : bool :=
  in_range 9 13 c || (nat_of_ascii c =? 32) || (nat_of_ascii c =? 160).

Fixpoint trimStart (s : string) : string :=
  match s with
  | EmptyString => EmptyString
  | String c r => if is_space c then trimStart r else s
  end.

Fixpoint trimEnd (s : string) : string :=
  match s with
  | EmptyString => EmptyString
  | String c r =>
      match trimEnd r with
      | EmptyString => if is_space c then EmptyString else String c EmptyString
      | r' => String c r'
      end
  end.

Definition trim (s : string) : string := trimEnd (trimStart s).

(** A class name as [normalizeClass] joins them: not empty, and without
    white space at either end. *)
Definition clean (s : string) : Prop :=
  s ≠ EmptyString ∧ trimStart s = s ∧ trimEnd s = s.

(** *** Class bindings *)

(** What [normalizeClass] is given: a primitive, a function, an array with
    its elements (a hole reads as [undefined]), or another object with its
    enumerable string-keyed properties in the order of [for ... in]. *)
#[warnings="-register-all"]
Inductive data : Type :=
| Prim (v : value)
| Fun
| Arr (items : list data)
| Obj (props : list (string * data)).

(** [ToBoolean] of a property value. *)
Definition truthy_data (d : data) : bool :=
  match d with
  | Prim v => truthy v
  | Fun | Arr _ | Obj _ => true
  end.

Fixpoint normalizeClass (val : data) : string :=
  let res :=
    match val with
    | Prim (VStr s) => s
    | Arr items =>
        (fix loop (l : list data) : string :=
           match l with
           | [] => EmptyString
           | item :: r =>
               let normalized := normalizeClass item in
               String.append
                 (if negb (String.eqb normalized "")
                  then String.append normalized " " else EmptyString)
                 (loop r)
           end) items
    | Obj props =>
        (fix loop (l : list (string * data)) : string :=
           match l with
           | [] => EmptyString
           | (name, v) :: r =>
               String.append
                 (if truthy_data v then String.append name " "
                  else EmptyString)
                 (loop r)
           end) props
    | _ => EmptyString
    end in
  trim res.

End Utils.

(** ** Proxy traps *)

(** What a [get] trap does with a flag key: answer it, or hand the read to
    [Reflect.get(target, key, receiver)]. *)
Inductive trap_result : Type :=
| Answer (v : value)
| Forward.

Module CollectionGetter.

(** The first three branches of the arrow function returned by
    [createInstrumentationGetter]; no flag key is an own property of
    [instrumentations], so every other flag key is read from the target. *)
Definition createInstrumentationGetter (isReadonly shallow : bool)
    (target : loc) (key : ReactiveFlags) : trap_result :=
  match key with
  | IS_REACTIVE => Answer (VBool (negb isReadonly))
  | IS_READONLY => Answer (VBool isReadonly)
  | RAW => Answer (VRef target)
  | _ => Forward
  end.

End CollectionGetter.

Module BaseHandlers.

(** Modelled from the spec: the [get] trap of [baseHandlers.ts], which is
    not among the sources.  Section 4.6: the special keys [IS_REACTIVE],
    [IS_READONLY], [IS_SHALLOW] and [RAW] are returned directly without
    tracking; they identify the proxy's flavor and give its target. *)
Definition get (isReadonly shallow : bool)
    (target : loc) (key : ReactiveFlags) : trap_result :=
  match key with
  | IS_REACTIVE => Answer (VBool (negb isReadonly))
  | IS_READONLY => Answer (VBool isReadonly)
  | IS_SHALLOW => Answer (VBool shallow)
  | RAW => Answer (VRef target)
  | SKIP => Forward
  end.

End BaseHandlers.

Definition handler_get (hd : ProxyHandler) : loc -> ReactiveFlags -> trap_result :=
  match hd with
  | mutableHandlers => BaseHandlers.get false false
  | readonlyHandlers => BaseHandlers.get true false
  | mutableCollectionHandlers =>
      CollectionGetter.createInstrumentationGetter false false
  | readonlyCollectionHandlers =>
      CollectionGetter.createInstrumentationGetter true false
  end.

Definition handler_is_readonly (hd : ProxyHandler) : bool :=
  match hd with
  | readonlyHandlers | readonlyCollectionHandlers => true
  | _ => false
  end.

(** [O.[[Get]](key)] for a flag key. *)
Fixpoint Get (fuel : nat) (h : heap) (l : loc) (k : ReactiveFlags)
  : option value :=
  match fuel with
  | O => None
  | S f =>
      match h !! l with
      | None => None
      | Some (Ordinary t) => Some (own_flag t k)
      | Some (Proxy target hd) =>
          match handler_get hd target k with
          | Answer v => Some v
          | Forward => Get f h target k
          end
      end
  end.

(** [v[key]] for a flag key; a primitive has no such property, and the read
    is a [TypeError] on [null] and [undefined]. *)
Definition get_flag (fuel : nat) (h : heap) (v : value) (k : ReactiveFlags)
  : option value :=
  match v with
  | VRef l => Get fuel h l k
  | VUndefined | VNull => None
  | _ => Some VUndefined
  end.

(** The ordinary object behind a chain of proxies.  Neither handler has an
    [isExtensible] trap, and [Object.prototype.toString] sees the target's
    class through the proxy. *)
Fixpoint underlying (fuel : nat) (h : heap) (l : loc) : option Target :=
  match fuel with
  | O => None
  | S f =>
      match h !! l with
      | None => None
      | Some (Ordinary t) => Some t
      | Some (Proxy target _) => underlying f h target
      end
  end.

Definition Object_isExtensible (fuel : nat) (h : heap) (v : value)
  : option bool :=
  match v with
  | VRef l => o_extensible <$> underlying fuel h l
  | _ => Some false
  end.

Definition toTypeString (fuel : nat) (h : heap) (v : value) : option string :=
  match v with
  | VRef l => (fun t => Utils.objectToString (o_tag t)) <$> underlying fuel h l
  | _ => Some (Utils.objectToString (Utils.primitive_tag v))
  end.

Definition toRawType (fuel : nat) (h : heap) (v : value) : option string :=
  Utils.slice_8_m1 <$> toTypeString fuel h v.

(** ** reactivity/reactive.ts *)

Module Reactive.

(** The four module-level [WeakMap]s. *)
Inductive ProxyMap : Type :=
| reactiveMap | shallowReactiveMap | readonlyMap | shallowReadonlyMap.

Record state : Type := mkState {
  st_heap : heap;
  st_reactiveMap : gmap loc value;
  st_shallowReactiveMap : gmap loc value;
  st_readonlyMap : gmap loc value;
  st_shallowReadonlyMap : gmap loc value
}.

Definition proxyMap_of (st : state) (m : ProxyMap) : gmap loc value :=
  match m with
  | reactiveMap => st_reactiveMap st
  | shallowReactiveMap => st_shallowReactiveMap st
  | readonlyMap => st_readonlyMap st
  | shallowReadonlyMap => st_shallowReadonlyMap st
  end.

(** [proxyMap.set(target, proxy)] *)
Definition proxyMap_set (st : state) (m : ProxyMap) (target : loc)
    (proxy : value) : state :=
  match m with
  | reactiveMap =>
      mkState (st_heap st) (<[target := proxy]> (st_reactiveMap st))
        (st_shallowReactiveMap st) (st_readonlyMap st)
        (st_shallowReadonlyMap st)
  | shallowReactiveMap =>
      mkState (st_heap st) (st_reactiveMap st)
        (<[target := proxy]> (st_shallowReactiveMap st)) (st_readonlyMap st)
        (st_shallowReadonlyMap st)
  | readonlyMap =>
      mkState (st_heap st) (st_reactiveMap st) (st_shallowReactiveMap st)
        (<[target := proxy]> (st_readonlyMap st)) (st_shallowReadonlyMap st)
  | shallowReadonlyMap =>
      mkState (st_heap st) (st_reactiveMap st) (st_shallowReactiveMap st)
        (st_readonlyMap st)
        (<[target := proxy]> (st_shallowReadonlyMap st))
  end.

(** [new Proxy(target, handler)]: a fresh identity. *)
Definition new_Proxy (st : state) (target : loc) (hd : ProxyHandler)
  : loc * state :=
  let p := fresh (dom (st_heap st)) in
  (p, mkState (<[p := Proxy target hd]> (st_heap st)) (st_reactiveMap st)
        (st_shallowReactiveMap st) (st_readonlyMap st)
        (st_shallowReadonlyMap st)).

Inductive TargetType : Type := INVALID | COMMON | COLLECTION.

#[global] Instance TargetType_eq_dec : EqDecision TargetType.
Proof. solve_decision. Defined.

Definition targetTypeMap (rawType : string) : TargetType :=
  if String.eqb rawType "Object" then COMMON
  else if String.eqb rawType "Array" then COMMON
  else if String.eqb rawType "Map" then COLLECTION
  else if String.eqb rawType "Set" then COLLECTION
  else if String.eqb rawType "WeakMap" then COLLECTION
  else if String.eqb rawType "WeakSet" then COLLECTION
  else INVALID.

Definition getTargetType (fuel : nat) (h : heap) (val : value)
  : option TargetType :=
  skip ← get_flag fuel h val SKIP;
  if truthy skip then Some INVALID
  else
    ext ← Object_isExtensible fuel h val;
    if negb ext then Some INVALID
    else targetTypeMap <$> toRawType fuel h val.

Definition isReadonly (fuel : nat) (h : heap) (val : value)
  : option bool :=
  if truthy val then truthy <$> get_flag fuel h val IS_READONLY
  else Some false.

Definition isShallow (fuel : nat) (h : heap) (val : value)
  : option bool :=
  if truthy val then truthy <$> get_flag fuel h val IS_SHALLOW
  else Some false.

Definition isProxy (fuel : nat) (h : heap) (val : value) : option bool :=
  if truthy val then truthy <$> get_flag fuel h val RAW
  else Some false.

Definition createReactiveObject (fuel : nat) (st : state) (target : value)
    (isReadonly : bool) (baseHandlers collectionHandlers : ProxyHandler)
    (proxyMap : ProxyMap) : option (value * state) :=
  if negb (Utils.isObject (st_heap st) target) then Some (target, st)
  else
    match target with
    | VRef l =>
        raw ← get_flag fuel (st_heap st) target RAW;
        already ←
          (if truthy raw then
             if isReadonly then
               isr ← get_flag fuel (st_heap st) target IS_REACTIVE;
               Some (negb (truthy isr))
             else Some true
           else Some false);
        if already : bool then Some (target, st)
        else
          targetType ← getTargetType fuel (st_heap st) target;
          if bool_decide (targetType = INVALID) then Some (target, st)
          else
            let existingProxy :=
              default VUndefined (proxyMap_of st proxyMap !! l) in
            if truthy existingProxy then Some (existingProxy, st)
            else
              let '(p, st1) :=
                new_Proxy st l
                  (if bool_decide (targetType = COLLECTION)
                   then collectionHandlers else baseHandlers) in
              Some (VRef p, proxyMap_set st1 proxyMap l (VRef p))
    | _ => Some (target, st)
    end.

Definition reactive (fuel : nat) (st : state) (target : value)
  : option (value * state) :=
  ro ← isReadonly fuel (st_heap st) target;
  if ro : bool then Some (target, st)
  else
    createReactiveObject fuel st target false
      mutableHandlers mutableCollectionHandlers reactiveMap.

Definition readonly (fuel : nat) (st : state) (target : value)
  : option (value * state) :=
  createReactiveObject fuel st target true
    readonlyHandlers readonlyCollectionHandlers readonlyMap.

Fixpoint toRaw (fuel : nat) (h : heap) (observed : value) : option value :=
  match fuel with
  | O => None
  | S f =>
      raw ← (if truthy observed then get_flag f h observed RAW
             else Some observed);
      if truthy raw then toRaw f h raw else Some observed
  end.

Definition toReactive (fuel : nat) (st : state) (val : value)
  : option (value * state) :=
  if Utils.isObject (st_heap st) val then reactive fuel st val
  else Some (val, st).

Definition toReadonly (fuel : nat) (st : state) (val : value)
  : option (value * state) :=
  if Utils.isObject (st_heap st) val then readonly fuel st val
  else Some (val, st).

(** The state of a freshly loaded module. *)
Definition init : state := mkState ∅ ∅ ∅ ∅ ∅.

(** Allocation of an ordinary object by user code. *)
Definition alloc (st : state) (t : Target) : loc * state :=
  let l := fresh (dom (st_heap st)) in
  (l, mkState (<[l := Ordinary t]> (st_heap st)) (st_reactiveMap st)
        (st_shallowReactiveMap st) (st_readonlyMap st)
        (st_shallowReadonlyMap st)).

End Reactive.

(** ** Well-formed states of reactive.ts *)

Module ReactiveInv.
Import Reactive.

(** The tags for which [targetTypeMap] does not answer [INVALID]. *)
Definition proxyable_tags : list string :=
  ["Object"; "Array"; "Map"; "Set"; "WeakMap"; "WeakSet"].

(** An object accepted for proxying: an ordinary object of one of the six
    classes that is extensible, not flagged skip, and passes the two
    earlier guards (it is not marked readonly and carries no raw
    back-pointer, that is, it is not itself a proxy). *)
Definition accepted (h : heap) (o : loc) : Prop :=
  ∃ t, h !! o = Some (Ordinary t) ∧
       o_callable t = false ∧
       In (o_tag t) proxyable_tags ∧
       o_extensible t = true ∧
       truthy (of_flag (o_skip t)) = false ∧
       truthy (of_flag (o_isReadonly t)) = false ∧
       truthy (o_raw t) = false.

(** [p] is a proxy of flavor [ro] whose target is [t]. *)
Definition is_proxy_of (h : heap) (ro : bool) (p : value) (t : loc) : Prop :=
  ∃ l hd, p = VRef l ∧ h !! l = Some (Proxy t hd) ∧
          handler_is_readonly hd = ro.

(** What every state reached through [reactive], [readonly] and allocation
    satisfies: the caches hold proxies of their own flavor for their key,
    and a proxy wraps an ordinary object or, for a readonly proxy, a
    reactive proxy of an ordinary object. *)
Record wf (st : state) : Prop := mkWf {
  wf_reactiveMap : ∀ t p,
    st_reactiveMap st !! t = Some p → is_proxy_of (st_heap st) false p t;
  wf_readonlyMap : ∀ t p,
    st_readonlyMap st !! t = Some p → is_proxy_of (st_heap st) true p t;
  wf_targets : ∀ p t hd,
    st_heap st !! p = Some (Proxy t hd) →
    (∃ r, st_heap st !! t = Some (Ordinary r)) ∨
    (handler_is_readonly hd = true ∧
     ∃ t' hd' r, st_heap st !! t = Some (Proxy t' hd') ∧
                 handler_is_readonly hd' = false ∧
                 st_heap st !! t' = Some (Ordinary r))
}.

(** The tail of [createReactiveObject]: the cached proxy of [l] in
    [proxyMap], or a new one that is then cached. *)
Definition cached_or_new (st : state) (l : loc) (hd : ProxyHandler)
    (proxyMap : ProxyMap) : value * state :=
  let existingProxy := default VUndefined (proxyMap_of st proxyMap !! l) in
  if truthy existingProxy then (existingProxy, st)
  else
    let '(p, st1) := new_Proxy st l hd in
    (VRef p, proxyMap_set st1 proxyMap l (VRef p)).

(** The handler [createReactiveObject] picks for a target of tag [tag]. *)
Definition pick_handler (tag : string) (baseHandlers collectionHandlers : ProxyHandler)
  : ProxyHandler :=
  if bool_decide (targetTypeMap tag = COLLECTION)
  then collectionHandlers else baseHandlers.

(** The target type of an object whose underlying ordinary object is [t]. *)
Definition targetType_of (t : Target) : TargetType :=
  if truthy (of_flag (o_skip t)) then INVALID
  else if negb (o_extensible t) then INVALID
  else targetTypeMap (o_tag t).

(** What a proxy of flavor [ro] may wrap. *)
Definition target_ok (h : heap) (ro : bool) (l : loc) : Prop :=
  (∃ r, h !! l = Some (Ordinary r)) ∨
  (ro = true ∧
   ∃ t' hd' r, h !! l = Some (Proxy t' hd') ∧
               handler_is_readonly hd' = false ∧
               h !! t' = Some (Ordinary r)).

(** The cache that belongs to a flavor. *)
Definition flavor_map (ro : bool) : ProxyMap :=
  if ro then readonlyMap else reactiveMap.

(** The four reasons for which [createReactiveObject] declines. *)
Definition declined (fuel : nat) (h : heap) (x : value) : Prop :=
  Utils.isObject h x = false ∨
  Object_isExtensible fuel h x = Some false ∨
  (∃ ty, toRawType fuel h x = Some ty ∧ ¬ In ty proxyable_tags) ∨
  (∃ s, get_flag fuel h x SKIP = Some s ∧ truthy s = true).

(** A value of the heap: a reference is to an allocated object. *)
Definition valid (h : heap) (v : value) : Prop :=
  match v with
  | VRef l => is_Some (h !! l)
  | _ => True
  end.

End ReactiveInv.

(** ** reactivity/collectionHandlers.ts *)

(** The built-in methods of [Map], [Set], [WeakMap] and [WeakSet] on the
    internal slots.  Keys are compared by [SameValueZero]; a weak collection
    holds objects and the symbols that are not in the global symbol
    registry. *)
Module Native.

(** [KeyForSymbol]: the key under which [Symbol.for] has registered a
    symbol.  Symbols are numbered; the registered ones take the even
    numbers, every other symbol ([Symbol()] and the well-known symbols) an
    odd one. *)
Definition KeyForSymbol (id : positive) : option positive :=
  match id with
  | xO key => Some key
  | _ => None
  end.

(** [CanBeHeldWeakly] (ECMAScript 2023). *)
Definition CanBeHeldWeakly (v : value) : bool :=
  match v with
  | VRef _ => true
  | VSym id =>
      match KeyForSymbol id with
      | None => true
      | Some _ => false
      end
  | _ => false
  end.

Definition entries_has (d : list (value * value)) (k : value) : bool :=
  existsb (fun e => sameValueZero (fst e) k) d.

Fixpoint entries_get (d : list (value * value)) (k : value) : value :=
  match d with
  | [] => VUndefined
  | (k', v) :: r => if sameValueZero k' k then v else entries_get r k
  end.

Fixpoint entries_set (d : list (value * value)) (k v : value)
  : list (value * value) :=
  match d with
  | [] => [(normZero k, v)]
  | (k', v') :: r =>
      if sameValueZero k' k then (k', v) :: r
      else (k', v') :: entries_set r k v
  end.

Definition entries_delete (d : list (value * value)) (k : value)
  : list (value * value) :=
  List.filter (fun e => negb (sameValueZero (fst e) k)) d.

Definition members_has (d : list value) (k : value) : bool :=
  existsb (fun e => sameValueZero e k) d.

Definition members_add (d : list value) (k : value) : list value :=
  if members_has d k then d else d ++ [normZero k].

Definition members_delete (d : list value) (k : value) : list value :=
  List.filter (fun e => negb (sameValueZero e k)) d.

(** [proto.has.call(target, key)]; [None] is the [TypeError] of calling
    a method the prototype does not have. *)
Definition has (d : slots) (k : value) : option bool :=
  match d with
  | NoSlots => None
  | MapData weak es =>
      Some (if weak then CanBeHeldWeakly k && entries_has es k
            else entries_has es k)
  | SetData weak ms =>
      Some (if weak then CanBeHeldWeakly k && members_has ms k
            else members_has ms k)
  end.

(** [proto.get.call(target, key)] *)
Definition get (d : slots) (k : value) : option value :=
  match d with
  | MapData weak es =>
      Some (if weak then
              if CanBeHeldWeakly k then entries_get es k else VUndefined
            else entries_get es k)
  | _ => None
  end.

(** [target.set(key, value)] *)
Definition set (d : slots) (k v : value) : option slots :=
  match d with
  | MapData weak es =>
      if weak && negb (CanBeHeldWeakly k) then None
      else Some (MapData weak (entries_set es k v))
  | _ => None
  end.

(** [target.add(value)] *)
Definition add (d : slots) (v : value) : option slots :=
  match d with
  | SetData weak ms =>
      if weak && negb (CanBeHeldWeakly v) then None
      else Some (SetData weak (members_add ms v))
  | _ => None
  end.

(** [target.delete(key)]: the result and the slots afterwards. *)
Definition delete (d : slots) (k : value) : option (bool * slots) :=
  match d with
  | NoSlots => None
  | MapData weak es =>
      Some (if weak then CanBeHeldWeakly k && entries_has es k
            else entries_has es k,
            MapData weak (entries_delete es k))
  | SetData weak ms =>
      Some (if weak then CanBeHeldWeakly k && members_has ms k
            else members_has ms k,
            SetData weak (members_delete ms k))
  end.

(** [target.clear()]; the weak collections have no such method. *)
Definition clear (d : slots) : option slots :=
  match d with
  | MapData false _ => Some (MapData false [])
  | SetData false _ => Some (SetData false [])
  | _ => None
  end.

(** [target.size]; [None] is [undefined]. *)
Definition size (d : slots) : option nat :=
  match d with
  | MapData false es => Some (length es)
  | SetData false ms => Some (length ms)
  | _ => None
  end.

End Native.

Module CollectionHandlers.
Import Reactive.

Inductive TriggerOpTypes : Type := SET | ADD | DELETE | CLEAR.

#[global] Instance TriggerOpTypes_eq_dec : EqDecision TriggerOpTypes.
Proof. solve_decision. Defined.

(** One call of [trigger], with what a subscriber notified by it reads
    in the target at that moment. *)
Record trigger_call : Type := mkTrigger {
  tr_target : loc;
  tr_type : TriggerOpTypes;
  tr_key : value;
  tr_newValue : value;
  tr_seen : option slots
}.

Record state : Type := mkState {
  c_heap : heap;
  c_triggers : list trigger_call
}.

Definition slots_of (h : heap) (l : loc) : option slots :=
  match h !! l with
  | Some (Ordinary t) => Some (o_data t)
  | _ => None
  end.

(** Modelled from the spec: [trigger] of [dep.ts], which is not among the
    sources.  Section 4.1: it bumps the versions of the deps of
    (target, key) and notifies their subscribers; here the call is
    recorded in order, together with the contents of the target that the
    notified subscribers find. *)
Definition trigger (st : state) (target : loc) (type : TriggerOpTypes)
    (key newValue : value) : state :=
  mkState (c_heap st)
    (c_triggers st ++
       [mkTrigger target type key newValue (slots_of (c_heap st) target)]).

Definition with_data (t : Target) (d : slots) : Target :=
  mkTarget (o_tag t) (o_callable t) (o_extensible t) (o_skip t)
    (o_isReactive t) (o_isReadonly t) (o_isShallow t) (o_raw t) d.

(** The effect of a built-in method on the slots of the object [l]. *)
Definition store (st : state) (l : loc) (t : Target) (d : slots) : state :=
  mkState (<[l := Ordinary (with_data t d)]> (c_heap st)) (c_triggers st).

(** How a call ends. *)
Inductive completion : Type :=
| Returned (v : value)
| TypeError.

(** [Reflect.getPrototypeOf(target)] with the methods read off it: the
    ordinary object behind [target], or a [TypeError]. *)
Definition receiver (h : heap) (target : value) : option (loc * Target) :=
  match target with
  | VRef l =>
      match h !! l with
      | Some (Ordinary t) => Some (l, t)
      | _ => None
      end
  | _ => None
  end.

(** [if (!shallow && !isShallow(value) && !isReadonly(value))
      value = toRaw(value)] *)
Definition unwrap (shallow : bool) (fuel : nat) (h : heap) (val : value)
  : option value :=
  if shallow then Some val
  else
    sh ← isShallow fuel h val;
    if sh : bool then Some val
    else
      ro ← isReadonly fuel h val;
      if ro : bool then Some val else toRaw fuel h val.

Definition method : Type :=
  nat -> state -> value -> list value -> option (completion * state).

Definition arg (n : nat) (args : list value) : value :=
  nth n args VUndefined.

Definition createReadonlyMethod (type : TriggerOpTypes) : method :=
  fun fuel st this args =>
    Some (Returned
            (if bool_decide (type = DELETE) then VBool false
             else if bool_decide (type = CLEAR) then VUndefined
             else this),
          st).

Definition add (shallow : bool) : method :=
  fun fuel st this args =>
    val ← unwrap shallow fuel (c_heap st) (arg 0 args);
    target ← toRaw fuel (c_heap st) this;
    match receiver (c_heap st) target with
    | None => Some (TypeError, st)
    | Some (l, t) =>
        match Native.has (o_data t) val with
        | None => Some (TypeError, st)
        | Some hadKey =>
            if negb hadKey then
              match Native.add (o_data t) val with
              | None => Some (TypeError, st)
              | Some d =>
                  let st1 := store st l t d in
                  Some (Returned this, trigger st1 l ADD val val)
              end
            else Some (Returned this, st)
        end
    end.

(** The key under which the entry is looked for: the given key when
    [has.call(target, key)] holds, and else [toRaw(key)], tried again. *)
Definition resolve_key (fuel : nat) (h : heap) (d : slots) (key : value)
  : option (option (value * bool)) :=
  match Native.has d key with
  | None => Some None
  | Some hadKey =>
      if negb hadKey then
        key' ← toRaw fuel h key;
        match Native.has d key' with
        | None => Some None
        | Some hadKey' => Some (Some (key', hadKey'))
        end
      else Some (Some (key, hadKey))
  end.

Definition set (shallow : bool) : method :=
  fun fuel st this args =>
    val ← unwrap shallow fuel (c_heap st) (arg 1 args);
    target ← toRaw fuel (c_heap st) this;
    match receiver (c_heap st) target with
    | None => Some (TypeError, st)
    | Some (l, t) =>
        r ← resolve_key fuel (c_heap st) (o_data t) (arg 0 args);
        match r with
        | None => Some (TypeError, st)
        | Some (key, hadKey) =>
            match Native.get (o_data t) key with
            | None => Some (TypeError, st)
            | Some oldValue =>
                match Native.set (o_data t) key val with
                | None => Some (TypeError, st)
                | Some d =>
                    let st1 := store st l t d in
                    Some (Returned this,
                          if negb hadKey then trigger st1 l ADD key val
                          else if Utils.hasChanged val oldValue
                               then trigger st1 l SET key val
                               else st1)
                end
            end
        end
    end.

Definition delete : method :=
  fun fuel st this args =>
    target ← toRaw fuel (c_heap st) this;
    match receiver (c_heap st) target with
    | None => Some (TypeError, st)
    | Some (l, t) =>
        r ← resolve_key fuel (c_heap st) (o_data t) (arg 0 args);
        match r with
        | None => Some (TypeError, st)
        | Some (key, hadKey) =>
            match Native.delete (o_data t) key with
            | None => Some (TypeError, st)
            | Some (result, d) =>
                let st1 := store st l t d in
                Some (Returned (VBool result),
                      if hadKey : bool
                      then trigger st1 l DELETE key VUndefined
                      else st1)
            end
        end
    end.

Definition clear : method :=
  fun fuel st this args =>
    target ← toRaw fuel (c_heap st) this;
    match receiver (c_heap st) target with
    | None => Some (TypeError, st)
    | Some (l, t) =>
        let hadItems := negb (bool_decide (Native.size (o_data t) = Some 0)) in
        match Native.clear (o_data t) with
        | None => Some (TypeError, st)
        | Some d =>
            let st1 := store st l t d in
            Some (Returned VUndefined,
                  if hadItems then trigger st1 l CLEAR VUndefined VUndefined
                  else st1)
        end
    end.

(** The four keys that [extend] adds to [instrumentations]. *)
Inductive WriteKey : Type := K_add | K_set | K_delete | K_clear.

Definition createInstrumentations (readonly shallow : bool) (key : WriteKey)
  : method :=
  if readonly then
    match key with
    | K_add => createReadonlyMethod ADD
    | K_set => createReadonlyMethod SET
    | K_delete => createReadonlyMethod DELETE
    | K_clear => createReadonlyMethod CLEAR
    end
  else
    match key with
    | K_add => add shallow
    | K_set => set shallow
    | K_delete => delete
    | K_clear => clear
    end.

(** [key in target], by the class of the object behind [target]. *)
Definition key_in (d : slots) (key : WriteKey) : bool :=
  match d, key with
  | MapData false _, (K_set | K_delete | K_clear) => true
  | MapData true _, (K_set | K_delete) => true
  | SetData false _, (K_add | K_delete | K_clear) => true
  | SetData true _, (K_add | K_delete) => true
  | _, _ => false
  end.

(** The method call [proxy.key(...args)] on a collection proxy: the [get]
    trap of [createInstrumentationGetter] hands out the instrumented
    function when [key in target], and [undefined] otherwise, which is
    not callable. *)
Definition invoke (fuel : nat) (st : state) (proxy : loc) (key : WriteKey)
    (args : list value) : option (completion * state) :=
  match c_heap st !! proxy with
  | Some (Proxy target
            ((mutableCollectionHandlers | readonlyCollectionHandlers) as hd)) =>
      u ← underlying fuel (c_heap st) target;
      if key_in (o_data u) key then
        createInstrumentations (handler_is_readonly hd) false key
          fuel st (VRef proxy) args
      else Some (TypeError, st)
  | _ => None
  end.

(** The sentinel of a readonly write method. *)
Definition sentinel (key : WriteKey) (this : value) : value :=
  match key with
  | K_delete => VBool false
  | K_clear => VUndefined
  | K_add | K_set => this
  end.

(** Presence of a key in the slots. *)
Definition has_key (d : slots) (k : value) : bool :=
  default false (Native.has d k).

(** The calls of [trigger] made between two states. *)
Definition fired (old new : state) : list trigger_call :=
  drop (length (c_triggers old)) (c_triggers new).

End CollectionHandlers.

(** *** The read methods *)

Module CollectionReads.
Import Reactive CollectionHandlers.

(** The keys that [track] is called with: a key of the collection, or one
    of the two symbols of [dep.ts] that stand for iteration. *)
Inductive track_key : Type :=
| Key (k : value)
| ITERATE_KEY
| MAP_KEY_ITERATE_KEY.

Record track_call : Type := mkTrack {
  tk_target : value;
  tk_key : track_key
}.

(** The module state of [reactive.ts] and the calls of [track] so far. *)
Record state : Type := mkState {
  r_reactive : Reactive.state;
  r_tracks : list track_call
}.

Definition heap_of (st : state) : heap := st_heap (r_reactive st).

(** Modelled from the spec: [track] of [dep.ts], which is not among the
    sources.  Section 4.1: it resolves the dep of (target, key) and links
    the active subscriber, if there is one, to it; here the call is
    recorded in order. *)
Definition track (st : state) (target : value) (key : track_key) : state :=
  mkState (r_reactive st) (r_tracks st ++ [mkTrack target key]).

(** How a call ends: with a value, or with a TypeError. *)
Inductive result (A : Type) : Type :=
| Done (a : A) (st : state)
| Threw (st : state).
Arguments Done {A} a st.
Arguments Threw {A} st.

(** [const wrap = shallow ? toShallow : readonly ? toReadonly : toReactive],
    applied to [v]. *)
Definition wrap (readonly shallow : bool) (fuel : nat) (st : state)
    (v : value) : option (result value) :=
  if shallow then Some (Done v st)
  else
    r ← (if readonly then toReadonly fuel (r_reactive st) v
         else toReactive fuel (r_reactive st) v);
    Some (Done (fst r) (mkState (snd r) (r_tracks st))).

(** The three keys of the read instrumentations that are modelled, and
    [key in target] for them. *)
Inductive ReadKey : Type := K_get | K_has | K_size.

Definition read_key_in (d : slots) (key : ReadKey) : bool :=
  match d, key with
  | MapData false _, _ => true
  | MapData true _, (K_get | K_has) => true
  | SetData false _, (K_has | K_size) => true
  | SetData true _, K_has => true
  | _, _ => false
  end.

(** [has(key)] of the instrumentations; [target_has] is the call
    [target.has(...)].  A result of [None] stands for a lack of fuel and
    for the TypeError of reading a property of [undefined] or [null]. *)
Definition has (readonly : bool)
    (target_has : state -> value -> value -> option (result bool))
    (fuel : nat) (st : state) (this key : value) : option (result bool) :=
  target ← get_flag fuel (heap_of st) this RAW;
  rawTarget ← toRaw fuel (heap_of st) target;
  rawKey ← toRaw fuel (heap_of st) key;
  let st :=
    if negb readonly then
      let st :=
        if Utils.hasChanged key rawKey then track st rawTarget (Key key)
        else st in
      track st rawTarget (Key rawKey)
    else st in
  if Utils.strictEquals key rawKey then target_has st target key
  else
    r ← target_has st target key;
    match r with
    | Done true st1 => Some (Done true st1)
    | Done false st1 => target_has st1 target rawKey
    | Threw st1 => Some (Threw st1)
    end.

(** [get(key)] of the instrumentations; [target_get] is the call
    [target.get(...)]. *)
Definition get (readonly shallow : bool)
    (target_get : state -> value -> value -> option (result value))
    (fuel : nat) (st : state) (this key : value) : option (result value) :=
  target ← get_flag fuel (heap_of st) this RAW;
  rawTarget ← toRaw fuel (heap_of st) target;
  rawKey ← toRaw fuel (heap_of st) key;
  let st :=
    if negb readonly then
      let st :=
        if Utils.hasChanged key rawKey then track st rawTarget (Key key)
        else st in
      track st rawTarget (Key rawKey)
    else st in
  match receiver (heap_of st) rawTarget with
  | None => Some (Threw st)
  | Some (_, t) =>
      let wrapped (r : result value) : option (result value) :=
        match r with
        | Done v st1 => wrap readonly shallow fuel st1 v
        | Threw st1 => Some (Threw st1)
        end in
      match Native.has (o_data t) key with
      | None => Some (Threw st)
      | Some true => r ← target_get st target key; wrapped r
      | Some false =>
          match Native.has (o_data t) rawKey with
          | None => Some (Threw st)
          | Some true => r ← target_get st target rawKey; wrapped r
          | Some false =>
              if negb (Utils.strictEquals target rawTarget) then
                r ← target_get st target key;
                match r with
                | Done _ st1 => Some (Done VUndefined st1)
                | Threw st1 => Some (Threw st1)
                end
              else Some (Done VUndefined st)
          end
      end
  end.

(** The getter [size] of the instrumentations; [target_size] is
    [Reflect.get(target, 'size', target)].  The number of entries is given
    as a natural number, [None] is [undefined]. *)
Definition size (readonly : bool)
    (target_size : state -> value -> option (result (option nat)))
    (fuel : nat) (st : state) (this : value)
  : option (result (option nat)) :=
  target ← get_flag fuel (heap_of st) this RAW;
  st1 ← (if negb readonly then
           rawTarget ← toRaw fuel (heap_of st) target;
           Some (track st rawTarget ITERATE_KEY)
         else Some st);
  target_size st1 target.

(** The call [target.has(key)]: the built-in method on a collection, the
    instrumented one through a collection proxy whose target has the
    method, and a TypeError where there is no such method.  A proxy with
    the base handlers is not covered, its trap is in [baseHandlers.ts].
    [depth] bounds the nesting of proxies, [fuel] is for the walks of the
    engine and of [toRaw]. *)
Fixpoint call_has (depth fuel : nat) (st : state) (target key : value)
  : option (result bool) :=
  match depth with
  | O => None
  | S depth' =>
      match target with
      | VRef l =>
          match heap_of st !! l with
          | Some (Ordinary t) =>
              match Native.has (o_data t) key with
              | Some b => Some (Done b st)
              | None => Some (Threw st)
              end
          | Some (Proxy tgt
                    ((mutableCollectionHandlers
                     | readonlyCollectionHandlers) as hd)) =>
              u ← underlying fuel (heap_of st) tgt;
              if read_key_in (o_data u) K_has then
                has (handler_is_readonly hd) (call_has depth' fuel) fuel st
                  target key
              else Some (Threw st)
          | _ => None
          end
      | _ => Some (Threw st)
      end
  end.

(** The call [target.get(key)]. *)
Fixpoint call_get (depth fuel : nat) (st : state) (target key : value)
  : option (result value) :=
  match depth with
  | O => None
  | S depth' =>
      match target with
      | VRef l =>
          match heap_of st !! l with
          | Some (Ordinary t) =>
              match Native.get (o_data t) key with
              | Some v => Some (Done v st)
              | None => Some (Threw st)
              end
          | Some (Proxy tgt
                    ((mutableCollectionHandlers
                     | readonlyCollectionHandlers) as hd)) =>
              u ← underlying fuel (heap_of st) tgt;
              if read_key_in (o_data u) K_get then
                get (handler_is_readonly hd) false (call_get depth' fuel)
                  fuel st target key
              else Some (Threw st)
          | _ => None
          end
      | _ => Some (Threw st)
      end
  end.

(** [Reflect.get(target, 'size', target)]; on an object this is the read
    [target.size]. *)
Fixpoint read_size (depth fuel : nat) (st : state) (target : value)
  : option (result (option nat)) :=
  match depth with
  | O => None
  | S depth' =>
      match target with
      | VRef l =>
          match heap_of st !! l with
          | Some (Ordinary t) => Some (Done (Native.size (o_data t)) st)
          | Some (Proxy tgt
                    ((mutableCollectionHandlers
                     | readonlyCollectionHandlers) as hd)) =>
              u ← underlying fuel (heap_of st) tgt;
              if read_key_in (o_data u) K_size then
                size (handler_is_readonly hd) (read_size depth' fuel) fuel
                  st target
              else Some (Done None st)
          | _ => None
          end
      | _ => Some (Threw st)
      end
  end.

(** The calls of [track] for a key, as [get] and [has] make them. *)
Definition key_tracks (rawTarget key rawKey : value) : list track_call :=
  (if Utils.hasChanged key rawKey then [mkTrack rawTarget (Key key)]
   else []) ++ [mkTrack rawTarget (Key rawKey)].

Definition tracked (st : state) (calls : list track_call) : state :=
  mkState (r_reactive st) (r_tracks st ++ calls).

End CollectionReads.

(** ** reactivity/effectScope.ts *)

Module EffectScope.

(** The calls that leave the module: [ReactiveEffect.stop] of [effect.ts],
    which is not among the sources, and the cleanup callbacks of the user.
    Each call is recorded with the scope that makes it, before the callee
    runs. *)
Inductive event : Type :=
| EffectStopped (scope : loc) (effect : positive)
| CleanupRun (scope : loc) (fn : positive).

(** The fields of [class EffectScope].  An array element is [None] where
    the array has a hole. *)
Record EffectScope : Type := mkScope {
  _active : bool;
  _on : nat;
  effects : list positive;
  cleanups : list positive;
  _isPaused : bool;
  parent : option loc;
  scopes : option (list (option loc));
  index : option nat;
  detached : bool;
  prevScope : option loc
}.

Record state : Type := mkState {
  heap : gmap loc EffectScope;
  activeEffectScope : option loc;
  log : list event
}.

Inductive exn : Type :=
| TypeError
| Thrown (payload : positive).

(** How a call ends: it returns, it throws, or the fuel ran out. *)
Inductive outcome (A : Type) : Type :=
| Ret (a : A) (st : state)
| Throw (e : exn) (st : state)
| OutOfFuel.
Arguments Ret {A} a st.
Arguments Throw {A} e st.
Arguments OutOfFuel {A}.

(** Sequencing: a throw or a lack of fuel ends the computation. *)
Definition obind {A B : Type} (m : outcome A)
    (k : A -> state -> outcome B) : outcome B :=
  match m with
  | Ret a st => k a st
  | Throw e st => Throw e st
  | OutOfFuel => OutOfFuel
  end.

Definition set_heap (st : state) (h : gmap loc EffectScope) : state :=
  mkState h (activeEffectScope st) (log st).

Definition set_activeEffectScope (st : state) (a : option loc) : state :=
  mkState (heap st) a (log st).

Definition emit (st : state) (evs : list event) : state :=
  mkState (heap st) (activeEffectScope st) (log st ++ evs).

(** Field updates of one scope. *)
Definition update (st : state) (this : loc) (f : EffectScope -> EffectScope)
  : state :=
  match heap st !! this with
  | Some sc => set_heap st (<[this := f sc]> (heap st))
  | None => st
  end.

Definition with_active (b : bool) (sc : EffectScope) : EffectScope :=
  mkScope b (_on sc) (effects sc) (cleanups sc) (_isPaused sc) (parent sc)
    (scopes sc) (index sc) (detached sc) (prevScope sc).

Definition with_effects (l : list positive) (sc : EffectScope) : EffectScope :=
  mkScope (_active sc) (_on sc) l (cleanups sc) (_isPaused sc) (parent sc)
    (scopes sc) (index sc) (detached sc) (prevScope sc).

Definition with_cleanups (l : list positive) (sc : EffectScope) : EffectScope :=
  mkScope (_active sc) (_on sc) (effects sc) l (_isPaused sc) (parent sc)
    (scopes sc) (index sc) (detached sc) (prevScope sc).

Definition with_parent (p : option loc) (sc : EffectScope) : EffectScope :=
  mkScope (_active sc) (_on sc) (effects sc) (cleanups sc) (_isPaused sc) p
    (scopes sc) (index sc) (detached sc) (prevScope sc).

Definition with_scopes (l : option (list (option loc))) (sc : EffectScope)
  : EffectScope :=
  mkScope (_active sc) (_on sc) (effects sc) (cleanups sc) (_isPaused sc)
    (parent sc) l (index sc) (detached sc) (prevScope sc).

Definition with_index (i : option nat) (sc : EffectScope) : EffectScope :=
  mkScope (_active sc) (_on sc) (effects sc) (cleanups sc) (_isPaused sc)
    (parent sc) (scopes sc) i (detached sc) (prevScope sc).

(** [new EffectScope(detached)] *)
Definition new_EffectScope (detached : bool) (st : state) : loc * state :=
  let this := fresh (dom (heap st)) in
  let sc :=
    mkScope true 0 [] [] false (activeEffectScope st) None None detached
      None in
  let st1 := set_heap st (<[this := sc]> (heap st)) in
  match activeEffectScope st with
  | Some a =>
      if negb detached then
        match heap st !! a with
        | Some asc =>
            let l := default [] (scopes asc) in
            (this,
             set_heap st
               (<[this := with_index (Some (length l)) sc]>
                  (<[a := with_scopes (Some (l ++ [Some this])) asc]>
                     (heap st))))
        | None => (this, st1)
        end
      else (this, st1)
  | None => (this, st1)
  end.

(** [run(fn)]; the closure [fn] is a function of the state. *)
Definition run {T : Type} (this : loc) (fn : state -> outcome T)
    (st : state) : outcome (option T) :=
  match heap st !! this with
  | Some sc =>
      if _active sc then
        let currentEffectScope := activeEffectScope st in
        match fn (set_activeEffectScope st (Some this)) with
        | Ret r st1 =>
            Ret (Some r) (set_activeEffectScope st1 currentEffectScope)
        | Throw e st1 =>
            Throw e (set_activeEffectScope st1 currentEffectScope)
        | OutOfFuel => OutOfFuel
        end
      else Ret None st
  | None => Throw TypeError st
  end.

(** [arr[i] = v]: in range it overwrites, out of range the array grows. *)
Definition array_set (l : list (option loc)) (i : nat) (v : loc)
  : list (option loc) :=
  if bool_decide (i < length l) then <[i := Some v]> l
  else l ++ replicate (i - length l) None ++ [Some v].

(** [for (i = .., l = n; i < l; i++) this.scopes[i].stop(true)], with
    [n] rounds left. *)
Fixpoint stop_scopes (stop : loc -> state -> outcome unit) (this : loc)
    (i n : nat) (st : state) : outcome unit :=
  match n with
  | O => Ret tt st
  | S n' =>
      match heap st !! this with
      | Some sc =>
          match scopes sc with
          | Some l =>
              match l !! i with
              | Some (Some child) =>
                  obind (stop child st)
                    (fun _ st1 => stop_scopes stop this (S i) n' st1)
              | _ => Throw TypeError st
              end
          | None => Throw TypeError st
          end
      | None => Throw TypeError st
      end
  end.

(** The dereference from the parent at the end of [stop]. *)
Definition unlink (this : loc) (st : state) : outcome unit :=
  match heap st !! this with
  | Some sc =>
      match parent sc with
      | Some p =>
          match heap st !! p with
          | Some psc =>
              match scopes psc with
              | Some l =>
                  (* const last = this.parent.scopes!.pop() *)
                  let st1 :=
                    update st p (with_scopes (Some (removelast l))) in
                  match last l with
                  | Some (Some lastScope) =>
                      if bool_decide (lastScope ≠ this) then
                        let st2 :=
                          match index sc with
                          | Some i =>
                              update st1 p
                                (with_scopes
                                   (Some (array_set (removelast l) i lastScope)))
                          | None => st1
                          end in
                        Ret tt (update st2 lastScope (with_index (index sc)))
                      else Ret tt st1
                  | _ => Ret tt st1
                  end
              | None => Throw TypeError st
              end
          | None => Throw TypeError st
          end
      | None => Ret tt st
      end
  | None => Throw TypeError st
  end.

(** Code that [stop] calls and that is not of this module:
    [effects[i].stop()], which runs the [onStop] of the user, and
    [cleanups[i]()].  Like the closure of [run] it is a function of the
    state: it may throw and it may call back into the scopes. *)
Definition callback : Type := positive -> state -> outcome unit.

(** The callback that returns and leaves the scopes alone. *)
Definition quiet : callback := fun _ st => Ret tt st.

(** [this.f]; [this] is an allocated scope wherever the code runs. *)
Definition field {A : Type} (this : loc) (f : EffectScope -> A) (st : state)
  : outcome A :=
  match heap st !! this with
  | Some sc => Ret (f sc) st
  | None => Throw TypeError st
  end.

(** [for (i = .., l = n; i < l; i++) this.effects[i].stop()] and the same
    loop over [this.cleanups], with [n] rounds left: the length is read
    once, the array again in each round. *)
Fixpoint stop_calls (arr : EffectScope -> list positive)
    (ev : loc -> positive -> event) (call : callback) (this : loc)
    (i n : nat) (st : state) : outcome unit :=
  match n with
  | O => Ret tt st
  | S n' =>
      match heap st !! this with
      | Some sc =>
          match arr sc !! i with
          | Some x =>
              obind (call x (emit st [ev this x]))
                (fun _ st1 => stop_calls arr ev call this (S i) n' st1)
          | None => Throw TypeError st
          end
      | None => Throw TypeError st
      end
  end.

(** [this.scopes.length = 0] *)
Definition truncate_scopes (this : loc) (st : state) : outcome unit :=
  match heap st !! this with
  | Some sc =>
      match scopes sc with
      | Some _ => Ret tt (update st this (with_scopes (Some [])))
      | None => Throw TypeError st
      end
  | None => Throw TypeError st
  end.

(** [stop(fromParent)] *)
Fixpoint stop (effect_stop cleanup : callback) (fuel : nat) (this : loc)
    (fromParent : bool) (st : state) : outcome unit :=
  match fuel with
  | O => OutOfFuel
  | S f =>
      match heap st !! this with
      | None => Throw TypeError st
      | Some sc =>
          if _active sc then
            let st := update st this (with_active false) in
            obind
              (stop_calls effects EffectStopped effect_stop this 0
                 (length (effects sc)) st)
              (fun _ st =>
            let st := update st this (with_effects []) in
            obind (field this cleanups st) (fun cs st =>
            obind
              (stop_calls cleanups CleanupRun cleanup this 0 (length cs) st)
              (fun _ st =>
            let st := update st this (with_cleanups []) in
            obind (field this scopes st) (fun ss st =>
            obind
              (match ss with
               | Some l =>
                   obind
                     (stop_scopes
                        (fun c => stop effect_stop cleanup f c true) this 0
                        (length l) st)
                     (fun _ st1 => truncate_scopes this st1)
               | None => Ret tt st
               end)
              (fun _ st =>
            obind (field this (fun sc => (detached sc, parent sc)) st)
              (fun dp st =>
            obind
              (if negb (fst dp) && bool_decide (is_Some (snd dp))
                  && negb fromParent
               then unlink this st else Ret tt st)
              (fun _ st =>
                 Ret tt (update st this (with_parent None)))))))))
          else Ret tt st
      end
  end.

Definition with_on (n : nat) (sc : EffectScope) : EffectScope :=
  mkScope (_active sc) n (effects sc) (cleanups sc) (_isPaused sc)
    (parent sc) (scopes sc) (index sc) (detached sc) (prevScope sc).

Definition with_prevScope (p : option loc) (sc : EffectScope) : EffectScope :=
  mkScope (_active sc) (_on sc) (effects sc) (cleanups sc) (_isPaused sc)
    (parent sc) (scopes sc) (index sc) (detached sc) p.

(** [++n] on a counter held in a double: exact below 2^53, where the
    successor is no longer representable and the sum rounds back. *)
Definition incr (n : nat) : nat :=
  if bool_decide (Z.of_nat n < 2 ^ 53)%Z then S n else n.

(** [on()] *)
Definition on (this : loc) (st : state) : outcome unit :=
  match heap st !! this with
  | Some sc =>
      let n := incr (_on sc) in
      let st1 := update st this (with_on n) in
      if bool_decide (n = 1) then
        let st2 := update st1 this (with_prevScope (activeEffectScope st1)) in
        Ret tt (set_activeEffectScope st2 (Some this))
      else Ret tt st1
  | None => Throw TypeError st
  end.

(** [off()] *)
Definition off (this : loc) (st : state) : outcome unit :=
  match heap st !! this with
  | Some sc =>
      if bool_decide (0 < _on sc) then
        let n := _on sc - 1 in
        let st1 := update st this (with_on n) in
        if bool_decide (n = 0) then
          let st2 := set_activeEffectScope st1 (prevScope sc) in
          Ret tt (update st2 this (with_prevScope None))
        else Ret tt st1
      else Ret tt st
  | None => Throw TypeError st
  end.

(** [n] calls of [f] in a row. *)
Fixpoint times (n : nat) (f : state -> outcome unit) (st : state)
  : outcome unit :=
  match n with
  | O => Ret tt st
  | S n' => obind (f st) (fun _ st1 => times n' f st1)
  end.

Definition with_isPaused (b : bool) (sc : EffectScope) : EffectScope :=
  mkScope (_active sc) (_on sc) (effects sc) (cleanups sc) b (parent sc)
    (scopes sc) (index sc) (detached sc) (prevScope sc).

(** The calls of [ReactiveEffect.pause] and [ReactiveEffect.resume] of
    [effect.ts], each with the scope that made it; as with [stop], an
    effect is not taken to call back into a scope. *)
Inductive effect_call : Type :=
| Paused (scope : loc) (effect : positive)
| Resumed (scope : loc) (effect : positive).

(** [for (i = .., l = n; i < l; i++) this.scopes[i].pause()], and the
    same loop with [resume]; [call] is the method, and the calls on
    effects that it makes are collected in order. *)
Fixpoint each_scope (call : loc -> state -> outcome (list effect_call))
    (this : loc) (i n : nat) (st : state) : outcome (list effect_call) :=
  match n with
  | O => Ret [] st
  | S n' =>
      match heap st !! this with
      | Some sc =>
          match scopes sc with
          | Some l =>
              match l !! i with
              | Some (Some child) =>
                  obind (call child st)
                    (fun c1 st1 =>
                       obind (each_scope call this (S i) n' st1)
                         (fun c2 st2 => Ret (c1 ++ c2) st2))
              | _ => Throw TypeError st
              end
          | None => Throw TypeError st
          end
      | None => Throw TypeError st
      end
  end.

(** [for (i = 0, l = this.effects.length; i < l; i++) this.effects[i].m()]
    for the method recorded by [made]. *)
Definition each_effect (made : loc -> positive -> effect_call) (this : loc)
    (before : list effect_call) (st : state) : outcome (list effect_call) :=
  match heap st !! this with
  | Some sc => Ret (before ++ map (made this) (effects sc)) st
  | None => Throw TypeError st
  end.

(** [pause()] *)
Fixpoint pause (fuel : nat) (this : loc) (st : state)
  : outcome (list effect_call) :=
  match fuel with
  | O => OutOfFuel
  | S f =>
      match heap st !! this with
      | None => Throw TypeError st
      | Some sc =>
          if _active sc then
            let st := update st this (with_isPaused true) in
            obind
              (match scopes sc with
               | Some l => each_scope (pause f) this 0 (length l) st
               | None => Ret [] st
               end)
              (each_effect Paused this)
          else Ret [] st
      end
  end.


End EffectScope.

(** ** Well-formed scope trees *)

Module ScopeInv.
Import EffectScope.

Definition is_inactive (st : state) (y : loc) : Prop :=
  ∃ sc, heap st !! y = Some sc ∧ _active sc = false.

(** The record of a scope after [stop]. *)
Definition stopped (sc : EffectScope) : EffectScope :=
  mkScope false (_on sc) [] [] (_isPaused sc) None
    ((fun _ => []) <$> scopes sc) (index sc) (detached sc) (prevScope sc).

(** What the scope [y] with record [sc] emits when it stops: its effects in
    insertion order, then its cleanups in insertion order. *)
Definition own_events (y : loc) (sc : EffectScope) : list event :=
  map (EffectStopped y) (effects sc) ++ map (CleanupRun y) (cleanups sc).

Definition owner (e : event) : loc :=
  match e with
  | EffectStopped y _ => y
  | CleanupRun y _ => y
  end.

Definition events_of (y : loc) (evs : list event) : list event :=
  List.filter (fun e => bool_decide (owner e = y)) evs.

(** The number of scopes still active. *)
Definition nactive (st : state) : nat :=
  size (filter (fun kv => _active (snd kv) = true) (heap st)).

(** [c] is an element of the [scopes] array of [sc]. *)
Definition child_of (sc : EffectScope) (c : loc) : Prop :=
  Some c ∈ default [] (scopes sc).

(** The descendants of a scope, itself included. *)
Inductive desc (st : state) : loc -> loc -> Prop :=
| desc_refl x : desc st x x
| desc_step x sc c d :
    heap st !! x = Some sc → child_of sc c → desc st c d → desc st x d.

(** Arrays have no holes and name allocated scopes. *)
Definition closed (st : state) : Prop :=
  ∀ p sc l i c,
    heap st !! p = Some sc → scopes sc = Some l → l !! i = Some c →
    ∃ cl, c = Some cl ∧ is_Some (heap st !! cl).

(** A parent is older than its children. *)
Definition ranked (rank : loc -> nat) (st : state) : Prop :=
  ∀ p sc c, heap st !! p = Some sc → child_of sc c → rank p < rank c.

(** The states the constructor and [stop] produce: a scope in an array has
    that array's owner as parent and its position as index; a scope with a
    parent that is not detached is in the parent's array at its index; a
    stopped scope has no parent; and creation order ranks the tree. *)
Record wf (rank : loc -> nat) (st : state) : Prop := mkWf {
  wf_children : ∀ p sc l i c,
    heap st !! p = Some sc → scopes sc = Some l → l !! i = Some c →
    ∃ cl csc, c = Some cl ∧ heap st !! cl = Some csc ∧
              parent csc = Some p ∧ index csc = Some i ∧
              detached csc = false;
  wf_parent : ∀ c csc p,
    heap st !! c = Some csc → parent csc = Some p → detached csc = false →
    ∃ psc l i, heap st !! p = Some psc ∧ scopes psc = Some l ∧
               index csc = Some i ∧ l !! i = Some (Some c);
  wf_inactive : ∀ y sc,
    heap st !! y = Some sc → _active sc = false → parent sc = None;
  wf_ranked : ranked rank st
}.

(** Removal of [this] from its parent's array [l], as [stop] does it: pop
    the last element and, unless it is [this], put it at index [i]. *)
Definition swap_pop (this : loc) (l : list (option loc)) (i : option nat)
  : list (option loc) :=
  match last l with
  | Some (Some lastScope) =>
      if bool_decide (lastScope ≠ this) then
        match i with
        | Some i => array_set (removelast l) i lastScope
        | None => removelast l
        end
      else removelast l
  | _ => removelast l
  end.

(** What the recursion of [stop] does between two states, [new] being the
    events it emits: stopped scopes stay as they are; an active scope is
    either left alone and emits nothing, or is stopped and emits its own
    events once; and the children of a scope it stops are stopped. *)
Record cascade (st : state) (new : list event) (st' : state) : Prop :=
  mkCascade {
  cs_dom : ∀ y, heap st !! y = None → heap st' !! y = None;
  cs_inactive : ∀ y sc,
    heap st !! y = Some sc → _active sc = false → heap st' !! y = Some sc;
  cs_active : ∀ y sc,
    heap st !! y = Some sc → _active sc = true →
    (heap st' !! y = Some sc ∧ events_of y new = []) ∨
    (heap st' !! y = Some (stopped sc) ∧ events_of y new = own_events y sc);
  cs_quiet : ∀ y,
    (∀ sc, heap st !! y = Some sc → _active sc = false) →
    events_of y new = [];
  cs_children : ∀ y sc c,
    heap st !! y = Some sc → _active sc = true → is_inactive st' y →
    child_of sc c → is_inactive st' c;
  cs_log : log st' = log st ++ new;
  cs_activeEffectScope : activeEffectScope st' = activeEffectScope st
}.

(** [stop(true)] with fuel [f] from a closed, ranked state with fewer than
    [f] active scopes: it returns, cascades, leaves [x] stopped, and does
    not touch a scope that is not younger than [x]. *)
Definition stop_ok (E C : callback) (rank : loc -> nat) (f : nat) : Prop :=
  ∀ x st,
    closed st → ranked rank st → is_Some (heap st !! x) → nactive st < f →
    ∃ st' new,
      stop E C f x true st = Ret tt st' ∧
      cascade st new st' ∧
      is_inactive st' x ∧
      (∀ y, y ≠ x → rank y ≤ rank x → heap st' !! y = heap st !! y).

(** The state in which [stop] enters the loop over the child scopes. *)
Definition begin_stop (this : loc) (sc : EffectScope) (st : state) : state :=
  mkState
    (<[this := with_cleanups [] (with_effects [] (with_active false sc))]>
       (heap st))
    (activeEffectScope st)
    (log st ++ own_events this sc).

(** Where the stopped scopes come from: a scope that the recursion stops is
    one of the roots or a child of a scope that it stops. *)
Definition origin (root : loc -> Prop) (st st' : state) : Prop :=
  ∀ y sc,
    heap st !! y = Some sc → _active sc = true → is_inactive st' y →
    root y ∨
    ∃ z zsc, heap st !! z = Some zsc ∧ _active zsc = true ∧
             is_inactive st' z ∧ child_of zsc y.

(** [stop(true)] with fuel [f] stops only [x] and scopes below it. *)
Definition stop_origin (E C : callback) (rank : loc -> nat) (f : nat)
  : Prop :=
  ∀ x st st',
    closed st → ranked rank st → is_Some (heap st !! x) → nactive st < f →
    stop E C f x true st = Ret tt st' → origin (eq x) st st'.

(** The heap after [s.stop()], relative to the heap in which [s] and the
    scopes below it are stopped: nothing else differs when [s] is not linked
    to a parent; otherwise the parent has the swap-and-pop array, and the
    scope that was moved has the index of [s]. *)
Definition unlinked_from (st : state) (s : loc) (sc : EffectScope)
    (st_t st' : state) : Prop :=
  (negb (detached sc) && bool_decide (is_Some (parent sc)) = false ∧
   ∀ y, heap st' !! y = heap st_t !! y) ∨
  (∃ P psc l i,
     detached sc = false ∧ parent sc = Some P ∧
     heap st !! P = Some psc ∧ scopes psc = Some l ∧
     index sc = Some i ∧ l !! i = Some (Some s) ∧
     heap st' !! P =
       Some (with_scopes (Some (swap_pop s l (Some i))) psc) ∧
     (∀ y, y ≠ P → (last l ≠ Some (Some y) ∨ y = s) →
           heap st' !! y = heap st_t !! y) ∧
     (∀ y ysc, last l = Some (Some y) → y ≠ s →
               heap st_t !! y = Some ysc →
               heap st' !! y = Some (with_index (Some i) ysc))).

(** Well-formedness up to the link of [s]: the state in which [s] and the
    scopes below it are stopped, while [s] may still sit in the array of its
    former parent. *)
Record wfx (rank : loc -> nat) (s : loc) (st : state) : Prop := mkWfx {
  wfx_children : ∀ p sc l i c,
    heap st !! p = Some sc → scopes sc = Some l → l !! i = Some c →
    ∃ cl, c = Some cl ∧
          (cl = s ∨
           ∃ csc, heap st !! cl = Some csc ∧ parent csc = Some p ∧
                  index csc = Some i ∧ detached csc = false);
  wfx_parent : ∀ c csc p,
    heap st !! c = Some csc → parent csc = Some p → detached csc = false →
    ∃ psc l i, heap st !! p = Some psc ∧ scopes psc = Some l ∧
               index csc = Some i ∧ l !! i = Some (Some c);
  wfx_inactive : ∀ y sc,
    heap st !! y = Some sc → _active sc = false → parent sc = None;
  wfx_ranked : ranked rank st
}.

(** The scope that made a call on an effect, and the calls of one scope. *)
Definition scope_of (c : effect_call) : loc :=
  match c with
  | Paused y _ => y
  | Resumed y _ => y
  end.

Definition calls_of (y : loc) (calls : list effect_call)
  : list effect_call :=
  List.filter (fun c => bool_decide (scope_of c = y)) calls.

(** What [pause] and [resume] do between two states: the scopes of [D]
    get the flag [b] and call [made] on each of their effects, once and in
    order; no other scope changes or makes a call. *)
Record sweep (b : bool) (made : loc -> positive -> effect_call)
    (D : loc -> Prop) (st : state) (calls : list effect_call)
    (st' : state) : Prop := mkSweep {
  sw_in : ∀ y sc,
    D y → heap st !! y = Some sc →
    heap st' !! y = Some (with_isPaused b sc) ∧
    calls_of y calls = map (made y) (effects sc);
  sw_out : ∀ y,
    ¬ D y → heap st' !! y = heap st !! y ∧ calls_of y calls = [];
  sw_either : ∀ y,
    heap st' !! y = heap st !! y ∨
    heap st' !! y = with_isPaused b <$> heap st !! y;
  sw_log : log st' = log st;
  sw_activeEffectScope : activeEffectScope st' = activeEffectScope st
}.

(** What the recursion of [pause] and [resume] needs of a state: arrays
    name allocated scopes, a parent is older than its children, a scope in
    an array is active and has the owner of the array as parent, and no
    scope is younger than [bound]. *)
Record tree_ok (rank : loc -> nat) (bound : nat) (st : state) : Prop :=
  mkTree {
  tr_closed : closed st;
  tr_ranked : ranked rank st;
  tr_child : ∀ p sc c,
    heap st !! p = Some sc → child_of sc c →
    ∃ csc, heap st !! c = Some csc ∧ _active csc = true ∧
           parent csc = Some p;
  tr_nodup : ∀ p sc l,
    heap st !! p = Some sc → scopes sc = Some l → NoDup l;
  tr_bound : ∀ y, is_Some (heap st !! y) → rank y ≤ bound
}.

#[global] Instance EffectScope_eq_dec : EqDecision EffectScope.
Proof. solve_decision. Defined.

(** Two records that differ at most in fields that [pause], [resume] and
    the counters of [on] and [off] write; and two states whose scopes are
    alike. *)
Definition alike (sc sc' : EffectScope) : Prop :=
  scopes sc' = scopes sc ∧ _active sc' = _active sc ∧
  parent sc' = parent sc ∧ effects sc' = effects sc.

Definition same_shape (st st' : state) : Prop :=
  ∀ y,
    match heap st !! y, heap st' !! y with
    | Some sc, Some sc' => alike sc sc'
    | None, None => True
    | _, _ => False
    end.


(** The state while [on()] has been called [n] times more often than
    [off()] on the scope [s], whose record was [sc] before the first call
    in the state [st]. *)
Definition switched_on (st : state) (s : loc) (sc : EffectScope) (n : nat)
  : state :=
  mkState
    (<[s := with_prevScope (activeEffectScope st) (with_on n sc)]> (heap st))
    (Some s) (log st).

(** The rank after [new EffectScope]: the new scope is younger than the
    scope it is created under. *)
Definition rank_new (rank : loc -> nat) (st : state) (y : loc) : nat :=
  if bool_decide (y = fresh (dom (heap st)))
  then S (default 0 (rank <$> activeEffectScope st))
  else rank y.

(** The state after the loop and [this.scopes.length = 0]. *)
Definition after_scopes (x : loc) (sc : EffectScope) (st_b : state) : state :=
  match scopes sc with
  | Some _ => update st_b x (with_scopes (Some []))
  | None => st_b
  end.

End ScopeInv.

(** ** reactivity/computed.ts *)

Module Computed.

Section ComputedRefImpl.

(** [Dep] and [Link] of [dep.ts], [new Dep(this)], and the constant
    [EffectFlags.DIRTY] of [effect.ts]: these files are not among the
    sources, and nothing below looks inside them. *)
Variables Dep Link : Type.
Variable new_Dep : loc -> Dep.
Variable DIRTY : Z.

(** The fields of [class ComputedRefImpl]; getter and setter are
    identified by name. *)
Record ComputedRefImpl : Type := mkComputed {
  _value : value;
  dep : Dep;
  __v_isRef : bool;
  __v_isReadonly : bool;
  deps : option Link;
  depsTail : option Link;
  flags : Z;
  globalVersion : Z;
  next : option loc;
  fn : positive;
  setter : option positive
}.

(** The rest of the world: whatever the user's setters read and write. *)
Variable World : Type.

(** The computed objects, the module variable [globalVersion] of
    [dep.ts], and the world. *)
Record state : Type := mkState {
  heap : gmap loc ComputedRefImpl;
  dep_globalVersion : Z;
  world : World
}.

Inductive outcome : Type :=
| Ret (st : state)
| Throw (e : value) (st : state)
| TypeError.

(** The call [f(newValue)] of a user-supplied setter. *)
Variable call : positive -> value -> state -> outcome.

(** [new ComputedRefImpl(fn, setter)]; [!setter] is [true] exactly for
    [undefined]. *)
Definition new_ComputedRefImpl (fn : positive) (setter : option positive)
    (st : state) : loc * state :=
  let this := fresh (dom (heap st)) in
  (this,
   mkState
     (<[this :=
          mkComputed VUndefined (new_Dep this) true
            (negb (bool_decide (is_Some setter)))
            None None DIRTY (dep_globalVersion st - 1)%Z None fn setter]>
        (heap st))
     (dep_globalVersion st) (world st)).

(** [set value(newValue)] *)
Definition set_value (this : loc) (newValue : value) (st : state)
  : outcome :=
  match heap st !! this with
  | Some c =>
      match setter c with
      | Some f => call f newValue st
      | None => Ret st
      end
  | None => TypeError
  end.

(** A computed as [reactive.ts] sees it: an extensible plain object
    whose readonly flag is the field [__v_isReadonly]. *)
Definition as_Target (c : ComputedRefImpl) : Target :=
  mkTarget "Object" false true None None (Some (__v_isReadonly c)) None
    VUndefined NoSlots.

End ComputedRefImpl.

Arguments mkComputed {Dep Link}.
Arguments _value {Dep Link}.
Arguments dep {Dep Link}.
Arguments __v_isRef {Dep Link}.
Arguments __v_isReadonly {Dep Link}.
Arguments deps {Dep Link}.
Arguments depsTail {Dep Link}.
Arguments flags {Dep Link}.
Arguments globalVersion {Dep Link}.
Arguments next {Dep Link}.
Arguments fn {Dep Link}.
Arguments setter {Dep Link}.
Arguments mkState {Dep Link World}.
Arguments heap {Dep Link World}.
Arguments dep_globalVersion {Dep Link World}.
Arguments world {Dep Link World}.
Arguments Ret {Dep Link World}.
Arguments Throw {Dep Link World}.
Arguments TypeError {Dep Link World}.
Arguments new_ComputedRefImpl {Dep Link} new_Dep DIRTY {World}.
Arguments set_value {Dep Link World}.
Arguments as_Target {Dep Link}.

End Computed.

(** ** Sample states *)

Module Samples.

(** [{}] allocated in a fresh module state. *)
Definition plainObject : Target :=
  mkTarget "Object" false true None None None None VUndefined NoSlots.

Definition st_plain : Reactive.state :=
  snd (Reactive.alloc Reactive.init plainObject).

Definition o_plain : loc := fst (Reactive.alloc Reactive.init plainObject).

(** A second [{}] allocated after the first. *)
Definition st_pair : Reactive.state :=
  snd (Reactive.alloc st_plain plainObject).

Definition o_second : loc := fst (Reactive.alloc st_plain plainObject).

(** [Object.freeze({})] *)
Definition frozenObject : Target :=
  mkTarget "Object" false false None None None None VUndefined NoSlots.

Definition st_frozen : Reactive.state :=
  snd (Reactive.alloc Reactive.init frozenObject).

Definition o_frozen : loc := fst (Reactive.alloc Reactive.init frozenObject).

(** A computed without a setter, with trivial [Dep] and [Link]. *)
Definition readonlyComputed : Computed.ComputedRefImpl unit unit :=
  Computed.mkComputed VUndefined tt true true None None 16%Z 0%Z None
    1%positive None.

Definition st_computed : Reactive.state :=
  snd (Reactive.alloc Reactive.init (Computed.as_Target readonlyComputed)).

Definition o_computed : loc :=
  fst (Reactive.alloc Reactive.init (Computed.as_Target readonlyComputed)).

(** [new Map([["a", true]])] at 1 and a collection proxy of it at 2. *)
Definition mapTarget : Target :=
  mkTarget "Map" false true None None None None VUndefined
    (MapData false [(VStr "a", VBool true)]).

Definition st_collection (hd : ProxyHandler) : CollectionHandlers.state :=
  CollectionHandlers.mkState
    (<[2%positive := Proxy 1%positive hd]>
       (<[1%positive := Ordinary mapTarget]> ∅))
    [].

(** [new WeakMap([[Symbol(), true]])] at 1 and a reactive proxy of it at 2;
    the symbol 1 is not in the global symbol registry, the symbol 2 is. *)
Definition weakMapTarget : Target :=
  mkTarget "WeakMap" false true None None None None VUndefined
    (MapData true [(VSym 1%positive, VBool true)]).

Definition st_weakmap : CollectionHandlers.state :=
  CollectionHandlers.mkState
    (<[2%positive := Proxy 1%positive mutableCollectionHandlers]>
       (<[1%positive := Ordinary weakMapTarget]> ∅))
    [].



(** [const o = {}; const m = new Map([["a", o]])], then [reactive(m)] and
    [readonly(reactive(m))]: the object at 1, the Map at 2, its reactive
    proxy at 3 and the readonly proxy of that at 4. *)
Definition mapOfObject : Target :=
  mkTarget "Map" false true None None None None VUndefined
    (MapData false [(VStr "a", VRef 1%positive)]).

Definition st_nested : Reactive.state :=
  let s2 := snd (Reactive.alloc st_plain mapOfObject) in
  let s3 := snd (default (VUndefined, s2)
                   (Reactive.reactive 3 s2 (VRef 2%positive))) in
  snd (default (VUndefined, s3) (Reactive.readonly 4 s3 (VRef 3%positive))).

Definition st_reads : CollectionReads.state :=
  CollectionReads.mkState st_nested [].

(** The same with [new WeakMap([[Symbol(), o]])] for the Map. *)
Definition weakMapOfObject : Target :=
  mkTarget "WeakMap" false true None None None None VUndefined
    (MapData true [(VSym 1%positive, VRef 1%positive)]).

Definition st_weak_nested : Reactive.state :=
  let s2 := snd (Reactive.alloc st_plain weakMapOfObject) in
  let s3 := snd (default (VUndefined, s2)
                   (Reactive.reactive 3 s2 (VRef 2%positive))) in
  snd (default (VUndefined, s3) (Reactive.readonly 4 s3 (VRef 3%positive))).

Definition st_weak_reads : CollectionReads.state :=
  CollectionReads.mkState st_weak_nested [].


(** A scope at 1 with one child scope at 2 that owns the effect 5 and the
    cleanup 7. *)
Definition parentScope : EffectScope.EffectScope :=
  EffectScope.mkScope true 0 [] [] false None (Some [Some 2%positive]) None
    false None.

Definition childScope : EffectScope.EffectScope :=
  EffectScope.mkScope true 0 [5%positive] [7%positive] false
    (Some 1%positive) None (Some 0) false None.

Definition st_scopes : EffectScope.state :=
  EffectScope.mkState
    (<[1%positive := parentScope]> (<[2%positive := childScope]> ∅))
    None [].

(** The same scopes while scope 1 is the active one, and after
    [new EffectScope(true)] there. *)
Definition st_running : EffectScope.state :=
  EffectScope.set_activeEffectScope st_scopes (Some 1%positive).

Definition st_detached : EffectScope.state :=
  snd (EffectScope.new_EffectScope true st_running).

(** The same scopes after [new EffectScope()] while scope 1 is the active
    one: scope 1 has the children 2 and 3. *)
Definition st_siblings : EffectScope.state :=
  snd (EffectScope.new_EffectScope false st_running).

(** A cleanup that calls [stop()] on the scope 3 and returns. *)
Definition stops_sibling : EffectScope.callback :=
  fun _ st =>
    EffectScope.stop EffectScope.quiet EffectScope.quiet 2 3%positive false
      st.

(** A callback that throws when it is the function or effect [bad]. *)
Definition throws_at (bad : positive) : EffectScope.callback :=
  fun c st =>
    if bool_decide (c = bad)
    then EffectScope.Throw (EffectScope.Thrown c) st
    else EffectScope.Ret tt st.

Definition o_detached : loc :=
  fst (EffectScope.new_EffectScope true st_running).

(** A computed with the setter 3 at 1; the world counts setter calls. *)
Definition writableComputed : Computed.ComputedRefImpl unit unit :=
  Computed.mkComputed VUndefined tt true false None None 16%Z 0%Z None
    1%positive (Some 3%positive).

Definition st_writable : Computed.state unit unit nat :=
  Computed.mkState (<[1%positive := writableComputed]> ∅) 1%Z 0.

Definition count_call (f : positive) (x : value)
    (st : Computed.state unit unit nat) : Computed.outcome unit unit nat :=
  Computed.Ret
    (Computed.mkState (Computed.heap st) (Computed.dep_globalVersion st)
       (S (Computed.world st))).

End Samples.

(** * Properties *)

Module UtilsFacts.
Import Utils.

(** *** remove *)

Lemma indexOf_first arr el l1 v l2 :
  arr = l1 ++ Some v :: l2 →
  strictEquals v el = true →
  forallb (fun x => negb (matches el x)) l1 = true →
  indexOf arr el = Some (length l1).
Proof.
  intros -> Hv. induction l1 as [|x l1 IH]; cbn [forallb app indexOf length].
  - cbn [matches]. by rewrite Hv.
  - intros [Hx Hl1]%andb_prop. apply negb_true_iff in Hx. rewrite Hx.
    by rewrite IH.
Qed.

Lemma indexOf_none arr el :
  forallb (fun x => negb (matches el x)) arr = true →
  indexOf arr el = None.
Proof.
  induction arr as [|x arr IH]; [done|]. cbn [forallb indexOf].
  intros [Hx Hl]%andb_prop. apply negb_true_iff in Hx. rewrite Hx.
  by rewrite IH.
Qed.

Lemma strictEquals_nan v : strictEquals v (VNum S754_nan) = false.
Proof. by destruct v as [| | |[]| | | |]. Qed.

(** [remove(arr, el)] takes out the first element that is strictly equal
    to [el] and nothing else: later occurrences stay, the order of the
    other elements and the holes are kept.  Without such an element the
    array is left as it is; so [NaN], which is strictly equal to nothing,
    can never be removed, and a hole is never taken for [undefined]. *)
Theorem remove_first_only (arr : list (option value)) (el : value) :
  (∀ l1 v l2,
     arr = l1 ++ Some v :: l2 →
     strictEquals v el = true →
     forallb (fun x => negb (matches el x)) l1 = true →
     remove arr el = l1 ++ l2) ∧
  (forallb (fun x => negb (matches el x)) arr = true →
   remove arr el = arr) ∧
  remove arr (VNum S754_nan) = arr ∧
  remove (None :: arr) VUndefined = None :: remove arr VUndefined.
Proof.
  split; [|split; [|split]].
  - intros l1 v l2 Harr Hv Hl1. unfold remove.
    rewrite (indexOf_first arr el l1 v l2 Harr Hv Hl1). subst arr.
    unfold splice_1. rewrite take_app_length.
    rewrite drop_app_ge by lia.
    by replace (S (length l1) - length l1) with 1 by lia.
  - intros H. unfold remove. by rewrite indexOf_none.
  - unfold remove. rewrite indexOf_none; [done|].
    induction arr as [|[v|] arr IH]; cbn [forallb matches]; [done| |done].
    by rewrite strictEquals_nan.
  - unfold remove. cbn [indexOf matches].
    destruct (indexOf arr VUndefined) as [i|]; [|done].
    cbn [fmap option_fmap option_map]. unfold splice_1. by cbn.
Qed.

Lemma remove_first_only_witness :
  let arr := [Some (VStr "a"); None; Some (VStr "b"); Some (VStr "a")] in
  remove arr (VStr "a") = [None; Some (VStr "b"); Some (VStr "a")] ∧
  remove arr (VStr "c") = arr.
Proof.
  intros arr.
  destruct (remove_first_only arr (VStr "a")) as (Hfirst & _).
  destruct (remove_first_only arr (VStr "c")) as (_ & Hnone & _).
  split.
  - apply (Hfirst [] (VStr "a")); reflexivity.
  - apply Hnone. reflexivity.
Defined.

(** *** makeMap *)

Lemma split_comma_nonempty s : split_comma s ≠ [].
Proof.
  destruct s as [|c r]; [done|]. cbn [split_comma].
  destruct (Ascii.eqb c ","); [done|]. by destruct (split_comma r).
Qed.

Lemma split_no_comma k : no_comma k = true → split_comma k = [k].
Proof.
  induction k as [|c k IH]; [done|]. cbn [no_comma split_comma].
  intros [Hc Hk]%andb_prop. apply negb_true_iff in Hc. rewrite Hc.
  by rewrite IH.
Qed.

Lemma split_comma_app k rest :
  no_comma k = true →
  split_comma (String.append k (String "," rest)) = k :: split_comma rest.
Proof.
  induction k as [|c k IH]; [done|]. simpl.
  intros [Hc Hk]%andb_prop. apply negb_true_iff in Hc. rewrite Hc.
  by rewrite IH.
Qed.

Lemma split_comma_concat keys :
  keys ≠ [] → forallb no_comma keys = true →
  split_comma (String.concat "," keys) = keys.
Proof.
  induction keys as [|k keys IH]; [done|]. intros _.
  cbn [forallb]. intros [Hk Hkeys]%andb_prop.
  destruct keys as [|k' keys]; [by apply split_no_comma|].
  change (String.concat "," (k :: k' :: keys))
    with (String.append k (String "," (String.concat "," (k' :: keys)))).
  rewrite (split_comma_app _ _ Hk). by rewrite IH.
Qed.

Lemma split_comma_pieces s : forallb no_comma (split_comma s) = true.
Proof.
  induction s as [|c r IH]; [done|]. cbn [split_comma].
  destruct (Ascii.eqb c ",") eqn:Hc; [done|].
  destruct (split_comma r) as [|piece rest]; cbn [forallb no_comma] in *.
  - by rewrite Hc.
  - by rewrite Hc.
Qed.

(** [makeMap(str)] answers [true] exactly on the pieces of [str] between
    its commas.  For keys without commas, joined by commas, these are the
    keys again; no key with a comma is ever found; and there is always at
    least one key, for the empty string the empty key. *)
Theorem makeMap_pieces :
  (∀ keys k,
     keys ≠ [] → forallb no_comma keys = true →
     (makeMap (String.concat "," keys) k = true ↔ k ∈ keys)) ∧
  (∀ str k, makeMap str k = true → no_comma k = true) ∧
  (∀ str, ∃ k, makeMap str k = true) ∧
  (∀ k, makeMap "" k = true ↔ k = "").
Proof.
  assert (∀ str k, makeMap str k = true ↔ k ∈ split_comma str) as Hin.
  { intros str k. unfold makeMap. rewrite bool_decide_eq_true.
    apply elem_of_list_to_set. }
  split; [|split; [|split]].
  - intros keys k Hne Hkeys. by rewrite Hin, split_comma_concat.
  - intros str k Hk. apply Hin in Hk.
    pose proof (split_comma_pieces str) as Hall.
    rewrite forallb_forall in Hall. apply Hall.
    by apply list_elem_of_In.
  - intros str. pose proof (split_comma_nonempty str) as Hne.
    destruct (split_comma str) as [|k rest] eqn:E; [done|].
    exists k. apply Hin. rewrite E. apply list_elem_of_here.
  - intros k. rewrite Hin. cbn [split_comma].
    by rewrite list_elem_of_singleton.
Qed.

Lemma makeMap_pieces_witness :
  makeMap "if,else,for" "else" = true ∧
  makeMap "if,else,for" "el" = false ∧
  makeMap "" "" = true.
Proof.
  destruct makeMap_pieces as (Hjoin & _ & _ & Hempty).
  pose proof (Hjoin ["if"; "else"; "for"] "else") as H1.
  pose proof (Hjoin ["if"; "else"; "for"] "el") as H2.
  split; [|split].
  - apply H1; [done | reflexivity |].
    apply list_elem_of_further, list_elem_of_here.
  - apply not_true_iff_false. intros H. apply H2 in H; [|done|reflexivity].
    repeat (apply elem_of_cons in H as [H|H]; [discriminate|]).
    by apply elem_of_nil in H.
  - by apply Hempty.
Defined.

(** *** camelize, hyphenate and their caches *)

(** Memoisation is transparent.  On a cache that holds results of [fn],
    the cached function returns what [fn] returns and leaves such a cache
    behind; it keeps every entry that counts as a hit.  The cache of a
    freshly loaded module is empty. *)
Theorem cacheStringFunction_transparent (fn : string -> string)
    (cache : gmap string string) (str : string) :
  cache_ok fn cache →
  fst (cacheStringFunction fn cache str) = fn str ∧
  cache_ok fn (snd (cacheStringFunction fn cache str)) ∧
  snd (cacheStringFunction fn cache str) !! str = Some (fn str) ∧
  (∀ k, k ≠ str →
        snd (cacheStringFunction fn cache str) !! k = cache !! k).
Proof.
  intros Hok. unfold cacheStringFunction.
  assert (cache_ok fn (<[str := fn str]> cache)) as Hins.
  { intros k v Hk. apply lookup_insert_Some in Hk as [[<- <-]|[_ Hk]];
      [done | by apply Hok]. }
  destruct (cache !! str) as [hit|] eqn:Hhit; cbn [fst snd].
  - destruct (String.eqb hit "") eqn:He; cbn [negb fst snd].
    + split; [done|]. split; [done|].
      split; [apply lookup_insert_eq|].
      intros k Hne. by apply lookup_insert_ne.
    + split; [by apply Hok|]. split; [done|].
      split; [by rewrite Hhit, (Hok _ _ Hhit)|done].
  - split; [done|]. split; [done|]. split; [apply lookup_insert_eq|].
    intros k Hne. by apply lookup_insert_ne.
Qed.

Lemma cache_ok_empty fn : cache_ok fn ∅.
Proof. intros k v H. by rewrite lookup_empty in H. Qed.

Lemma cacheStringFunction_transparent_witness :
  cache_ok camelize_fn ∅ ∧
  fst (camelize ∅ "foo-bar") = "fooBar" ∧
  fst (camelize (snd (camelize ∅ "foo-bar")) "foo-bar") = "fooBar".
Proof.
  split; [apply cache_ok_empty|].
  destruct (cacheStringFunction_transparent camelize_fn ∅ "foo-bar"
              (cache_ok_empty _)) as (Hres & Hok & _).
  split; [exact Hres|].
  exact (proj1 (cacheStringFunction_transparent camelize_fn _ "foo-bar" Hok)).
Defined.

Lemma lower_upper d :
  is_lower d = true →
  toLowerCase_unit (toUpperCase_word d) = d ∧
  is_upper (toUpperCase_word d) = true ∧
  is_word (toUpperCase_word d) = true.
Proof.
  destruct d as [[] [] [] [] [] [] [] []]; vm_compute; try done;
    by intros _.
Qed.

Lemma fixed_not_upper c :
  Ascii.eqb (toLowerCase_unit c) c = true → is_upper c = false.
Proof. destruct c as [[] [] [] [] [] [] [] []]; vm_compute; done. Qed.

Lemma toLowerCase_unit_fixed c :
  Ascii.eqb (toLowerCase_unit c) c = true → toLowerCase_unit c = c.
Proof. by intros H%Ascii.eqb_eq. Qed.

Lemma kebab_round_trip n :
  ∀ s pw,
    String.length s ≤ n → kebab pw s = true →
    toLowerCase (hyphenate_marks pw (camelize_fn s)) = s.
Proof.
  induction n as [|n IH]; intros s pw Hlen Hk.
  { destruct s; [done | cbn in Hlen; lia]. }
  destruct s as [|c r]; [done|]. cbn [String.length] in Hlen.
  cbn [kebab] in Hk.
  destruct (Ascii.eqb c "-") eqn:Hc.
  - apply Ascii.eqb_eq in Hc. subst c.
    destruct r as [|d r']; [by destruct pw|].
    cbn [String.length] in Hlen.
    assert (camelize_fn (String "-" (String d r')) =
              if is_word d then String (toUpperCase_word d) (camelize_fn r')
              else String "-" (camelize_fn (String d r'))) as ->.
    { cbn [camelize_fn]. rewrite Ascii.eqb_refl. cbn [andb]. done. }
    destruct (is_word d) eqn:Hd.
    + apply andb_prop in Hk as [Hk Hr']. apply andb_prop in Hk as [-> Hlow].
      destruct (lower_upper d Hlow) as (Hlu & Hup & Hw).
      cbn [hyphenate_marks andb]. rewrite Hup. cbn [toLowerCase].
      rewrite Hlu, Hw. rewrite (IH r' true); [done | lia | done].
    + cbn [hyphenate_marks]. change (is_upper "-") with false.
      rewrite andb_false_r. cbn [toLowerCase].
      change (is_word "-") with false.
      rewrite (IH (String d r') false); [done | cbn; lia | done].
  - apply andb_prop in Hk as [Hfix Hr].
    assert (camelize_fn (String c r) = String c (camelize_fn r)) as ->.
    { cbn [camelize_fn]. rewrite Hc. by destruct r. }
    cbn [hyphenate_marks]. rewrite (fixed_not_upper c Hfix), andb_false_r.
    cbn [toLowerCase]. rewrite (toLowerCase_unit_fixed c Hfix).
    rewrite (IH r (is_word c)); [done | lia | done].
Qed.

(** [hyphenate] undoes [camelize] on kebab case, for strings of code
    units below U+0100, which are the strings of this model: for such a
    string in which
    every code unit is its own lower case, and every hyphen followed by a
    code unit of [\w] stands between a code unit of [\w] and a letter from
    a to z, [hyphenate(camelize(s))] is [s], whatever the two caches hold
    from earlier calls. *)
Theorem hyphenate_camelize (s : string) (c1 c2 : gmap string string) :
  kebab false s = true →
  cache_ok camelize_fn c1 → cache_ok hyphenate_fn c2 →
  fst (hyphenate c2 (fst (camelize c1 s))) = s.
Proof.
  intros Hk Hc1 Hc2. unfold hyphenate, camelize.
  rewrite (proj1 (cacheStringFunction_transparent camelize_fn c1 s Hc1)).
  rewrite (proj1 (cacheStringFunction_transparent hyphenate_fn c2 _ Hc2)).
  unfold hyphenate_fn. by apply (kebab_round_trip (String.length s)).
Qed.

Lemma hyphenate_camelize_witness :
  fst (camelize ∅ "v-on-click") = "vOnClick" ∧
  fst (hyphenate ∅ (fst (camelize ∅ "v-on-click"))) = "v-on-click".
Proof.
  split; [reflexivity|].
  apply hyphenate_camelize; [reflexivity | apply cache_ok_empty..].
Defined.

(** *** normalizeClass *)

Lemma trimEnd_cons c r :
  trimEnd (String c r) =
    match trimEnd r with
    | EmptyString => if is_space c then EmptyString else String c EmptyString
    | r' => String c r'
    end.
Proof. reflexivity. Qed.

Lemma trimEnd_idemp s : trimEnd (trimEnd s) = trimEnd s.
Proof.
  induction s as [|c r IH]; [done|]. rewrite trimEnd_cons.
  destruct (trimEnd r) as [|c' r'] eqn:Hr.
  - destruct (is_space c) eqn:Hc; [done|]. rewrite trimEnd_cons.
    cbn [trimEnd]. by rewrite Hc.
  - rewrite trimEnd_cons. by rewrite IH.
Qed.

Lemma trimStart_idemp s : trimStart (trimStart s) = trimStart s.
Proof.
  induction s as [|c r IH]; [done|]. cbn [trimStart].
  destruct (is_space c) eqn:Hc; [done|]. cbn [trimStart]. by rewrite Hc.
Qed.

(** What [trimEnd] leaves of a string that does not start with white
    space still starts with the same code unit. *)
Lemma trimStart_trimEnd s :
  trimStart s = s → trimStart (trimEnd s) = trimEnd s.
Proof.
  destruct s as [|c r]; [done|]. cbn [trimStart].
  destruct (is_space c) eqn:Hc.
  - intros H. exfalso.
    assert (String.length (trimStart r) ≤ String.length r) as Hle.
    { clear. induction r as [|c r IH]; [done|]. cbn [trimStart].
      destruct (is_space c); cbn [String.length]; lia. }
    rewrite H in Hle. cbn [String.length] in Hle. lia.
  - intros _. rewrite trimEnd_cons. destruct (trimEnd r).
    + rewrite Hc. cbn [trimStart]. by rewrite Hc.
    + cbn [trimStart]. by rewrite Hc.
Qed.

Lemma trim_idemp s : trim (trim s) = trim s.
Proof.
  unfold trim.
  rewrite (trimStart_trimEnd (trimStart s)) by apply trimStart_idemp.
  apply trimEnd_idemp.
Qed.

Lemma trim_clean s : trim s ≠ EmptyString → clean (trim s).
Proof.
  intros Hne. split; [done|]. unfold trim. split.
  - apply trimStart_trimEnd, trimStart_idemp.
  - apply trimEnd_idemp.
Qed.

Lemma normalizeClass_trim v : ∃ res, normalizeClass v = trim res.
Proof. destruct v; by eexists. Qed.

(** The result of [normalizeClass] has no white space at either end, and
    [normalizeClass] maps it to itself; whatever is not a string, an array
    or another object, a function included, gives the empty string. *)
Theorem normalizeClass_idempotent (v : data) :
  trimStart (normalizeClass v) = normalizeClass v ∧
  trimEnd (normalizeClass v) = normalizeClass v ∧
  normalizeClass (Prim (VStr (normalizeClass v))) = normalizeClass v ∧
  normalizeClass Fun = EmptyString ∧
  (∀ p, (∀ s, p ≠ VStr s) → normalizeClass (Prim p) = EmptyString).
Proof.
  destruct (normalizeClass_trim v) as [res ->].
  split; [|split; [|split; [|split]]].
  - unfold trim. apply trimStart_trimEnd, trimStart_idemp.
  - unfold trim. apply trimEnd_idemp.
  - change (normalizeClass (Prim (VStr (trim res)))) with (trim (trim res)).
    apply trim_idemp.
  - reflexivity.
  - intros p Hp. destruct p as [| | | | |str| |]; try reflexivity.
    by destruct (Hp str).
Qed.

Lemma trimEnd_app a b :
  trimEnd (String.append a b) =
    match trimEnd b with
    | EmptyString => trimEnd a
    | b' => String.append a b'
    end.
Proof.
  induction a as [|c a IH].
  { change (String.append EmptyString b) with b. by destruct (trimEnd b). }
  change (String.append (String c a) b) with (String c (String.append a b)).
  rewrite !trimEnd_cons, IH.
  destruct (trimEnd b) as [|c' b']; [done|].
  by destruct a.
Qed.

Lemma trimStart_app a b :
  a ≠ EmptyString → trimStart a = a →
  trimStart (String.append a b) = String.append a b.
Proof.
  destruct a as [|c a]; [done|]. intros _.
  change (String.append (String c a) b) with (String c (String.append a b)).
  cbn [trimStart]. destruct (is_space c) eqn:Hc; [|done].
  intros H. exfalso.
  assert (String.length (trimStart a) ≤ String.length a) as Hle.
  { clear. induction a as [|c a IH]; [done|]. cbn [trimStart].
    destruct (is_space c); cbn [String.length]; lia. }
  rewrite H in Hle. cbn [String.length] in Hle. lia.
Qed.

Lemma append_nil_r s : String.append s EmptyString = s.
Proof.
  induction s as [|c s IH]; [done|].
  change (String.append (String c s) EmptyString)
    with (String c (String.append s EmptyString)).
  by rewrite IH.
Qed.

Lemma append_assoc a b c :
  String.append (String.append a b) c = String.append a (String.append b c).
Proof.
  induction a as [|x a IH]; [done|].
  change (String.append (String.append (String x a) b) c)
    with (String x (String.append (String.append a b) c)).
  by rewrite IH.
Qed.

Lemma concat_cons_ne sep n names :
  n ≠ EmptyString → String.concat sep (n :: names) ≠ EmptyString.
Proof.
  intros Hn. destruct n as [|c n]; [done|]. by destruct names.
Qed.

(** White space is trimmed off a row of names that each end in a space;
    what is left is the names with single spaces between them. *)
Lemma trim_names names :
  Forall clean names →
  trim (fold_right (fun n acc => String.append (String.append n " ") acc)
          EmptyString names) =
    String.concat " " names.
Proof.
  intros Hall. destruct names as [|n names]; [done|].
  apply Forall_cons in Hall as [Hn Hall]. cbn [fold_right]. unfold trim.
  pose proof Hn as (Hne & Hs & He).
  rewrite append_assoc. rewrite (trimStart_app n _ Hne Hs).
  rewrite <- append_assoc.
  revert n Hn Hne Hs He. induction Hall as [|m rest Hm Hrest IH];
    intros n Hn Hne Hs He.
  - cbn [fold_right]. rewrite append_nil_r, trimEnd_app.
    change (trimEnd " ") with EmptyString. done.
  - cbn [fold_right]. rewrite (trimEnd_app (String.append n " ")).
    pose proof Hm as (Hmne & Hms & Hme).
    rewrite (IH m Hm Hmne Hms Hme).
    destruct (String.concat " " (m :: rest)) as [|c r] eqn:E;
      [by destruct (concat_cons_ne " " m rest Hmne)|].
    rewrite <- E.
    change (String.concat " " (n :: m :: rest))
      with (String.append n (String.append " "
              (String.concat " " (m :: rest)))).
    by rewrite append_assoc.
Qed.

Lemma normalizeClass_Arr items :
  normalizeClass (Arr items) =
    trim (fold_right
            (fun item acc =>
               String.append
                 (if negb (String.eqb (normalizeClass item) "")
                  then String.append (normalizeClass item) " "
                  else EmptyString) acc)
            EmptyString items).
Proof.
  reflexivity.
Qed.

Lemma normalizeClass_Obj props :
  normalizeClass (Obj props) =
    trim (fold_right
            (fun p acc =>
               String.append
                 (if truthy_data (snd p) then String.append (fst p) " "
                  else EmptyString) acc)
            EmptyString props).
Proof.
  cbn [normalizeClass]. f_equal.
  induction props as [|[name v] r IH]; [done|]. cbn [fold_right fst snd].
  by rewrite <- IH.
Qed.

(** [normalizeClass] of an array is the class strings of its elements,
    the empty ones left out, with single spaces between them, however the
    elements are nested; of an object with clean keys it is the keys of
    the truthy properties, in order, with single spaces between them. *)
Theorem normalizeClass_joins :
  (∀ items,
     normalizeClass (Arr items) =
       String.concat " "
         (List.filter (fun s => negb (String.eqb s ""))
            (map normalizeClass items))) ∧
  (∀ props,
     Forall (fun p => truthy_data (snd p) = true → clean (fst p)) props →
     normalizeClass (Obj props) =
       String.concat " "
         (map fst (List.filter (fun p => truthy_data (snd p)) props))).
Proof.
  split.
  - intros items. rewrite normalizeClass_Arr, <- trim_names.
    + f_equal. induction items as [|item r IH]; [done|].
      cbn [fold_right map List.filter].
      destruct (String.eqb (normalizeClass item) ""); cbn [negb fold_right];
        by rewrite IH.
    + induction items as [|item r IH]; [constructor|].
      cbn [map List.filter].
      destruct (String.eqb_spec (normalizeClass item) "") as [E|E];
        cbn [negb]; [done|].
      constructor; [|done].
      destruct (normalizeClass_trim item) as [res Hres]. rewrite Hres in *.
      by apply trim_clean.
  - intros props Hall. rewrite normalizeClass_Obj, <- trim_names.
    + f_equal. induction props as [|[name v] r IH]; [done|].
      apply Forall_cons in Hall as [_ Hall].
      cbn [fold_right map List.filter fst snd].
      destruct (truthy_data v); cbn [fold_right map fst];
        by rewrite IH.
    + induction Hall as [|[name v] r Hp Hr IH]; [constructor|].
      cbn [map List.filter fst snd] in *.
      destruct (truthy_data v); [|done].
      constructor; [by apply Hp | done].
Qed.

Lemma normalizeClass_idempotent_witness :
  let v := Arr [Prim (VStr " a "); Prim (VNum S754_nan); Arr [Prim (VStr "b")]] in
  normalizeClass v = "a b" ∧
  normalizeClass (Prim (VStr (normalizeClass v))) = normalizeClass v.
Proof.
  intros v. split; [reflexivity|].
  exact (proj1 (proj2 (proj2 (normalizeClass_idempotent v)))).
Defined.

Lemma normalizeClass_joins_witness :
  normalizeClass
    (Arr [Prim (VStr "btn"); Prim VUndefined;
          Obj [("active", Prim (VBool true)); ("hidden", Prim (VBool false));
               ("large", Prim (VStr "yes"))]]) = "btn active large".
Proof.
  destruct normalizeClass_joins as [Harr Hobj].
  rewrite Harr. cbn [map].
  rewrite (Hobj [("active", Prim (VBool true)); ("hidden", Prim (VBool false));
                 ("large", Prim (VStr "yes"))]).
  - reflexivity.
  - repeat constructor; cbn; try done; intros [=].
Defined.

End UtilsFacts.

Module ReactiveFacts.
Import Reactive ReactiveInv.

Lemma substring_0_app (t s : string) :
  String.substring 0 (String.length t) (String.append t s) = t.
Proof. induction t as [|c t IH]; simpl; [by destruct s | by rewrite IH]. Qed.

Lemma substring_skip_app (a s : string) (n : nat) :
  String.substring (String.length a) n (String.append a s) =
  String.substring 0 n s.
Proof. induction a as [|c a IH]; simpl; [done | by rewrite IH]. Qed.

Lemma length_append (t s : string) :
  String.length (String.append t s) = String.length t + String.length s.
Proof. induction t as [|c t IH]; simpl; [done | by rewrite IH]. Qed.

Lemma slice_objectToString (t : string) :
  Utils.slice_8_m1 (Utils.objectToString t) = t.
Proof.
  unfold Utils.slice_8_m1, Utils.objectToString.
  rewrite !length_append.
  change 8 with (String.length "[object ") at 1.
  rewrite substring_skip_app.
  replace (String.length "[object " + (String.length t + String.length "]") - 9)
    with (String.length t) by (simpl; lia).
  apply substring_0_app.
Qed.

Lemma targetTypeMap_proxyable (s : string) :
  In s proxyable_tags → targetTypeMap s ≠ INVALID.
Proof.
  unfold proxyable_tags. simpl.
  intros [<-|[<-|[<-|[<-|[<-|[<-|[]]]]]]]; by vm_compute.
Qed.

Lemma targetTypeMap_INVALID (s : string) :
  targetTypeMap s = INVALID ↔ ¬ In s proxyable_tags.
Proof.
  split.
  - intros H Hin. by apply targetTypeMap_proxyable in Hin.
  - intros H. unfold targetTypeMap.
    repeat match goal with
           | |- context [String.eqb s ?c] =>
               destruct (String.eqb_spec s c) as [->|_];
               [exfalso; apply H; unfold proxyable_tags; simpl; tauto|]
           end.
    done.
Qed.

Lemma Get_ordinary f h l t k :
  h !! l = Some (Ordinary t) → Get (S f) h l k = Some (own_flag t k).
Proof. intros H. simpl. by rewrite H. Qed.

Lemma Get_proxy f h l t hd k :
  h !! l = Some (Proxy t hd) →
  Get (S f) h l k =
    match handler_get hd t k with
    | Answer v => Some v
    | Forward => Get f h t k
    end.
Proof. intros H. simpl. by rewrite H. Qed.

Lemma underlying_ordinary f h l t :
  h !! l = Some (Ordinary t) → underlying (S f) h l = Some t.
Proof. intros H. simpl. by rewrite H. Qed.

Lemma underlying_proxy f h l t hd :
  h !! l = Some (Proxy t hd) → underlying (S f) h l = underlying f h t.
Proof. intros H. simpl. by rewrite H. Qed.

Lemma handler_get_SKIP hd t : handler_get hd t SKIP = Forward.
Proof. by destruct hd. Qed.

Lemma handler_get_RAW hd t : handler_get hd t RAW = Answer (VRef t).
Proof. by destruct hd. Qed.

Lemma handler_get_IS_REACTIVE hd t :
  handler_get hd t IS_REACTIVE = Answer (VBool (negb (handler_is_readonly hd))).
Proof. by destruct hd. Qed.

Lemma handler_get_IS_READONLY hd t :
  handler_get hd t IS_READONLY = Answer (VBool (handler_is_readonly hd)).
Proof. by destruct hd. Qed.

Lemma isObject_ordinary h l t :
  h !! l = Some (Ordinary t) → o_callable t = false →
  Utils.isObject h (VRef l) = true.
Proof.
  intros H Hc. unfold Utils.isObject, Utils.typeof. by rewrite H, Hc.
Qed.

Lemma isObject_proxy h l t hd :
  h !! l = Some (Proxy t hd) → Utils.isObject h (VRef l) = true.
Proof. intros H. unfold Utils.isObject, Utils.typeof. by rewrite H. Qed.

Lemma getTargetType_ordinary f h l t :
  h !! l = Some (Ordinary t) →
  getTargetType (S f) h (VRef l) = Some (targetType_of t).
Proof.
  intros H. unfold getTargetType, targetType_of, get_flag,
    Object_isExtensible, toRawType, toTypeString.
  rewrite (Get_ordinary _ _ _ _ _ H), (underlying_ordinary _ _ _ _ H).
  cbn -[Utils.slice_8_m1 Utils.objectToString].
  destruct (truthy _); [done|].
  destruct (o_extensible t); cbn -[Utils.slice_8_m1 Utils.objectToString];
    [|done].
  by rewrite slice_objectToString.
Qed.

Lemma getTargetType_proxy f h p l hd t :
  h !! p = Some (Proxy l hd) →
  h !! l = Some (Ordinary t) →
  getTargetType (S (S f)) h (VRef p) = Some (targetType_of t).
Proof.
  intros Hp H. unfold getTargetType, targetType_of, get_flag,
    Object_isExtensible, toRawType, toTypeString.
  rewrite (Get_proxy _ _ _ _ _ _ Hp), handler_get_SKIP,
    (underlying_proxy _ _ _ _ _ Hp).
  rewrite (Get_ordinary _ _ _ _ _ H), (underlying_ordinary _ _ _ _ H).
  cbn -[Utils.slice_8_m1 Utils.objectToString].
  destruct (truthy _); [done|].
  destruct (o_extensible t); cbn -[Utils.slice_8_m1 Utils.objectToString];
    [|done].
  by rewrite slice_objectToString.
Qed.

Lemma accepted_targetType h o t :
  h !! o = Some (Ordinary t) → accepted h o →
  targetType_of t = targetTypeMap (o_tag t) ∧
  targetTypeMap (o_tag t) ≠ INVALID.
Proof.
  intros H (t' & H' & _ & Htag & Hext & Hskip & _).
  rewrite H in H'. injection H' as <-.
  unfold targetType_of. rewrite Hskip, Hext. cbn.
  split; [done | by apply targetTypeMap_proxyable].
Qed.

(** [createReactiveObject] on an accepted object reaches the cache. *)
Lemma createReactiveObject_accepted f st o t ro bh ch m :
  st_heap st !! o = Some (Ordinary t) →
  accepted (st_heap st) o →
  createReactiveObject (S f) st (VRef o) ro bh ch m =
    Some (cached_or_new st o (pick_handler (o_tag t) bh ch) m).
Proof.
  intros H Hacc.
  destruct (accepted_targetType _ _ _ H Hacc) as [Htt Hne].
  destruct Hacc as (t' & H' & Hc & _ & _ & _ & _ & Hraw).
  rewrite H in H'. injection H' as <-.
  unfold createReactiveObject.
  rewrite (isObject_ordinary _ _ _ H Hc). cbn [negb].
  unfold get_flag. rewrite !(Get_ordinary _ _ _ _ _ H).
  cbn [own_flag mbind option_bind]. rewrite Hraw.
  cbn [mbind option_bind].
  rewrite (getTargetType_ordinary _ _ _ _ H), Htt.
  cbn [mbind option_bind].
  rewrite bool_decide_eq_false_2 by done.
  unfold cached_or_new, pick_handler.
  destruct (truthy (default VUndefined (proxyMap_of st m !! o))); [done|].
  by destruct (new_Proxy _ _ _).
Qed.

(** [readonly] on a reactive proxy of an accepted object reaches the cache
    too: the exception of the already-a-proxy guard. *)
Lemma createReactiveObject_readonly_of_reactive f st p o hd t bh ch m :
  st_heap st !! p = Some (Proxy o hd) →
  handler_is_readonly hd = false →
  st_heap st !! o = Some (Ordinary t) →
  accepted (st_heap st) o →
  createReactiveObject (S (S f)) st (VRef p) true bh ch m =
    Some (cached_or_new st p (pick_handler (o_tag t) bh ch) m).
Proof.
  intros Hp Hhd H Hacc.
  destruct (accepted_targetType _ _ _ H Hacc) as [Htt Hne].
  unfold createReactiveObject.
  rewrite (isObject_proxy _ _ _ _ Hp). cbn [negb].
  unfold get_flag.
  rewrite !(Get_proxy _ _ _ _ _ _ Hp), handler_get_RAW,
    handler_get_IS_REACTIVE, Hhd.
  cbn [mbind option_bind truthy negb].
  rewrite (getTargetType_proxy _ _ _ _ _ _ Hp H), Htt.
  cbn [mbind option_bind].
  rewrite bool_decide_eq_false_2 by done.
  unfold cached_or_new, pick_handler.
  destruct (truthy (default VUndefined (proxyMap_of st m !! p))); [done|].
  by destruct (new_Proxy _ _ _).
Qed.

Lemma heap_insert_fresh (h : heap) (obj : object) l x :
  h !! l = Some x → <[fresh (dom h) := obj]> h !! l = Some x.
Proof.
  intros H. rewrite lookup_insert_ne; [done|].
  intros <-. apply (is_fresh (dom h)). apply elem_of_dom. by eexists.
Qed.

Lemma fresh_lookup_None (h : heap) : h !! fresh (dom h) = None.
Proof. apply not_elem_of_dom. apply is_fresh. Qed.

Lemma is_proxy_of_weaken (h : heap) obj ro v t :
  is_proxy_of h ro v t → is_proxy_of (<[fresh (dom h) := obj]> h) ro v t.
Proof.
  intros (l & hd & -> & H & Hro). exists l, hd.
  split; [done|]. split; [by apply heap_insert_fresh | done].
Qed.

Lemma target_ok_weaken (h : heap) obj ro l :
  target_ok h ro l → target_ok (<[fresh (dom h) := obj]> h) ro l.
Proof.
  intros [[r H]|[Hro (t' & hd' & r & H1 & H2 & H3)]].
  - left. exists r. by apply heap_insert_fresh.
  - right. split; [done|]. exists t', hd', r.
    split; [by apply heap_insert_fresh|].
    split; [done | by apply heap_insert_fresh].
Qed.

Lemma wf_target_ok st p t hd :
  wf st → st_heap st !! p = Some (Proxy t hd) →
  target_ok (st_heap st) (handler_is_readonly hd) t.
Proof.
  intros Hwf H. destruct (wf_targets _ Hwf _ _ _ H) as [Ho|[Hro Hp]].
  - by left.
  - right. by rewrite Hro.
Qed.

Lemma wf_init : wf init.
Proof. split; intros *; cbn; by rewrite lookup_empty. Qed.

Lemma wf_alloc st t : wf st → wf (alloc st t).2.
Proof.
  intros [H1 H2 H3]. split; cbn.
  - intros t0 p Hp. by apply is_proxy_of_weaken, H1.
  - intros t0 p Hp. by apply is_proxy_of_weaken, H2.
  - intros p t0 hd Hp.
    assert (st_heap st !! p = Some (Proxy t0 hd)) as Hp'.
    { destruct (decide (p = fresh (dom (st_heap st)))) as [->|Hne].
      - by rewrite lookup_insert_eq in Hp.
      - by rewrite lookup_insert_ne in Hp. }
    apply (target_ok_weaken _ (Ordinary t) (handler_is_readonly hd)).
    destruct (H3 _ _ _ Hp') as [Ho|[Hro Hx]]; [by left|].
    right. by rewrite Hro.
Qed.

(** The cache step: it answers a proxy of the right flavor for [l], keeps
    the state well formed, only extends heap and caches, and is stable. *)
Lemma cached_or_new_spec st l hd ro v st' :
  wf st →
  handler_is_readonly hd = ro →
  target_ok (st_heap st) ro l →
  cached_or_new st l hd (flavor_map ro) = (v, st') →
  ∃ p hd',
    v = VRef p ∧
    st_heap st' !! p = Some (Proxy l hd') ∧
    handler_is_readonly hd' = ro ∧
    proxyMap_of st' (flavor_map ro) !! l = Some (VRef p) ∧
    wf st' ∧
    st_heap st ⊆ st_heap st' ∧
    (∀ m, proxyMap_of st m ⊆ proxyMap_of st' m) ∧
    (∀ hd0, cached_or_new st' l hd0 (flavor_map ro) = (v, st')).
Proof.
  intros Hwf Hhd Hok. unfold cached_or_new.
  destruct (proxyMap_of st (flavor_map ro) !! l) as [e|] eqn:He.
  - assert (is_proxy_of (st_heap st) ro e l) as (p & hd' & -> & Hp & Hro).
    { destruct ro; cbn in He.
      - by apply (wf_readonlyMap _ Hwf).
      - by apply (wf_reactiveMap _ Hwf). }
    cbn. intros [= <- <-]. exists p, hd'.
    repeat split; try done; try apply Hwf.
    intros hd0. by rewrite He.
  - cbn [default truthy]. unfold new_Proxy.
    set (p := fresh (dom (st_heap st))).
    intros [= <- <-]. exists p, hd.
    assert (st_heap st !! p = None) as Hfresh by apply fresh_lookup_None.
    split; [done|]. split.
    { destruct ro; cbn; apply lookup_insert_eq. }
    split; [done|]. split.
    { destruct ro; cbn; apply lookup_insert_eq. }
    split.
    { destruct Hwf as [H1 H2 H3].
      split.
      - intros t0 q. destruct ro; cbn.
        + intros Hq. by apply is_proxy_of_weaken, H1.
        + intros Hq. destruct (decide (t0 = l)) as [->|Hne].
          * rewrite lookup_insert_eq in Hq. injection Hq as <-.
            exists p, hd. split; [done|].
            split; [apply lookup_insert_eq | done].
          * rewrite lookup_insert_ne in Hq by done.
            by apply is_proxy_of_weaken, H1.
      - intros t0 q. destruct ro; cbn.
        + intros Hq. destruct (decide (t0 = l)) as [->|Hne].
          * rewrite lookup_insert_eq in Hq. injection Hq as <-.
            exists p, hd. split; [done|].
            split; [apply lookup_insert_eq | done].
          * rewrite lookup_insert_ne in Hq by done.
            by apply is_proxy_of_weaken, H2.
        + intros Hq. by apply is_proxy_of_weaken, H2.
      - intros q t0 hd0 Hq.
        assert (st_heap (proxyMap_set
                  (mkState (<[p:=Proxy l hd]> (st_heap st))
                     (st_reactiveMap st) (st_shallowReactiveMap st)
                     (st_readonlyMap st) (st_shallowReadonlyMap st))
                  (flavor_map ro) l (VRef p))
                = <[p:=Proxy l hd]> (st_heap st)) as Hheap
          by (by destruct ro).
        rewrite Hheap in *.
        apply (target_ok_weaken _ (Proxy l hd)) in Hok.
        destruct (decide (q = p)) as [->|Hne].
        + rewrite lookup_insert_eq in Hq. injection Hq as <- <-.
          destruct Hok as [Ho|[Hro Hx]]; [by left|].
          right. split; [by rewrite Hhd | done].
        + rewrite lookup_insert_ne in Hq by done.
          pose proof (H3 _ _ _ Hq) as Hold.
          assert (target_ok (st_heap st) (handler_is_readonly hd0) t0)
            as Hold'.
          { destruct Hold as [Ho|[Hro Hx]]; [by left|].
            right. by rewrite Hro. }
          apply (target_ok_weaken _ (Proxy l hd)) in Hold'.
          destruct Hold' as [Ho|[Hro Hx]]; [by left | by right]. }
    split.
    { destruct ro; cbn; by apply insert_subseteq. }
    split.
    { intros m. destruct ro, m; cbn; try done;
        by apply insert_subseteq. }
    intros hd0. destruct ro; cbn; by rewrite lookup_insert_eq.
Qed.

Lemma accepted_weaken (h h' : heap) o :
  h ⊆ h' → accepted h o → accepted h' o.
Proof.
  intros Hsub (t & H & Hrest). exists t.
  split; [by eapply lookup_weaken | done].
Qed.

Lemma pick_handler_flavor tag bh ch ro :
  handler_is_readonly bh = ro → handler_is_readonly ch = ro →
  handler_is_readonly (pick_handler tag bh ch) = ro.
Proof. intros. unfold pick_handler. by case_bool_decide. Qed.

Lemma pick_flavor (b : bool) bh ch ro :
  handler_is_readonly bh = ro → handler_is_readonly ch = ro →
  handler_is_readonly (if b then ch else bh) = ro.
Proof. intros. by destruct b. Qed.

Lemma reactive_accepted f st o t :
  st_heap st !! o = Some (Ordinary t) →
  accepted (st_heap st) o →
  reactive (S f) st (VRef o) =
    Some (cached_or_new st o
            (pick_handler (o_tag t) mutableHandlers mutableCollectionHandlers)
            reactiveMap).
Proof.
  intros H Hacc. unfold reactive, isReadonly, get_flag.
  rewrite (Get_ordinary _ _ _ _ _ H).
  destruct Hacc as (t' & H' & Hacc). pose proof Hacc as (_ & _ & _ & _ & Hro & _).
  rewrite H in H'. injection H' as <-.
  cbn [truthy own_flag fmap option_fmap option_map mbind option_bind].
  rewrite Hro. apply createReactiveObject_accepted; [done|].
  by exists t.
Qed.

Lemma toRaw_ordinary f h o t :
  h !! o = Some (Ordinary t) → truthy (o_raw t) = false →
  toRaw (S (S f)) h (VRef o) = Some (VRef o).
Proof.
  intros H Hraw. cbn [toRaw truthy get_flag].
  rewrite (Get_ordinary _ _ _ _ _ H). cbn [own_flag mbind option_bind].
  by rewrite Hraw.
Qed.

Lemma toRaw_proxy f h p t hd :
  h !! p = Some (Proxy t hd) →
  toRaw (S (S f)) h (VRef p) = toRaw (S f) h (VRef t).
Proof.
  intros H. cbn [toRaw truthy get_flag].
  rewrite (Get_proxy _ _ _ _ _ _ H), handler_get_RAW.
  by cbn [mbind option_bind truthy].
Qed.

(** In a well-formed state the engine's walks through proxies end within
    three steps. *)
Lemma Get_total f st l k :
  wf st → is_Some (st_heap st !! l) →
  is_Some (Get (S (S (S f))) (st_heap st) l k).
Proof.
  intros Hwf [[t|t hd] H].
  - rewrite (Get_ordinary _ _ _ _ _ H). by eexists.
  - rewrite (Get_proxy _ _ _ _ _ _ H).
    destruct (handler_get hd t k); [by eexists|].
    destruct (wf_targets _ Hwf _ _ _ H) as [[r Hr]|[_ (t' & hd' & r & Ht & _ & Hr)]].
    + rewrite (Get_ordinary _ _ _ _ _ Hr). by eexists.
    + rewrite (Get_proxy _ _ _ _ _ _ Ht).
      destruct (handler_get hd' t' k); [by eexists|].
      rewrite (Get_ordinary _ _ _ _ _ Hr). by eexists.
Qed.

Lemma underlying_total f st l :
  wf st → is_Some (st_heap st !! l) →
  is_Some (underlying (S (S (S f))) (st_heap st) l).
Proof.
  intros Hwf [[t|t hd] H].
  - rewrite (underlying_ordinary _ _ _ _ H). by eexists.
  - rewrite (underlying_proxy _ _ _ _ _ H).
    destruct (wf_targets _ Hwf _ _ _ H) as [[r Hr]|[_ (t' & hd' & r & Ht & _ & Hr)]].
    + rewrite (underlying_ordinary _ _ _ _ Hr). by eexists.
    + rewrite (underlying_proxy _ _ _ _ _ Ht).
      rewrite (underlying_ordinary _ _ _ _ Hr). by eexists.
Qed.

Lemma isObject_VRef h x :
  Utils.isObject h x = true → ∃ l, x = VRef l.
Proof. destruct x; try done. by eexists. Qed.

Lemma isReadonly_total f st x :
  wf st → valid (st_heap st) x →
  is_Some (isReadonly (S (S (S f))) (st_heap st) x).
Proof.
  intros Hwf Hv. unfold isReadonly.
  destruct (truthy x) eqn:Htr; [|by eexists].
  destruct x; try done; try (by eexists).
  unfold get_flag. destruct (Get_total f st l IS_READONLY Hwf Hv) as [v ->].
  by eexists.
Qed.

Lemma createReactiveObject_declined f st x ro bh ch m :
  wf st → valid (st_heap st) x →
  declined (S (S (S f))) (st_heap st) x →
  createReactiveObject (S (S (S f))) st x ro bh ch m = Some (x, st).
Proof.
  intros Hwf Hv Hd. unfold createReactiveObject.
  destruct (Utils.isObject (st_heap st) x) eqn:Hobj; [|done].
  destruct (isObject_VRef _ _ Hobj) as [l ->]. cbn [negb].
  cbn [valid] in Hv. unfold get_flag.
  destruct (Get_total f st l RAW Hwf Hv) as [raw ->].
  destruct (Get_total f st l IS_REACTIVE Hwf Hv) as [isr ->].
  cbn [mbind option_bind].
  assert (∃ b : bool,
            (if truthy raw
             then if ro then Some (negb (truthy isr)) else Some true
             else Some false) = Some b) as [al ->]
    by (destruct (truthy raw), ro; eauto).
  cbn [mbind option_bind]. destruct al; [done|].
  unfold getTargetType, get_flag.
  destruct (Get_total f st l SKIP Hwf Hv) as [skip Hskip]. rewrite Hskip.
  cbn [mbind option_bind].
  destruct (truthy skip) eqn:Htskip; [done|].
  unfold Object_isExtensible, toRawType, toTypeString.
  destruct (underlying_total f st l Hwf Hv) as [t Hu]. rewrite Hu.
  cbn [fmap option_fmap option_map mbind option_bind].
  destruct (o_extensible t) eqn:Hext; cbn [negb]; [|done].
  cbn [fmap option_fmap option_map option_bind].
  destruct Hd as [Hd|[Hd|[(ty & Hty & Hnot)|(s & Hs & Hts)]]].
  - by rewrite Hobj in Hd.
  - unfold Object_isExtensible in Hd. rewrite Hu in Hd. cbn in Hd.
    congruence.
  - unfold toRawType, toTypeString in Hty. rewrite Hu in Hty.
    cbn [fmap option_fmap option_map] in Hty. injection Hty as <-.
    apply targetTypeMap_INVALID in Hnot. by rewrite Hnot.
  - unfold get_flag in Hs. rewrite Hskip in Hs. injection Hs as <-.
    congruence.
Qed.

(** C9.  A non-object, a non-extensible object, an object whose runtime
    type is none of Object, Array, Map, Set, WeakMap, WeakSet, and an
    object that carries the SKIP flag are returned unchanged by [reactive]
    and by [readonly], and no proxy is made: the state stays as it was. *)
Theorem reactive_readonly_declined (fuel : nat) (st : state) (x : value) :
  wf st → valid (st_heap st) x → 3 ≤ fuel →
  Utils.isObject (st_heap st) x = false ∨
  Object_isExtensible fuel (st_heap st) x = Some false ∨
  (∃ ty, toRawType fuel (st_heap st) x = Some ty ∧
         ¬ In ty proxyable_tags) ∨
  (∃ s, get_flag fuel (st_heap st) x SKIP = Some s ∧ truthy s = true) →
  reactive fuel st x = Some (x, st) ∧ readonly fuel st x = Some (x, st).
Proof.
  intros Hwf Hv Hfuel Hd.
  destruct fuel as [|[|[|f]]]; [lia..|].
  split.
  - unfold reactive.
    destruct (isReadonly_total f st x Hwf Hv) as [[|] ->];
      cbn [mbind option_bind]; [done|].
    by apply createReactiveObject_declined.
  - by apply createReactiveObject_declined.
Qed.

(** C10.  Whenever [isReadonly(x)] holds, [reactive(x)] returns [x] itself
    and leaves the state, the heap and [reactiveMap] included, as it was. *)
Theorem reactive_of_readonly (fuel : nat) (st : state) (x : value) :
  isReadonly fuel (st_heap st) x = Some true →
  reactive fuel st x = Some (x, st).
Proof. intros H. unfold reactive. by rewrite H. Qed.

(** Whatever the argument, [createReactiveObject] keeps the state well
    formed. *)
Lemma cached_or_new_tail st l hd m :
  (if truthy (default VUndefined (proxyMap_of st m !! l))
   then Some (default VUndefined (proxyMap_of st m !! l), st)
   else
     let '(p, st1) := new_Proxy st l hd in
     Some (VRef p, proxyMap_set st1 m l (VRef p))) =
  Some (cached_or_new st l hd m).
Proof.
  unfold cached_or_new.
  destruct (truthy (default VUndefined (proxyMap_of st m !! l))); [done|].
  by destruct (new_Proxy _ _ _).
Qed.

Lemma createReactiveObject_wf fuel st x ro bh ch v st' :
  wf st →
  handler_is_readonly bh = ro → handler_is_readonly ch = ro →
  createReactiveObject fuel st x ro bh ch (flavor_map ro) = Some (v, st') →
  wf st'.
Proof.
  intros Hwf Hbh Hch. unfold createReactiveObject.
  destruct (Utils.isObject (st_heap st) x) eqn:Hobj; cbn [negb];
    [|by intros [= <- <-]].
  destruct (isObject_VRef _ _ Hobj) as [l ->].
  destruct fuel as [|f]; [done|]. unfold get_flag.
  destruct (st_heap st !! l) as [[t|t hd]|] eqn:Hl.
  - rewrite !(Get_ordinary _ _ _ _ _ Hl). cbn [mbind option_bind].
    set (al := if truthy (own_flag t RAW) then _ else _).
    destruct al as [[|]|]; cbn [mbind option_bind];
      [by intros [= <- <-]| |done].
    destruct (getTargetType _ _ _) as [tt|]; cbn [mbind option_bind];
      [|done].
    case_bool_decide; [by intros [= <- <-]|].
    rewrite cached_or_new_tail. intros [= Hc].
    destruct (cached_or_new_spec st l _ ro v st' Hwf
                (pick_flavor _ bh ch ro Hbh Hch)
                (or_introl (ex_intro _ t Hl)) Hc)
      as (? & ? & _ & _ & _ & _ & ? & _). done.
  - rewrite !(Get_proxy _ _ _ _ _ _ Hl), handler_get_RAW,
      handler_get_IS_REACTIVE.
    cbn [mbind option_bind truthy].
    destruct ro; cbn [mbind option_bind]; [|by intros [= <- <-]].
    destruct (handler_is_readonly hd) eqn:Hhd; cbn [negb truthy];
      [by intros [= <- <-]|].
    destruct (getTargetType _ _ _) as [tt|]; cbn [mbind option_bind];
      [|done].
    case_bool_decide; [by intros [= <- <-]|].
    rewrite cached_or_new_tail. intros [= Hc].
    assert (target_ok (st_heap st) true l) as Hok.
    { right. split; [done|].
      destruct (wf_targets _ Hwf _ _ _ Hl) as [[r Hr]|[Hro _]];
        [|congruence].
      by exists t, hd, r. }
    destruct (cached_or_new_spec st l _ true v st' Hwf
                (pick_flavor _ bh ch true Hbh Hch) Hok Hc)
      as (? & ? & _ & _ & _ & _ & ? & _). done.
  - cbn. by rewrite Hl.
Qed.

Lemma reactive_wf fuel st x v st' :
  wf st → reactive fuel st x = Some (v, st') → wf st'.
Proof.
  intros Hwf. unfold reactive.
  destruct (isReadonly _ _ _) as [[|]|]; cbn [mbind option_bind];
    [by intros [= <- <-]| |done].
  by apply (createReactiveObject_wf _ _ _ false).
Qed.

Lemma readonly_wf fuel st x v st' :
  wf st → readonly fuel st x = Some (v, st') → wf st'.
Proof. intros Hwf. by apply (createReactiveObject_wf _ _ _ true). Qed.

(** [reactive] on an accepted object: the proxy, its raw object, the
    cache entry and the second call. *)
Lemma reactive_accepted_spec (fuel : nat) (st : state) (o : loc) :
  wf st → accepted (st_heap st) o → 3 ≤ fuel →
  ∃ p st',
    reactive fuel st (VRef o) = Some (VRef p, st') ∧
    toRaw fuel (st_heap st') (VRef p) = Some (VRef o) ∧
    reactive fuel st' (VRef o) = Some (VRef p, st') ∧
    st_reactiveMap st' !! o = Some (VRef p) ∧
    ∃ hd, st_heap st' !! p = Some (Proxy o hd) ∧
          handler_is_readonly hd = false.
Proof.
  intros Hwf Hacc Hfuel.
  destruct fuel as [|[|[|f]]]; [lia..|].
  pose proof Hacc as (t & Ht & _ & _ & _ & _ & _ & Hraw).
  set (hd := pick_handler (o_tag t) mutableHandlers mutableCollectionHandlers).
  destruct (cached_or_new st o hd reactiveMap) as [v st'] eqn:Hc.
  destruct (cached_or_new_spec st o hd false v st' Hwf) as
    (p & hd' & -> & Hp & Hhd' & Hmap & Hwf' & Hsub & _ & Hstable);
    [by apply pick_handler_flavor | left; by exists t | done |].
  exists p, st'.
  split; [by rewrite (reactive_accepted _ _ _ _ Ht Hacc); fold hd; rewrite Hc|].
  split.
  { rewrite (toRaw_proxy _ _ _ _ _ Hp).
    apply (toRaw_ordinary _ _ _ t); [by eapply lookup_weaken | done]. }
  split.
  { rewrite (reactive_accepted _ _ _ t);
      [| by eapply lookup_weaken | by eapply accepted_weaken].
    f_equal. apply Hstable. }
  split; [done|]. by exists hd'.
Qed.

(** C1.  For every object [o] accepted for proxying, in every well-formed
    state: [reactive(o)] is a proxy [p] with [toRaw(p) === o]; a second
    call [reactive(o)] returns the identical [p] and changes nothing; and
    [p] is the entry of [reactiveMap] under the key [o]. *)
Theorem reactive_identity (fuel : nat) (st : state) (o : loc) :
  wf st → accepted (st_heap st) o → 3 ≤ fuel →
  ∃ p st',
    reactive fuel st (VRef o) = Some (VRef p, st') ∧
    toRaw fuel (st_heap st') (VRef p) = Some (VRef o) ∧
    reactive fuel st' (VRef o) = Some (VRef p, st') ∧
    st_reactiveMap st' !! o = Some (VRef p) ∧
    ∃ hd, st_heap st' !! p = Some (Proxy o hd) ∧
          handler_is_readonly hd = false.
Proof. apply reactive_accepted_spec. Qed.

(** C2.  For every object [o] accepted for proxying, [readonly(reactive(o))]
    is a proxy distinct from [reactive(o)], and [toRaw] of either is [o]. *)
Theorem readonly_of_reactive_distinct (fuel : nat) (st : state) (o : loc) :
  wf st → accepted (st_heap st) o → 4 ≤ fuel →
  ∃ p q st1 st2,
    reactive fuel st (VRef o) = Some (VRef p, st1) ∧
    readonly fuel st1 (VRef p) = Some (VRef q, st2) ∧
    reactive fuel st2 (VRef o) = Some (VRef p, st2) ∧
    q ≠ p ∧
    toRaw fuel (st_heap st2) (VRef q) = Some (VRef o) ∧
    toRaw fuel (st_heap st2) (VRef p) = Some (VRef o).
Proof.
  intros Hwf Hacc Hfuel.
  destruct (reactive_accepted_spec fuel st o Hwf Hacc) as
    (p & st1 & Hr1 & _ & Hr1' & Hmap1 & hd & Hp & Hhd); [lia|].
  destruct fuel as [|[|[|[|f]]]]; [lia..|].
  pose proof Hacc as (t & Ht & _ & _ & _ & _ & _ & Hraw).
  assert (wf st1 ∧ st_heap st ⊆ st_heap st1) as [Hwf1 Hsub1].
  { rewrite (reactive_accepted _ _ _ _ Ht Hacc) in Hr1.
    injection Hr1 as Hr1.
    destruct (cached_or_new_spec st o _ false _ _ Hwf
                (pick_handler_flavor (o_tag t) mutableHandlers
                   mutableCollectionHandlers false eq_refl eq_refl)
                (or_introl (ex_intro _ t Ht)) Hr1)
      as (? & ? & _ & _ & _ & _ & ? & ? & _). done. }
  assert (st_heap st1 !! o = Some (Ordinary t)) as Ht1
    by (by eapply lookup_weaken).
  assert (accepted (st_heap st1) o) as Hacc1 by (by eapply accepted_weaken).
  set (hdr := pick_handler (o_tag t) readonlyHandlers readonlyCollectionHandlers).
  destruct (cached_or_new st1 p hdr readonlyMap) as [v st2] eqn:Hc.
  destruct (cached_or_new_spec st1 p hdr true v st2 Hwf1) as
    (q & hd' & -> & Hq & Hhd' & Hmap2 & Hwf2 & Hsub2 & Hmaps & _);
    [by apply pick_handler_flavor
    | right; split; [done|]; by exists o, hd, t | done |].
  assert (st_heap st2 !! p = Some (Proxy o hd)) as Hp2
    by (by eapply lookup_weaken).
  assert (st_heap st2 !! o = Some (Ordinary t)) as Ht2
    by (by eapply lookup_weaken).
  exists p, q, st1, st2.
  split; [done|]. split.
  { unfold readonly.
    rewrite (createReactiveObject_readonly_of_reactive _ _ _ _ _ _ _ _ _
               Hp Hhd Ht1 Hacc1).
    fold hdr. by rewrite Hc. }
  split.
  { rewrite (reactive_accepted _ _ _ t Ht2);
      [| by eapply accepted_weaken].
    unfold cached_or_new. cbn [proxyMap_of].
    assert (st_reactiveMap st2 !! o = Some (VRef p)) as ->; [|done].
    eapply lookup_weaken; [exact Hmap1 | apply (Hmaps reactiveMap)]. }
  split.
  { intros ->. rewrite Hp2 in Hq. injection Hq as _ ->.
    by rewrite Hhd in Hhd'. }
  split.
  - rewrite (toRaw_proxy _ _ _ _ _ Hq), (toRaw_proxy _ _ _ _ _ Hp2).
    by apply (toRaw_ordinary _ _ _ t).
  - rewrite (toRaw_proxy _ _ _ _ _ Hp2).
    by apply (toRaw_ordinary _ _ _ t).
Qed.

Lemma plain_accepted :
  accepted (st_heap Samples.st_plain) Samples.o_plain.
Proof.
  exists Samples.plainObject. split; [apply lookup_insert_eq|].
  cbn. tauto.
Qed.

Lemma reactive_identity_witness :
  wf Samples.st_plain ∧
  accepted (st_heap Samples.st_plain) Samples.o_plain ∧
  3 ≤ 3 ∧
  ∃ p st',
    reactive 3 Samples.st_plain (VRef Samples.o_plain) = Some (VRef p, st') ∧
    toRaw 3 (st_heap st') (VRef p) = Some (VRef Samples.o_plain) ∧
    reactive 3 st' (VRef Samples.o_plain) = Some (VRef p, st') ∧
    st_reactiveMap st' !! Samples.o_plain = Some (VRef p) ∧
    ∃ hd, st_heap st' !! p = Some (Proxy Samples.o_plain hd) ∧
          handler_is_readonly hd = false.
Proof.
  assert (wf Samples.st_plain) as Hwf by apply wf_alloc, wf_init.
  split; [exact Hwf|]. split; [exact plain_accepted|]. split; [lia|].
  apply (reactive_identity 3 Samples.st_plain Samples.o_plain Hwf
           plain_accepted). lia.
Defined.

Lemma readonly_of_reactive_distinct_witness :
  wf Samples.st_plain ∧
  accepted (st_heap Samples.st_plain) Samples.o_plain ∧
  4 ≤ 4 ∧
  ∃ p q st1 st2,
    reactive 4 Samples.st_plain (VRef Samples.o_plain) = Some (VRef p, st1) ∧
    readonly 4 st1 (VRef p) = Some (VRef q, st2) ∧
    reactive 4 st2 (VRef Samples.o_plain) = Some (VRef p, st2) ∧
    q ≠ p ∧
    toRaw 4 (st_heap st2) (VRef q) = Some (VRef Samples.o_plain) ∧
    toRaw 4 (st_heap st2) (VRef p) = Some (VRef Samples.o_plain).
Proof.
  assert (wf Samples.st_plain) as Hwf by apply wf_alloc, wf_init.
  split; [exact Hwf|]. split; [exact plain_accepted|]. split; [lia|].
  apply (readonly_of_reactive_distinct 4 Samples.st_plain Samples.o_plain
           Hwf plain_accepted). lia.
Defined.

Lemma reactive_readonly_declined_witness :
  wf Samples.st_frozen ∧
  valid (st_heap Samples.st_frozen) (VRef Samples.o_frozen) ∧
  3 ≤ 3 ∧
  Object_isExtensible 3 (st_heap Samples.st_frozen) (VRef Samples.o_frozen)
    = Some false ∧
  reactive 3 Samples.st_frozen (VRef Samples.o_frozen) =
    Some (VRef Samples.o_frozen, Samples.st_frozen) ∧
  readonly 3 Samples.st_frozen (VRef Samples.o_frozen) =
    Some (VRef Samples.o_frozen, Samples.st_frozen).
Proof.
  assert (wf Samples.st_frozen) as Hwf by apply wf_alloc, wf_init.
  assert (valid (st_heap Samples.st_frozen) (VRef Samples.o_frozen)) as Hv
    by (by eexists).
  assert (Object_isExtensible 3 (st_heap Samples.st_frozen)
            (VRef Samples.o_frozen) = Some false) as Hext by reflexivity.
  split; [exact Hwf|]. split; [exact Hv|]. split; [lia|].
  split; [exact Hext|].
  apply (reactive_readonly_declined 3 Samples.st_frozen
           (VRef Samples.o_frozen) Hwf Hv); [lia|].
  right. left. exact Hext.
Defined.

Lemma reactive_of_readonly_witness :
  isReadonly 3 (st_heap Samples.st_computed) (VRef Samples.o_computed)
    = Some true ∧
  reactive 3 Samples.st_computed (VRef Samples.o_computed) =
    Some (VRef Samples.o_computed, Samples.st_computed).
Proof.
  split; [reflexivity|].
  apply (reactive_of_readonly 3 Samples.st_computed
           (VRef Samples.o_computed)).
  reflexivity.
Defined.

(** *** Further properties of reactive.ts *)

Lemma Get_mono f f' h l k v :
  Get f h l k = Some v → f ≤ f' → Get f' h l k = Some v.
Proof.
  revert f' l. induction f as [|f IH]; intros f' l H Hle; [done|].
  destruct f' as [|f']; [lia|]. cbn [Get] in *.
  destruct (h !! l) as [[t|t hd]|]; [done| |done].
  destruct (handler_get hd t k); [done|]. apply IH; [done | lia].
Qed.

Lemma get_flag_mono f f' h x k v :
  get_flag f h x k = Some v → f ≤ f' → get_flag f' h x k = Some v.
Proof. destruct x; cbn; try done. apply Get_mono. Qed.

(** One step of the engine answers [RAW], [IS_READONLY] and [IS_REACTIVE]
    alike: on an ordinary object they are own fields, on a proxy the trap
    answers them. *)
Lemma Get_flag_is_Some f h l k k' :
  k ≠ SKIP → k ≠ IS_SHALLOW → k' ≠ SKIP → k' ≠ IS_SHALLOW →
  is_Some (Get f h l k) → is_Some (Get f h l k').
Proof.
  intros Hk1 Hk2 Hk1' Hk2'. destruct f as [|f]; [by intros [? ?]|].
  cbn [Get]. destruct (h !! l) as [[t|t hd]|]; [by eexists| |done].
  intros _. destruct hd, k'; try done; by eexists.
Qed.

Lemma isProxy_true fuel h x :
  isProxy fuel h x = Some true →
  ∃ l raw, x = VRef l ∧ Get fuel h l RAW = Some raw ∧ truthy raw = true.
Proof.
  unfold isProxy. destruct (truthy x) eqn:Hx; [|done].
  destruct x; try done; cbn [get_flag]; try (by intros [= ?]).
  destruct (Get fuel h l RAW) as [raw|] eqn:Hraw; [|done].
  cbn. intros [= Ht]. by exists l, raw.
Qed.

(** [reactive] never wraps a proxy: whenever [isProxy(x)] holds, that is,
    whenever [x] answers a truthy [RAW], [reactive(x)] is [x] itself, for a
    reactive and for a readonly proxy alike, and the state is untouched. *)
Theorem reactive_of_proxy (fuel : nat) (st : state) (x : value) :
  isProxy fuel (st_heap st) x = Some true →
  reactive fuel st x = Some (x, st).
Proof.
  intros H. destruct (isProxy_true _ _ _ H) as (l & raw & -> & Hraw & Ht).
  destruct (Get_flag_is_Some fuel (st_heap st) l RAW IS_READONLY)
    as [ro Hro]; [done..|by eexists|].
  unfold reactive, isReadonly. cbn [truthy get_flag]. rewrite Hro.
  cbn [fmap option_fmap option_map mbind option_bind].
  destruct (truthy ro); [done|].
  unfold createReactiveObject.
  destruct (Utils.isObject (st_heap st) (VRef l)); [|done]. cbn [negb].
  cbn [get_flag]. rewrite Hraw. cbn [mbind option_bind]. by rewrite Ht.
Qed.

(** [readonly] on an accepted object: a proxy with the readonly flavor,
    cached in [readonlyMap] under the object, handed out again by the next
    call, and left alone by [readonly] and by [reactive]. *)
Lemma readonly_accepted f st o t :
  st_heap st !! o = Some (Ordinary t) →
  accepted (st_heap st) o →
  readonly (S f) st (VRef o) =
    Some (cached_or_new st o
            (pick_handler (o_tag t) readonlyHandlers readonlyCollectionHandlers)
            readonlyMap).
Proof. intros H Hacc. by apply createReactiveObject_accepted. Qed.

Lemma isReadonly_proxy f h p t hd :
  h !! p = Some (Proxy t hd) →
  isReadonly (S f) h (VRef p) = Some (handler_is_readonly hd).
Proof.
  intros H. unfold isReadonly. cbn [truthy get_flag].
  rewrite (Get_proxy _ _ _ _ _ _ H), handler_get_IS_READONLY. cbn.
  by destruct (handler_is_readonly hd).
Qed.

Lemma isProxy_proxy f h p t hd :
  h !! p = Some (Proxy t hd) → isProxy (S f) h (VRef p) = Some true.
Proof.
  intros H. unfold isProxy. cbn [truthy get_flag].
  by rewrite (Get_proxy _ _ _ _ _ _ H), handler_get_RAW.
Qed.

Lemma readonly_of_readonly_proxy f st p t hd :
  st_heap st !! p = Some (Proxy t hd) → handler_is_readonly hd = true →
  readonly (S f) st (VRef p) = Some (VRef p, st).
Proof.
  intros H Hro. unfold readonly, createReactiveObject.
  rewrite (isObject_proxy _ _ _ _ H). cbn [negb get_flag].
  rewrite !(Get_proxy _ _ _ _ _ _ H), handler_get_RAW,
    handler_get_IS_REACTIVE, Hro.
  by cbn [mbind option_bind truthy negb].
Qed.

(** [readonly(o)] for an accepted object [o]: it is a readonly proxy [q]
    with [toRaw(q) === o], cached under [o] in [readonlyMap]; [readonly(o)]
    again, [readonly(q)] and [reactive(q)] all return [q] and change
    nothing; and [reactiveMap] is not written. *)
Theorem readonly_identity (fuel : nat) (st : state) (o : loc) :
  wf st → accepted (st_heap st) o → 3 ≤ fuel →
  ∃ q st',
    readonly fuel st (VRef o) = Some (VRef q, st') ∧
    toRaw fuel (st_heap st') (VRef q) = Some (VRef o) ∧
    isReadonly fuel (st_heap st') (VRef q) = Some true ∧
    readonly fuel st' (VRef o) = Some (VRef q, st') ∧
    readonly fuel st' (VRef q) = Some (VRef q, st') ∧
    reactive fuel st' (VRef q) = Some (VRef q, st') ∧
    st_readonlyMap st' !! o = Some (VRef q) ∧
    st_reactiveMap st' = st_reactiveMap st.
Proof.
  intros Hwf Hacc Hfuel.
  destruct fuel as [|[|[|f]]]; [lia..|].
  pose proof Hacc as (t & Ht & _ & _ & _ & _ & _ & Hraw).
  set (hd := pick_handler (o_tag t) readonlyHandlers readonlyCollectionHandlers).
  destruct (cached_or_new st o hd readonlyMap) as [v st'] eqn:Hc.
  destruct (cached_or_new_spec st o hd true v st' Hwf) as
    (q & hd' & -> & Hq & Hhd' & Hmap & Hwf' & Hsub & _ & Hstable);
    [by apply pick_handler_flavor | left; by exists t | done |].
  exists q, st'.
  split; [by rewrite (readonly_accepted _ _ _ _ Ht Hacc); fold hd; rewrite Hc|].
  split.
  { rewrite (toRaw_proxy _ _ _ _ _ Hq).
    apply (toRaw_ordinary _ _ _ t); [by eapply lookup_weaken | done]. }
  split; [by rewrite (isReadonly_proxy _ _ _ _ _ Hq), Hhd'|].
  split.
  { rewrite (readonly_accepted _ _ _ t);
      [| by eapply lookup_weaken | by eapply accepted_weaken].
    f_equal. apply Hstable. }
  split; [by apply (readonly_of_readonly_proxy _ _ _ _ _ Hq)|].
  split.
  { unfold reactive. rewrite (isReadonly_proxy _ _ _ _ _ Hq), Hhd'. done. }
  split; [done|].
  unfold cached_or_new in Hc. cbn [proxyMap_of] in Hc.
  destruct (truthy (default VUndefined (st_readonlyMap st !! o)));
    [by injection Hc as _ <-|].
  unfold new_Proxy in Hc. by injection Hc as _ <-.
Qed.

(** What [isProxy] and [isReadonly] answer on an accepted object and on
    its two proxies. *)
Theorem proxy_flags (fuel : nat) (st : state) (o : loc) :
  wf st → accepted (st_heap st) o → 3 ≤ fuel →
  ∃ p q st1 st2,
    reactive fuel st (VRef o) = Some (VRef p, st1) ∧
    readonly fuel st1 (VRef o) = Some (VRef q, st2) ∧
    p ≠ q ∧
    isProxy fuel (st_heap st2) (VRef o) = Some false ∧
    isReadonly fuel (st_heap st2) (VRef o) = Some false ∧
    isProxy fuel (st_heap st2) (VRef p) = Some true ∧
    isReadonly fuel (st_heap st2) (VRef p) = Some false ∧
    isProxy fuel (st_heap st2) (VRef q) = Some true ∧
    isReadonly fuel (st_heap st2) (VRef q) = Some true.
Proof.
  intros Hwf Hacc Hfuel.
  destruct fuel as [|[|[|f]]]; [lia..|].
  pose proof Hacc as (t & Ht & _ & _ & _ & _ & Hro & Hraw).
  set (hd := pick_handler (o_tag t) mutableHandlers mutableCollectionHandlers).
  destruct (cached_or_new st o hd reactiveMap) as [v st1] eqn:Hc.
  destruct (cached_or_new_spec st o hd false v st1 Hwf) as
    (p & hd1 & -> & Hp & Hhd1 & _ & Hwf1 & Hsub1 & _ & _);
    [by apply pick_handler_flavor | left; by exists t | done |].
  assert (st_heap st1 !! o = Some (Ordinary t)) as Ht1
    by (by eapply lookup_weaken).
  assert (accepted (st_heap st1) o) as Hacc1 by (by eapply accepted_weaken).
  set (hdr := pick_handler (o_tag t) readonlyHandlers readonlyCollectionHandlers).
  destruct (cached_or_new st1 o hdr readonlyMap) as [w st2] eqn:Hc2.
  destruct (cached_or_new_spec st1 o hdr true w st2 Hwf1) as
    (q & hd2 & -> & Hq & Hhd2 & _ & Hwf2 & Hsub2 & _ & _);
    [by apply pick_handler_flavor | left; by exists t | done |].
  assert (st_heap st2 !! p = Some (Proxy o hd1)) as Hp2
    by (by eapply lookup_weaken).
  assert (st_heap st2 !! o = Some (Ordinary t)) as Ht2
    by (by eapply lookup_weaken).
  exists p, q, st1, st2.
  split; [by rewrite (reactive_accepted _ _ _ _ Ht Hacc); fold hd; rewrite Hc|].
  split; [by rewrite (readonly_accepted _ _ _ _ Ht1 Hacc1); fold hdr;
            rewrite Hc2|].
  split.
  { intros ->. rewrite Hp2 in Hq. injection Hq as ->. congruence. }
  split.
  { unfold isProxy. cbn [truthy get_flag].
    rewrite (Get_ordinary _ _ _ _ _ Ht2). cbn. by rewrite Hraw. }
  split.
  { unfold isReadonly. cbn [truthy get_flag].
    rewrite (Get_ordinary _ _ _ _ _ Ht2). cbn. by rewrite Hro. }
  split; [by apply (isProxy_proxy _ _ _ _ _ Hp2)|].
  split; [by rewrite (isReadonly_proxy _ _ _ _ _ Hp2), Hhd1|].
  split; [by apply (isProxy_proxy _ _ _ _ _ Hq)|].
  by rewrite (isReadonly_proxy _ _ _ _ _ Hq), Hhd2.
Qed.

(** [toRaw] ends on a value that is its own raw form: applying [toRaw]
    again changes nothing, and [isProxy] of the result is [false].  This
    holds in every heap, whatever the chain of [RAW] fields looks like. *)
Theorem toRaw_fixpoint (fuel : nat) (h : heap) (x r : value) :
  toRaw fuel h x = Some r →
  toRaw fuel h r = Some r ∧ isProxy fuel h r = Some false.
Proof.
  assert (∀ f x,
            toRaw f h x = Some r →
            ∃ f' raw, f' < f ∧ truthy raw = false ∧
              (if truthy r then get_flag f' h r RAW else Some r) = Some raw)
    as Hend.
  { intros f. induction f as [|f IH]; intros y Hy; [done|].
    cbn [toRaw] in Hy.
    destruct (if truthy y then get_flag f h y RAW else Some y)
      as [raw|] eqn:Hraw; [|done].
    cbn [mbind option_bind] in Hy.
    destruct (truthy raw) eqn:Ht.
    - destruct (IH _ Hy) as (f' & raw' & Hlt & Hrest). exists f', raw'.
      split; [lia | done].
    - injection Hy as <-. exists f, raw. split; [lia | done]. }
  intros H. destruct (Hend _ _ H) as (f' & raw & Hlt & Ht & Hraw).
  destruct fuel as [|f]; [lia|].
  destruct (truthy r) eqn:Hr.
  - assert (get_flag f h r RAW = Some raw) as Hf
      by (apply (get_flag_mono f'); [done | lia]).
    split.
    + cbn [toRaw]. rewrite Hr, Hf. cbn [mbind option_bind]. by rewrite Ht.
    + unfold isProxy. rewrite Hr.
      rewrite (get_flag_mono f (S f) _ _ _ _ Hf) by lia. cbn. by rewrite Ht.
  - split.
    + cbn [toRaw]. rewrite Hr. cbn [mbind option_bind]. by rewrite Hr.
    + unfold isProxy. by rewrite Hr.
Qed.

(** The two ways [createReactiveObject] ends: the target is handed back
    with the state as it was, or the cache step is taken. *)
Lemma createReactiveObject_cases fuel st x ro bh ch m v st' :
  createReactiveObject fuel st x ro bh ch m = Some (v, st') →
  (v = x ∧ st' = st) ∨
  ∃ l hd, x = VRef l ∧ is_Some (st_heap st !! l) ∧
          (hd = bh ∨ hd = ch) ∧ cached_or_new st l hd m = (v, st').
Proof.
  unfold createReactiveObject.
  destruct (Utils.isObject (st_heap st) x) eqn:Hobj; cbn [negb];
    [|intros [= <- <-]; by left].
  destruct (isObject_VRef _ _ Hobj) as [l ->].
  destruct (get_flag fuel (st_heap st) (VRef l) RAW) as [raw|] eqn:Hraw;
    [|done].
  cbn [mbind option_bind].
  set (al := if truthy raw then _ else _).
  destruct al as [[|]|]; cbn [mbind option_bind];
    [intros [= <- <-]; by left| |done].
  destruct (getTargetType _ _ _) as [tt|]; cbn [mbind option_bind]; [|done].
  case_bool_decide; [intros [= <- <-]; by left|].
  rewrite cached_or_new_tail. intros [= Hc]. right.
  exists l. eexists. split; [done|]. split.
  { destruct fuel as [|f]; [done|]. cbn [get_flag Get] in Hraw.
    destruct (st_heap st !! l); [by eexists | done]. }
  split; [|exact Hc]. case_bool_decide; tauto.
Qed.

(** [reactive] and [readonly] only add.  After either call the state is
    well formed again; every object of the heap and every entry of the four
    caches is as before; and the only object that can be new is the
    returned proxy. *)
Theorem reactive_readonly_frame (fuel : nat) (st : state) (x v : value)
    (st' : state) :
  wf st →
  reactive fuel st x = Some (v, st') ∨ readonly fuel st x = Some (v, st') →
  wf st' ∧
  st_heap st ⊆ st_heap st' ∧
  (∀ m, proxyMap_of st m ⊆ proxyMap_of st' m) ∧
  (∀ l, st_heap st !! l = None → is_Some (st_heap st' !! l) →
        v = VRef l ∧ ∃ t hd, st_heap st' !! l = Some (Proxy t hd)).
Proof.
  intros Hwf H.
  assert (∃ ro bh ch,
            handler_is_readonly bh = ro ∧ handler_is_readonly ch = ro ∧
            ((v = x ∧ st' = st) ∨
             createReactiveObject fuel st x ro bh ch (flavor_map ro) =
               Some (v, st'))) as (ro & bh & ch & Hbh & Hch & Hc).
  { destruct H as [H|H].
    - exists false, mutableHandlers, mutableCollectionHandlers.
      split; [done|]. split; [done|]. unfold reactive in H.
      destruct (isReadonly _ _ _) as [[|]|]; cbn [mbind option_bind] in H;
        [injection H as <- <-; by left | by right | done].
    - exists true, readonlyHandlers, readonlyCollectionHandlers.
      split; [done|]. split; [done|]. by right. }
  assert (wf st' ∧ st_heap st ⊆ st_heap st' ∧
          (∀ m, proxyMap_of st m ⊆ proxyMap_of st' m) ∧
          ((v = x ∧ st' = st) ∨
           ∃ l hd, cached_or_new st l hd (flavor_map ro) = (v, st')))
    as (Hwf' & Hsub & Hmaps & Hcase).
  { destruct Hc as [[-> ->]|Hc]; [by eauto 10|].
    pose proof (createReactiveObject_wf _ _ _ _ _ _ _ _ Hwf Hbh Hch Hc)
      as Hwf'.
    destruct (createReactiveObject_cases _ _ _ _ _ _ _ _ _ Hc)
      as [[-> ->]|(l & hd & -> & [o Ho] & Hhd & Hcn)]; [by eauto 10|].
    split; [done|].
    assert (∃ p, v = VRef p ∧ st_heap st ⊆ st_heap st' ∧
                 (∀ m, proxyMap_of st m ⊆ proxyMap_of st' m))
      as (p & -> & ? & ?).
    { unfold cached_or_new in Hcn.
      destruct (proxyMap_of st (flavor_map ro) !! l) as [e|] eqn:He.
      - assert (is_proxy_of (st_heap st) ro e l) as (p & hd' & -> & _).
        { destruct ro; cbn in He.
          - by apply (wf_readonlyMap _ Hwf).
          - by apply (wf_reactiveMap _ Hwf). }
        cbn in Hcn. injection Hcn as <- <-. by exists p.
      - cbn [default truthy] in Hcn. unfold new_Proxy in Hcn.
        injection Hcn as <- <-. eexists. split; [done|].
        pose proof (fresh_lookup_None (st_heap st)) as Hfresh.
        split.
        + destruct ro; cbn; by apply insert_subseteq.
        + intros m. destruct ro, m; cbn; try done; by apply insert_subseteq. }
    split; [done|]. split; [done|]. right. by exists l, hd. }
  split; [done|]. split; [done|]. split; [done|].
  intros l Hnone [obj Hsome].
  destruct Hcase as [[-> ->]|(l0 & hd & Hcn)]; [congruence|].
  unfold cached_or_new in Hcn.
  destruct (truthy (default VUndefined (proxyMap_of st (flavor_map ro) !! l0))).
  - injection Hcn as <- <-. congruence.
  - unfold new_Proxy in Hcn. injection Hcn as <- <-.
    assert (st_heap
              (proxyMap_set
                 (mkState (<[fresh (dom (st_heap st)) := Proxy l0 hd]>
                             (st_heap st))
                    (st_reactiveMap st) (st_shallowReactiveMap st)
                    (st_readonlyMap st) (st_shallowReadonlyMap st))
                 (flavor_map ro) l0 (VRef (fresh (dom (st_heap st)))))
            = <[fresh (dom (st_heap st)) := Proxy l0 hd]> (st_heap st))
      as Hheap by (by destruct ro).
    rewrite Hheap in *.
    destruct (decide (l = fresh (dom (st_heap st)))) as [->|Hne].
    + split; [done|]. exists l0, hd. apply lookup_insert_eq.
    + rewrite lookup_insert_ne in Hsome by done. congruence.
Qed.

(** Distinct objects have distinct reactive proxies: when [reactive] hands
    out the same proxy for two accepted objects, they are one object. *)
Theorem reactive_injective (fuel : nat) (st : state) (a b : loc) :
  wf st → accepted (st_heap st) a → accepted (st_heap st) b → 3 ≤ fuel →
  ∃ p q st1 st2,
    reactive fuel st (VRef a) = Some (VRef p, st1) ∧
    reactive fuel st1 (VRef b) = Some (VRef q, st2) ∧
    (p = q ↔ a = b).
Proof.
  intros Hwf Ha Hb Hfuel.
  destruct fuel as [|[|[|f]]]; [lia..|].
  pose proof Ha as (ta & Hta & _).
  pose proof Hb as (tb & Htb & _).
  set (hda := pick_handler (o_tag ta) mutableHandlers mutableCollectionHandlers).
  destruct (cached_or_new st a hda reactiveMap) as [v st1] eqn:Hc.
  destruct (cached_or_new_spec st a hda false v st1 Hwf) as
    (p & hd1 & -> & Hp & _ & Hmap1 & Hwf1 & Hsub1 & _ & Hstable);
    [by apply pick_handler_flavor | left; by exists ta | done |].
  assert (st_heap st1 !! b = Some (Ordinary tb)) as Htb1
    by (by eapply lookup_weaken).
  assert (accepted (st_heap st1) b) as Hb1 by (by eapply accepted_weaken).
  set (hdb := pick_handler (o_tag tb) mutableHandlers mutableCollectionHandlers).
  destruct (cached_or_new st1 b hdb reactiveMap) as [w st2] eqn:Hc2.
  destruct (cached_or_new_spec st1 b hdb false w st2 Hwf1) as
    (q & hd2 & -> & Hq & _ & Hmap2 & _ & Hsub2 & _ & _);
    [by apply pick_handler_flavor | left; by exists tb | done |].
  exists p, q, st1, st2.
  split; [by rewrite (reactive_accepted _ _ _ _ Hta Ha); fold hda; rewrite Hc|].
  split; [by rewrite (reactive_accepted _ _ _ _ Htb1 Hb1); fold hdb;
            rewrite Hc2|].
  split.
  - intros ->.
    assert (st_heap st2 !! q = Some (Proxy a hd1)) as Hq'
      by (by eapply lookup_weaken).
    rewrite Hq in Hq'. by injection Hq' as ->.
  - intros <-. pose proof (Hstable hdb) as Hs. cbn [flavor_map] in Hs.
    rewrite Hs in Hc2. by injection Hc2 as <-.
Qed.

Lemma reactive_of_proxy_witness :
  let st := (reactive 3 Samples.st_plain (VRef Samples.o_plain)) in
  ∃ p st',
    st = Some (VRef p, st') ∧
    isProxy 3 (st_heap st') (VRef p) = Some true ∧
    reactive 3 st' (VRef p) = Some (VRef p, st').
Proof.
  eexists _, _. split; [reflexivity|].
  split; [reflexivity|].
  apply reactive_of_proxy. reflexivity.
Defined.

Lemma readonly_identity_witness :
  wf Samples.st_plain ∧
  accepted (st_heap Samples.st_plain) Samples.o_plain ∧
  3 ≤ 3 ∧
  ∃ q st',
    readonly 3 Samples.st_plain (VRef Samples.o_plain) = Some (VRef q, st') ∧
    toRaw 3 (st_heap st') (VRef q) = Some (VRef Samples.o_plain) ∧
    isReadonly 3 (st_heap st') (VRef q) = Some true ∧
    readonly 3 st' (VRef Samples.o_plain) = Some (VRef q, st') ∧
    readonly 3 st' (VRef q) = Some (VRef q, st') ∧
    reactive 3 st' (VRef q) = Some (VRef q, st') ∧
    st_readonlyMap st' !! Samples.o_plain = Some (VRef q) ∧
    st_reactiveMap st' = st_reactiveMap Samples.st_plain.
Proof.
  assert (wf Samples.st_plain) as Hwf by apply wf_alloc, wf_init.
  split; [exact Hwf|]. split; [exact plain_accepted|]. split; [lia|].
  apply (readonly_identity 3 Samples.st_plain Samples.o_plain Hwf
           plain_accepted). lia.
Defined.

Lemma proxy_flags_witness :
  wf Samples.st_plain ∧
  accepted (st_heap Samples.st_plain) Samples.o_plain ∧
  3 ≤ 3 ∧
  ∃ p q st1 st2,
    reactive 3 Samples.st_plain (VRef Samples.o_plain) = Some (VRef p, st1) ∧
    readonly 3 st1 (VRef Samples.o_plain) = Some (VRef q, st2) ∧
    p ≠ q ∧
    isProxy 3 (st_heap st2) (VRef Samples.o_plain) = Some false ∧
    isReadonly 3 (st_heap st2) (VRef Samples.o_plain) = Some false ∧
    isProxy 3 (st_heap st2) (VRef p) = Some true ∧
    isReadonly 3 (st_heap st2) (VRef p) = Some false ∧
    isProxy 3 (st_heap st2) (VRef q) = Some true ∧
    isReadonly 3 (st_heap st2) (VRef q) = Some true.
Proof.
  assert (wf Samples.st_plain) as Hwf by apply wf_alloc, wf_init.
  split; [exact Hwf|]. split; [exact plain_accepted|]. split; [lia|].
  apply (proxy_flags 3 Samples.st_plain Samples.o_plain Hwf plain_accepted).
  lia.
Defined.

Lemma toRaw_fixpoint_witness :
  let st := snd (default (VUndefined, Samples.st_plain)
                   (reactive 3 Samples.st_plain (VRef Samples.o_plain))) in
  toRaw 3 (st_heap st) (VRef 2%positive) = Some (VRef Samples.o_plain) ∧
  toRaw 3 (st_heap st) (VRef Samples.o_plain) = Some (VRef Samples.o_plain) ∧
  isProxy 3 (st_heap st) (VRef Samples.o_plain) = Some false.
Proof.
  split; [reflexivity|].
  apply (toRaw_fixpoint 3 _ (VRef 2%positive)). reflexivity.
Defined.

Lemma reactive_readonly_frame_witness :
  wf Samples.st_plain ∧
  ∃ v st',
    reactive 3 Samples.st_plain (VRef Samples.o_plain) = Some (v, st') ∧
    wf st' ∧
    st_heap Samples.st_plain ⊆ st_heap st' ∧
    (∀ m, proxyMap_of Samples.st_plain m ⊆ proxyMap_of st' m) ∧
    (∀ l, st_heap Samples.st_plain !! l = None → is_Some (st_heap st' !! l) →
          v = VRef l ∧ ∃ t hd, st_heap st' !! l = Some (Proxy t hd)).
Proof.
  assert (wf Samples.st_plain) as Hwf by apply wf_alloc, wf_init.
  split; [exact Hwf|]. eexists _, _. split; [reflexivity|].
  apply (reactive_readonly_frame 3 Samples.st_plain (VRef Samples.o_plain));
    [exact Hwf|]. left. reflexivity.
Defined.

Lemma reactive_injective_witness :
  wf Samples.st_pair ∧
  accepted (st_heap Samples.st_pair) Samples.o_plain ∧
  accepted (st_heap Samples.st_pair) Samples.o_second ∧
  3 ≤ 3 ∧
  ∃ p q st1 st2,
    reactive 3 Samples.st_pair (VRef Samples.o_plain) = Some (VRef p, st1) ∧
    reactive 3 st1 (VRef Samples.o_second) = Some (VRef q, st2) ∧
    (p = q ↔ Samples.o_plain = Samples.o_second).
Proof.
  assert (wf Samples.st_pair) as Hwf by (do 2 apply wf_alloc; apply wf_init).
  assert (accepted (st_heap Samples.st_pair) Samples.o_plain) as Ha.
  { exists Samples.plainObject. split; [reflexivity|]. cbn. tauto. }
  assert (accepted (st_heap Samples.st_pair) Samples.o_second) as Hb.
  { exists Samples.plainObject. split; [reflexivity|]. cbn. tauto. }
  split; [exact Hwf|]. split; [exact Ha|]. split; [exact Hb|].
  split; [lia|].
  apply (reactive_injective 3 Samples.st_pair Samples.o_plain
           Samples.o_second Hwf Ha Hb). lia.
Defined.

End ReactiveFacts.

Module CollectionFacts.
Import Reactive CollectionHandlers ReactiveFacts.

Lemma toRaw_collection_proxy f (h : heap) c raw hd t :
  h !! c = Some (Proxy raw hd) →
  h !! raw = Some (Ordinary t) →
  truthy (o_raw t) = false →
  toRaw (S (S (S f))) h (VRef c) = Some (VRef raw).
Proof.
  intros Hc Hraw Hfalsy. rewrite (toRaw_proxy _ _ _ _ _ Hc).
  by apply (toRaw_ordinary _ _ _ t).
Qed.

Lemma unwrap_deep fuel h v sh ro rv :
  isShallow fuel h v = Some sh →
  isReadonly fuel h v = Some ro →
  toRaw fuel h v = Some rv →
  unwrap false fuel h v = Some (if sh || ro then v else rv).
Proof.
  intros Hsh Hro Hrv. unfold unwrap. rewrite Hsh, Hro, Hrv.
  by destruct sh, ro.
Qed.

Lemma slots_of_insert (h : heap) l t d :
  slots_of (<[l := Ordinary (with_data t d)]> h) l = Some d.
Proof. unfold slots_of. by rewrite lookup_insert_eq. Qed.

Lemma resolve_key_map fuel h es k rk :
  toRaw fuel h k = Some rk →
  resolve_key fuel h (MapData false es) k =
    Some (Some (if Native.entries_has es k then k else rk,
                Native.entries_has es k || Native.entries_has es rk)).
Proof.
  intros Hrk. unfold resolve_key. cbn [Native.has].
  destruct (Native.entries_has es k); cbn [negb orb]; [done|].
  by rewrite Hrk.
Qed.

(** C3.  [m.set(k, v)] on a reactive Map [m]: the value is unwrapped to
    its raw form unless it is a shallow or a readonly proxy, and written
    to the raw target under [k], or under [toRaw(k)] when [k] is absent;
    then [trigger] is called with ADD exactly when neither [k] nor
    [toRaw(k)] was present, with SET exactly when the key was present and
    the value written differs from the stored one by [Object.is], and not
    at all when the key was present with a SameValue-equal value.  The
    notified subscribers find the entry written. *)
Theorem map_set_triggers (fuel : nat) (st : state) (m raw : loc)
    (t : Target) (es : list (value * value)) (k v rk rv : value)
    (sh ro : bool) :
  3 ≤ fuel →
  c_heap st !! m = Some (Proxy raw mutableCollectionHandlers) →
  c_heap st !! raw = Some (Ordinary t) →
  truthy (o_raw t) = false →
  o_data t = MapData false es →
  isShallow fuel (c_heap st) v = Some sh →
  isReadonly fuel (c_heap st) v = Some ro →
  toRaw fuel (c_heap st) v = Some rv →
  toRaw fuel (c_heap st) k = Some rk →
  let val := if sh || ro then v else rv in
  let present := Native.entries_has es k || Native.entries_has es rk in
  let key := if Native.entries_has es k then k else rk in
  let oldValue := Native.entries_get es key in
  let d := MapData false (Native.entries_set es key val) in
  ∃ st' calls,
    invoke fuel st m K_set [k; v] = Some (Returned (VRef m), st') ∧
    c_heap st' = <[raw := Ordinary (with_data t d)]> (c_heap st) ∧
    c_triggers st' = (c_triggers st ++ calls)%list ∧
    calls =
      (if negb present then [mkTrigger raw ADD key val (Some d)]
       else if negb (Object_is val oldValue)
            then [mkTrigger raw SET key val (Some d)]
            else []) ∧
    ((∃ c, calls = [c] ∧ tr_type c = ADD) ↔ present = false) ∧
    ((∃ c, calls = [c] ∧ tr_type c = SET) ↔
       present = true ∧ Object_is val oldValue = false) ∧
    (present = true → Object_is val oldValue = true → calls = []).
Proof.
  intros Hfuel Hm Hraw Hfalsy Hdata Hsh Hro Hrv Hrk val present key oldValue d.
  destruct fuel as [|[|[|f]]]; [lia..|].
  unfold invoke. rewrite Hm.
  rewrite (underlying_ordinary _ _ _ _ Hraw). cbn [mbind option_bind].
  rewrite Hdata. cbn [key_in handler_is_readonly createInstrumentations].
  unfold set. cbn [arg nth].
  rewrite (unwrap_deep _ _ _ _ _ _ Hsh Hro Hrv).
  rewrite (toRaw_collection_proxy _ _ _ _ _ _ Hm Hraw Hfalsy).
  cbn [mbind option_bind receiver]. rewrite Hraw, Hdata.
  rewrite (resolve_key_map _ _ _ _ _ Hrk).
  cbn [mbind option_bind Native.get Native.set andb].
  fold val present key oldValue d.
  unfold Utils.hasChanged, trigger, store. cbn [c_heap c_triggers].
  rewrite slots_of_insert.
  destruct present eqn:Hp; cbn [negb].
  - destruct (Object_is val oldValue) eqn:Hsame; cbn [negb].
    + eexists _, []. split; [done|]. cbn [c_heap c_triggers].
      split; [done|]. split; [by rewrite app_nil_r|]. split; [done|].
      split; [split; [by intros (c & ? & _) | done]|].
      split; [split; [by intros (c & ? & _) | by intros [_ ?]]|done].
    + eexists _, [_]. split; [done|]. cbn [c_heap c_triggers].
      split; [done|]. split; [done|]. split; [done|].
      split; [split; [by intros (c & [= <-] & ?) | done]|].
      split; [|done]. split; [done|]. intros _. by eexists.
  - eexists _, [_]. split; [done|]. cbn [c_heap c_triggers].
    split; [done|]. split; [done|]. split; [done|].
    split; [split; [done|]; intros _; by eexists|].
    split; [|done]. split; [by intros (c & [= <-] & ?) | by intros [? _]].
Qed.

Lemma has_not_NoSlots d k :
  d ≠ NoSlots → Native.has d k = Some (has_key d k).
Proof. by destruct d. Qed.

Lemma resolve_key_slots fuel h d k rk :
  d ≠ NoSlots →
  toRaw fuel h k = Some rk →
  resolve_key fuel h d k =
    Some (Some (if has_key d k then k else rk,
                has_key d k || has_key d rk)).
Proof.
  intros Hd Hrk. unfold resolve_key.
  rewrite (has_not_NoSlots _ _ Hd).
  destruct (has_key d k); cbn [negb orb]; [done|].
  rewrite Hrk. cbn [mbind option_bind].
  by rewrite (has_not_NoSlots _ _ Hd).
Qed.

Lemma entries_has_delete es k :
  Native.entries_has (Native.entries_delete es k) k = false.
Proof.
  unfold Native.entries_has, Native.entries_delete.
  induction es as [|[k' v'] es IH]; [done|]. cbn [List.filter fst].
  destruct (sameValueZero k' k) eqn:E; cbn [negb]; [done|].
  cbn [existsb fst]. by rewrite E, IH.
Qed.

Lemma members_has_delete ms k :
  Native.members_has (Native.members_delete ms k) k = false.
Proof.
  unfold Native.members_has, Native.members_delete.
  induction ms as [|k' ms IH]; [done|]. cbn [List.filter].
  destruct (sameValueZero k' k) eqn:E; cbn [negb]; [done|].
  cbn [existsb]. by rewrite E, IH.
Qed.

(** After [target.delete(key)] the key is absent, and the result tells
    whether it was there. *)
Lemma native_delete_spec d k :
  d ≠ NoSlots →
  ∃ d', Native.delete d k = Some (has_key d k, d') ∧ has_key d' k = false.
Proof.
  intros Hd. destruct d as [|weak es|weak ms]; [done|..];
    eexists; (split; [done|]); unfold has_key; cbn [Native.has default].
  - rewrite entries_has_delete. by destruct weak; rewrite ?andb_false_r.
  - rewrite members_has_delete. by destruct weak; rewrite ?andb_false_r.
Qed.

(** C4.  On a reactive collection [c] with raw target [raw]:
    [c.delete(k)] calls [trigger] with DELETE exactly when [k] or
    [toRaw(k)] was present, and returns the result of the target's own
    [delete]; [c.clear()], on a Map or a Set, calls [trigger] with CLEAR
    exactly when the size was not zero.  In both the target is changed
    before [trigger] is called: the notified subscribers find the key
    gone, respectively the collection empty. *)
Theorem delete_clear_triggers (fuel : nat) (st : state) (c raw : loc)
    (t : Target) :
  3 ≤ fuel →
  c_heap st !! c = Some (Proxy raw mutableCollectionHandlers) →
  c_heap st !! raw = Some (Ordinary t) →
  truthy (o_raw t) = false →
  o_data t ≠ NoSlots →
  (∀ k rk,
     toRaw fuel (c_heap st) k = Some rk →
     let present := has_key (o_data t) k || has_key (o_data t) rk in
     let key := if has_key (o_data t) k then k else rk in
     ∃ result d calls st',
       Native.delete (o_data t) key = Some (result, d) ∧
       invoke fuel st c K_delete [k] = Some (Returned (VBool result), st') ∧
       c_heap st' = <[raw := Ordinary (with_data t d)]> (c_heap st) ∧
       c_triggers st' = (c_triggers st ++ calls)%list ∧
       calls =
         (if present
          then [mkTrigger raw DELETE key VUndefined (Some d)] else []) ∧
       has_key d key = false) ∧
  (∀ n,
     Native.size (o_data t) = Some n →
     ∃ d calls st',
       Native.clear (o_data t) = Some d ∧
       Native.size d = Some 0 ∧
       invoke fuel st c K_clear [] = Some (Returned VUndefined, st') ∧
       c_heap st' = <[raw := Ordinary (with_data t d)]> (c_heap st) ∧
       c_triggers st' = (c_triggers st ++ calls)%list ∧
       calls =
         (if bool_decide (n = 0) then []
          else [mkTrigger raw CLEAR VUndefined VUndefined (Some d)])).
Proof.
  intros Hfuel Hc Hraw Hfalsy Hdata.
  destruct fuel as [|[|[|f]]]; [lia..|].
  split.
  - intros k rk Hrk present key.
    destruct (native_delete_spec (o_data t) key Hdata) as (d & Hdel & Hgone).
    assert (has_key (o_data t) key = present) as Hres.
    { unfold key, present. destruct (has_key (o_data t) k) eqn:E; [|done].
      by rewrite E. }
    rewrite Hres in Hdel.
    exists present, d,
      (if present then [mkTrigger raw DELETE key VUndefined (Some d)]
       else []).
    eexists. split; [done|].
    split; [|split; [|split; [|done]]].
    + unfold invoke. rewrite Hc.
      rewrite (underlying_ordinary _ _ _ _ Hraw). cbn [mbind option_bind].
      assert (key_in (o_data t) K_delete = true) as ->
        by (by destruct (o_data t) as [|[] ?|[] ?]).
      cbn [handler_is_readonly createInstrumentations].
      unfold delete. cbn [arg nth].
      rewrite (toRaw_collection_proxy _ _ _ _ _ _ Hc Hraw Hfalsy).
      cbn [mbind option_bind receiver]. rewrite Hraw.
      rewrite (resolve_key_slots _ _ _ _ _ Hdata Hrk).
      cbn [mbind option_bind]. fold present key. rewrite Hdel.
      reflexivity.
    + by destruct present.
    + unfold trigger, store. destruct present; cbn [c_heap c_triggers].
      * by rewrite slots_of_insert.
      * by rewrite app_nil_r.
  - intros n Hn.
    assert (∃ d, Native.clear (o_data t) = Some d ∧ Native.size d = Some 0)
      as (d & Hclear & Hsize)
      by (destruct (o_data t) as [|[] ?|[] ?]; try done; by eexists).
    exists d,
      (if bool_decide (n = 0) then []
       else [mkTrigger raw CLEAR VUndefined VUndefined (Some d)]).
    eexists. split; [done|]. split; [done|].
    split; [|split; [|split; [|done]]].
    + unfold invoke. rewrite Hc.
      rewrite (underlying_ordinary _ _ _ _ Hraw). cbn [mbind option_bind].
      assert (key_in (o_data t) K_clear = true) as ->
        by (by destruct (o_data t) as [|[] ?|[] ?]).
      cbn [handler_is_readonly createInstrumentations].
      unfold clear.
      rewrite (toRaw_collection_proxy _ _ _ _ _ _ Hc Hraw Hfalsy).
      cbn [mbind option_bind receiver]. rewrite Hraw, Hclear, Hn.
      reflexivity.
    + by destruct (bool_decide _).
    + unfold trigger, store.
      assert (bool_decide (Some n = Some 0) = bool_decide (n = 0)) as ->.
      { apply bool_decide_ext. split; [by intros [= ->] | by intros ->]. }
      destruct (bool_decide (n = 0)); cbn [negb c_heap c_triggers].
      * by rewrite app_nil_r.
      * by rewrite slots_of_insert.
Qed.

(** C8.  Every write method of the readonly instrumentations returns its
    sentinel ([false] for delete, [undefined] for clear, [this] for add and
    set) and leaves heap and trigger log as they were; so does the call of
    such a method through a readonly collection proxy. *)
Theorem readonly_methods_inert (fuel : nat) (st : state) (p target : loc)
    (u : Target) (key : WriteKey) (args : list value) :
  c_heap st !! p = Some (Proxy target readonlyCollectionHandlers) →
  underlying fuel (c_heap st) target = Some u →
  key_in (o_data u) key = true →
  (∀ shallow this,
     createInstrumentations true shallow key fuel st this args =
       Some (Returned (sentinel key this), st)) ∧
  invoke fuel st p key args = Some (Returned (sentinel key (VRef p)), st).
Proof.
  intros Hp Hu Hin. split.
  - intros shallow this. by destruct key.
  - unfold invoke. rewrite Hp, Hu. cbn [mbind option_bind].
    rewrite Hin. by destruct key.
Qed.

Lemma map_set_triggers_witness :
  let st := Samples.st_collection mutableCollectionHandlers in
  ∃ st' calls,
    invoke 3 st 2%positive K_set [VStr "b"; VBool false] =
      Some (Returned (VRef 2%positive), st') ∧
    c_triggers st' = (c_triggers st ++ calls)%list ∧
    ∃ c, calls = [c] ∧ tr_type c = ADD.
Proof.
  intros st.
  destruct (map_set_triggers 3 st 2%positive 1%positive Samples.mapTarget
              [(VStr "a", VBool true)] (VStr "b") (VBool false)
              (VStr "b") (VBool false) false false)
    as (st' & calls & Hinv & _ & Hlog & _ & Hadd & _);
    [lia | reflexivity..|].
  exists st', calls. split; [exact Hinv|]. split; [exact Hlog|].
  apply Hadd. reflexivity.
Defined.

Lemma delete_clear_triggers_witness :
  let st := Samples.st_weakmap in
  ∃ st',
    invoke 3 st 2%positive K_delete [VSym 1%positive] =
      Some (Returned (VBool true), st') ∧
    (∃ d, c_triggers st' =
            [mkTrigger 1%positive DELETE (VSym 1%positive) VUndefined
               (Some d)] ∧
          has_key d (VSym 1%positive) = false).
Proof.
  intros st.
  destruct (delete_clear_triggers 3 st 2%positive 1%positive
              Samples.weakMapTarget) as [Hdel _];
    [lia | reflexivity | reflexivity | reflexivity | discriminate |].
  destruct (Hdel (VSym 1%positive) (VSym 1%positive) eq_refl)
    as (result & d & calls & st' & Hnat & Hinv & _ & Hlog & Hcalls & Hgone).
  cbn in Hnat. injection Hnat as <- <-.
  exists st'. split; [exact Hinv|].
  eexists. split; [|exact Hgone]. rewrite Hlog, Hcalls. reflexivity.
Defined.

Lemma readonly_methods_inert_witness :
  let st := Samples.st_collection readonlyCollectionHandlers in
  invoke 3 st 2%positive K_set [VStr "a"; VBool false] =
    Some (Returned (VRef 2%positive), st) ∧
  invoke 3 st 2%positive K_delete [VStr "a"] =
    Some (Returned (VBool false), st) ∧
  invoke 3 st 2%positive K_clear [] = Some (Returned VUndefined, st).
Proof.
  intros st.
  pose proof (fun key args Hin =>
                proj2 (readonly_methods_inert 3 st 2%positive 1%positive
                         Samples.mapTarget key args eq_refl eq_refl Hin))
    as H.
  split; [exact (H K_set _ eq_refl)|].
  split; [exact (H K_delete _ eq_refl) | exact (H K_clear _ eq_refl)].
Defined.

(** *** Further properties of the write methods *)


Lemma normZero_idemp v : normZero (normZero v) = normZero v.
Proof. by destruct v as [| | |[]| | | |]. Qed.

Lemma sameValueZero_normZero v : sameValueZero (normZero v) v = true.
Proof.
  unfold sameValueZero. apply bool_decide_eq_true_2. apply normZero_idemp.
Qed.

Lemma members_has_app ms1 ms2 k :
  Native.members_has (ms1 ++ ms2) k =
  Native.members_has ms1 k || Native.members_has ms2 k.
Proof. unfold Native.members_has. apply existsb_app. Qed.

Lemma members_has_add ms v :
  Native.members_has (Native.members_add ms v) v = true.
Proof.
  unfold Native.members_add.
  destruct (Native.members_has ms v) eqn:E; [done|].
  rewrite members_has_app, E. cbn. by rewrite sameValueZero_normZero.
Qed.







End CollectionFacts.

Module ReadFacts.
Import Reactive ReactiveInv CollectionHandlers CollectionReads.
Import ReactiveFacts CollectionFacts.

Lemma toRaw_mono f f' h x r :
  toRaw f h x = Some r → f ≤ f' → toRaw f' h x = Some r.
Proof.
  revert f' x. induction f as [|f IH]; intros f' x H Hle; [done|].
  destruct f' as [|f']; [lia|]. cbn [toRaw] in *.
  destruct (truthy x) eqn:Hx.
  - destruct (get_flag f h x RAW) as [raw|] eqn:Hraw; [|done].
    rewrite (get_flag_mono f f' _ _ _ _ Hraw) by lia.
    cbn [mbind option_bind] in *.
    destruct (truthy raw); [|done]. apply IH; [done | lia].
  - cbn [mbind option_bind] in *. rewrite Hx in *. done.
Qed.

Lemma strictEquals_normZero a b :
  Utils.strictEquals a b = true → normZero a = normZero b.
Proof.
  destruct a as [| | |[]| | | |], b as [| | |[]| | | |]; cbn; try done;
    try (by intros ->%bool_decide_eq_true).
Qed.

Lemma existsb_pointwise {A} (f g : A → bool) l :
  (∀ x, f x = g x) → existsb f l = existsb g l.
Proof.
  intros H. induction l as [|x l IH]; [done|]. cbn. by rewrite H, IH.
Qed.

Lemma has_key_normZero d a b :
  normZero a = normZero b → has_key d a = has_key d b.
Proof.
  intros Hn. unfold has_key.
  assert (Native.CanBeHeldWeakly a = Native.CanBeHeldWeakly b) as Hw.
  { destruct a as [| | |[]| | | |], b as [| | |[]| | | |]; try done.
    cbn in Hn. by injection Hn as <-. }
  assert (∀ x, sameValueZero x a = sameValueZero x b) as Hs.
  { intros x. unfold sameValueZero. by rewrite Hn. }
  destruct d as [|weak es|weak ms]; cbn [Native.has default]; [done|..].
  - assert (Native.entries_has es a = Native.entries_has es b) as ->.
    { unfold Native.entries_has. apply existsb_pointwise. intros e. apply Hs. }
    by rewrite Hw.
  - assert (Native.members_has ms a = Native.members_has ms b) as ->.
    { unfold Native.members_has. apply existsb_pointwise. intros e. apply Hs. }
    by rewrite Hw.
Qed.

Lemma read_key_in_has d : d ≠ NoSlots → read_key_in d K_has = true.
Proof. by destruct d as [|[] ?|[] ?]. Qed.

Lemma tracked_nil st : tracked st [] = st.
Proof. unfold tracked. rewrite app_nil_r. by destruct st. Qed.

Lemma tracked_app st a b : tracked (tracked st a) b = tracked st (a ++ b).
Proof. unfold tracked. cbn. by rewrite app_assoc. Qed.

(** The calls of [track] at the head of [get] and [has]. *)
Lemma track_pair st rawTarget k rk :
  track
    (if Utils.hasChanged k rk then track st rawTarget (Key k) else st)
    rawTarget (Key rk) = tracked st (key_tracks rawTarget k rk).
Proof.
  unfold key_tracks, tracked, track.
  destruct (Utils.hasChanged k rk); cbn; [by rewrite <- app_assoc | done].
Qed.

(** [has] through a proxy that wraps the collection itself. *)
Lemma has_direct depth f st p raw t hd k rk :
  heap_of st !! p = Some (Proxy raw hd) →
  hd = mutableCollectionHandlers ∨ hd = readonlyCollectionHandlers →
  heap_of st !! raw = Some (Ordinary t) →
  truthy (o_raw t) = false →
  o_data t ≠ NoSlots →
  toRaw (S (S f)) (heap_of st) k = Some rk →
  call_has (S (S depth)) (S (S f)) st (VRef p) k =
    Some (Done (has_key (o_data t) k || has_key (o_data t) rk)
            (if handler_is_readonly hd then st
             else tracked st (key_tracks (VRef raw) k rk))).
Proof.
  intros Hp Hhd Hraw Hfalsy Hd Hrk.
  assert (call_has (S (S depth)) (S (S f)) st (VRef p) k =
            has (handler_is_readonly hd) (call_has (S depth) (S (S f)))
              (S (S f)) st (VRef p) k) as ->.
  { cbn [call_has]. rewrite Hp.
    rewrite (underlying_ordinary _ _ _ _ Hraw). cbn [mbind option_bind].
    rewrite (read_key_in_has _ Hd). by destruct Hhd as [-> | ->]. }
  unfold has. cbn [get_flag].
  rewrite (Get_proxy _ _ _ _ _ _ Hp), handler_get_RAW.
  cbn [mbind option_bind].
  rewrite (toRaw_ordinary _ _ _ _ Hraw Hfalsy), Hrk.
  cbn [mbind option_bind].
  set (st1 := if negb (handler_is_readonly hd) then _ else st).
  assert (st1 = if handler_is_readonly hd then st
                else tracked st (key_tracks (VRef raw) k rk)) as Hst1.
  { unfold st1. destruct (handler_is_readonly hd); cbn [negb]; [done|].
    apply track_pair. }
  assert (heap_of st1 = heap_of st) as Hheap.
  { rewrite Hst1. by destruct (handler_is_readonly hd). }
  assert (∀ st2 x, heap_of st2 = heap_of st →
                   call_has (S depth) (S (S f)) st2 (VRef raw) x =
                     Some (Done (has_key (o_data t) x) st2)) as Hnative.
  { intros st2 x Heq. cbn [call_has]. rewrite Heq, Hraw.
    by rewrite (has_not_NoSlots _ _ Hd). }
  rewrite <- Hst1.
  destruct (Utils.strictEquals k rk) eqn:Heq.
  - rewrite (Hnative st1 k Hheap).
    rewrite <- (has_key_normZero (o_data t) k rk
                  (strictEquals_normZero _ _ Heq)).
    by rewrite orb_diag.
  - rewrite (Hnative st1 k Hheap). cbn [mbind option_bind].
    destruct (has_key (o_data t) k); [done|].
    by rewrite (Hnative st1 rk Hheap).
Qed.

(** [c.has(k)] through the proxies of a collection.  Through a reactive
    proxy and through a readonly proxy the answer is whether the raw
    collection has [k] or [toRaw(k)].  The reactive proxy tracks the raw
    key on the raw collection, and [k] itself too when it differs; the
    readonly proxy of the collection tracks nothing; the readonly proxy of
    the reactive proxy lets the reactive proxy track.  No call changes the
    heap or a cache. *)
Theorem has_through_proxies (depth fuel : nat) (st : state) (raw : loc)
    (t : Target) (k rk : value) :
  heap_of st !! raw = Some (Ordinary t) →
  truthy (o_raw t) = false →
  o_data t ≠ NoSlots →
  toRaw fuel (heap_of st) k = Some rk →
  3 ≤ depth → 3 ≤ fuel →
  let found := has_key (o_data t) k || has_key (o_data t) rk in
  (∀ p,
     heap_of st !! p = Some (Proxy raw mutableCollectionHandlers) →
     call_has depth fuel st (VRef p) k =
       Some (Done found (tracked st (key_tracks (VRef raw) k rk)))) ∧
  (∀ q,
     heap_of st !! q = Some (Proxy raw readonlyCollectionHandlers) →
     call_has depth fuel st (VRef q) k = Some (Done found st)) ∧
  (∀ p q,
     heap_of st !! p = Some (Proxy raw mutableCollectionHandlers) →
     heap_of st !! q = Some (Proxy p readonlyCollectionHandlers) →
     call_has depth fuel st (VRef q) k =
       Some (Done found
               (tracked st
                  (key_tracks (VRef raw) k rk ++
                   if Utils.strictEquals k rk || found then []
                   else [mkTrack (VRef raw) (Key rk)])))).
Proof.
  intros Hraw Hfalsy Hd Hrk Hdepth Hfuel found.
  destruct depth as [|[|[|depth]]]; [lia..|].
  destruct fuel as [|[|[|f]]]; [lia..|].
  split; [|split].
  - intros p Hp.
    by rewrite (has_direct _ _ st p raw t _ k rk Hp (or_introl eq_refl) Hraw
                  Hfalsy Hd Hrk).
  - intros q Hq.
    by rewrite (has_direct _ _ st q raw t _ k rk Hq (or_intror eq_refl) Hraw
                  Hfalsy Hd Hrk).
  - intros p q Hp Hq.
    assert (toRaw (S (S (S f))) (heap_of st) rk = Some rk) as Hrk2
      by apply (toRaw_fixpoint _ _ k rk Hrk).
    assert (call_has (S (S (S depth))) (S (S (S f))) st (VRef q) k =
              has true (call_has (S (S depth)) (S (S (S f)))) (S (S (S f)))
                st (VRef q) k) as ->.
    { cbn [call_has]. rewrite Hq.
      rewrite (underlying_proxy _ _ _ _ _ Hp),
        (underlying_ordinary _ _ _ _ Hraw).
      cbn [mbind option_bind]. by rewrite (read_key_in_has _ Hd). }
    unfold has. cbn [get_flag].
    rewrite (Get_proxy _ _ _ _ _ _ Hq), handler_get_RAW.
    cbn [mbind option_bind negb].
    rewrite (toRaw_collection_proxy _ _ _ _ _ _ Hp Hraw Hfalsy), Hrk.
    cbn [mbind option_bind].
    pose proof (has_direct depth (S f) st p raw t _ k rk Hp
                  (or_introl eq_refl) Hraw Hfalsy Hd Hrk) as Hinner.
    cbn [handler_is_readonly] in Hinner. rewrite Hinner. fold found.
    destruct (Utils.strictEquals k rk) eqn:Heq; cbn [orb].
    + by rewrite app_nil_r.
    + cbn [mbind option_bind]. destruct found eqn:Hfound.
      * by rewrite app_nil_r.
      * set (st1 := tracked st (key_tracks (VRef raw) k rk)).
        rewrite (has_direct depth (S f) st1 p raw t _ rk rk Hp
                   (or_introl eq_refl) Hraw Hfalsy Hd Hrk2).
        cbn [handler_is_readonly]. unfold st1. rewrite tracked_app.
        unfold found in Hfound. apply orb_false_elim in Hfound as [_ ->].
        cbn [orb]. unfold key_tracks at 2. unfold Utils.hasChanged.
        unfold Object_is. rewrite bool_decide_eq_true_2 by done. done.
Qed.

Lemma read_key_in_get weak es : read_key_in (MapData weak es) K_get = true.
Proof. by destruct weak. Qed.

Lemma has_key_Map weak es k :
  Native.has (MapData weak es) k = Some (has_key (MapData weak es) k).
Proof. done. Qed.

(** What [get] hands to [wrap]: the entry under the key. *)
Lemma native_get_Map weak es k :
  Native.get (MapData weak es) k =
    Some (default VUndefined (Native.get (MapData weak es) k)).
Proof. done. Qed.

(** [get] through a proxy that wraps the Map itself. *)
Lemma get_direct depth f st p raw t hd weak es k rk :
  heap_of st !! p = Some (Proxy raw hd) →
  hd = mutableCollectionHandlers ∨ hd = readonlyCollectionHandlers →
  heap_of st !! raw = Some (Ordinary t) →
  truthy (o_raw t) = false →
  o_data t = MapData weak es →
  toRaw (S (S f)) (heap_of st) k = Some rk →
  let d := o_data t in
  let ro := handler_is_readonly hd in
  let st1 :=
    if ro then st else tracked st (key_tracks (VRef raw) k rk) in
  call_get (S (S depth)) (S (S f)) st (VRef p) k =
    if has_key d k
    then wrap ro false (S (S f)) st1 (default VUndefined (Native.get d k))
    else if has_key d rk
    then wrap ro false (S (S f)) st1 (default VUndefined (Native.get d rk))
    else Some (Done VUndefined st1).
Proof.
  intros Hp Hhd Hraw Hfalsy Hd Hrk d ro st1.
  assert (call_get (S (S depth)) (S (S f)) st (VRef p) k =
            get ro false (call_get (S depth) (S (S f))) (S (S f)) st
              (VRef p) k) as ->.
  { cbn [call_get]. rewrite Hp.
    rewrite (underlying_ordinary _ _ _ _ Hraw). cbn [mbind option_bind].
    rewrite Hd, read_key_in_get. by destruct Hhd as [-> | ->]. }
  unfold get. cbn [get_flag].
  rewrite (Get_proxy _ _ _ _ _ _ Hp), handler_get_RAW.
  cbn [mbind option_bind].
  rewrite (toRaw_ordinary _ _ _ _ Hraw Hfalsy), Hrk.
  cbn [mbind option_bind].
  set (st2 := if negb ro then _ else st).
  assert (st2 = st1) as ->.
  { unfold st2, st1. destruct ro; cbn [negb]; [done|]. apply track_pair. }
  assert (heap_of st1 = heap_of st) as Hheap
    by (unfold st1; by destruct ro).
  cbn [receiver]. rewrite Hheap, Hraw. fold d. 
  assert (∀ x, call_get (S depth) (S (S f)) st1 (VRef raw) x =
               Some (Done (default VUndefined (Native.get d x)) st1))
    as Hnative.
  { intros x. cbn [call_get]. rewrite Hheap, Hraw. fold d. unfold d.
    by rewrite Hd. }
  unfold d at 1 2. rewrite Hd, !has_key_Map. rewrite <- Hd. fold d.
  destruct (has_key d k).
  { rewrite Hnative. done. }
  destruct (has_key d rk).
  { rewrite Hnative. done. }
  assert (Utils.strictEquals (VRef raw) (VRef raw) = true) as ->
    by (cbn; by rewrite bool_decide_eq_true_2).
  done.
Qed.

(** [m.get(k)] through the proxies of a Map.  The entry is looked up under
    [k] and, when [k] is absent, under [toRaw(k)]; what is found is
    converted on the way out: by [toReactive] through a reactive proxy, by
    [toReadonly] through a readonly proxy, and by both, one after the
    other, through the readonly proxy of the reactive proxy, whose [get]
    also does the tracking.  Without an entry the result is [undefined]
    and no proxy is made. *)
Theorem get_through_proxies (depth fuel : nat) (st : state) (raw : loc)
    (t : Target) (weak : bool) (es : list (value * value)) (k rk : value) :
  heap_of st !! raw = Some (Ordinary t) →
  truthy (o_raw t) = false →
  o_data t = MapData weak es →
  toRaw fuel (heap_of st) k = Some rk →
  3 ≤ depth → 3 ≤ fuel →
  let d := o_data t in
  let entry x := default VUndefined (Native.get d x) in
  let again (r : result value) :=
    match r with
    | Done v st1 => wrap true false fuel st1 v
    | Threw st1 => Some (Threw st1)
    end in
  (∀ p,
     heap_of st !! p = Some (Proxy raw mutableCollectionHandlers) →
     let st1 := tracked st (key_tracks (VRef raw) k rk) in
     call_get depth fuel st (VRef p) k =
       if has_key d k then wrap false false fuel st1 (entry k)
       else if has_key d rk then wrap false false fuel st1 (entry rk)
       else Some (Done VUndefined st1)) ∧
  (∀ q,
     heap_of st !! q = Some (Proxy raw readonlyCollectionHandlers) →
     call_get depth fuel st (VRef q) k =
       if has_key d k then wrap true false fuel st (entry k)
       else if has_key d rk then wrap true false fuel st (entry rk)
       else Some (Done VUndefined st)) ∧
  (∀ p q,
     heap_of st !! p = Some (Proxy raw mutableCollectionHandlers) →
     heap_of st !! q = Some (Proxy p readonlyCollectionHandlers) →
     call_get depth fuel st (VRef q) k =
       if has_key d k then
         wrap false false fuel (tracked st (key_tracks (VRef raw) k rk))
           (entry k) ≫= again
       else if has_key d rk then
         wrap false false fuel (tracked st [mkTrack (VRef raw) (Key rk)])
           (entry rk) ≫= again
       else
         Some (Done VUndefined
                 (tracked st (key_tracks (VRef raw) k rk)))).
Proof.
  intros Hraw Hfalsy Hd Hrk Hdepth Hfuel d entry again.
  destruct depth as [|[|[|depth]]]; [lia..|].
  destruct fuel as [|[|[|f]]]; [lia..|].
  split; [|split].
  - intros p Hp st1.
    by rewrite (get_direct _ _ st p raw t _ weak es k rk Hp
                  (or_introl eq_refl) Hraw Hfalsy Hd Hrk).
  - intros q Hq.
    by rewrite (get_direct _ _ st q raw t _ weak es k rk Hq
                  (or_intror eq_refl) Hraw Hfalsy Hd Hrk).
  - intros p q Hp Hq.
    assert (toRaw (S (S (S f))) (heap_of st) rk = Some rk) as Hrk2
      by apply (toRaw_fixpoint _ _ k rk Hrk).
    assert (call_get (S (S (S depth))) (S (S (S f))) st (VRef q) k =
              get true false (call_get (S (S depth)) (S (S (S f))))
                (S (S (S f))) st (VRef q) k) as ->.
    { cbn [call_get]. rewrite Hq.
      rewrite (underlying_proxy _ _ _ _ _ Hp),
        (underlying_ordinary _ _ _ _ Hraw).
      cbn [mbind option_bind]. by rewrite Hd, read_key_in_get. }
    unfold get. cbn [get_flag].
    rewrite (Get_proxy _ _ _ _ _ _ Hq), handler_get_RAW.
    cbn [mbind option_bind negb].
    rewrite (toRaw_collection_proxy _ _ _ _ _ _ Hp Hraw Hfalsy), Hrk.
    cbn [mbind option_bind receiver]. rewrite Hraw.
    rewrite Hd, !has_key_Map. rewrite <- Hd. fold d.
    pose proof (get_direct depth (S f) st p raw t _ weak es k rk Hp
                  (or_introl eq_refl) Hraw Hfalsy Hd Hrk) as Hinner.
    pose proof (get_direct depth (S f) st p raw t _ weak es rk rk Hp
                  (or_introl eq_refl) Hraw Hfalsy Hd Hrk2) as Hinner2.
    cbn zeta in Hinner, Hinner2. cbn [handler_is_readonly] in Hinner, Hinner2.
    fold d in Hinner, Hinner2.
    destruct (has_key d k) eqn:Hk.
    { rewrite Hinner. fold (entry k).
      destruct (wrap false false _ _ (entry k)) as [[v st1|st1]|]; done. }
    destruct (has_key d rk) eqn:Hkr.
    { rewrite Hinner2. fold (entry rk).
      assert (key_tracks (VRef raw) rk rk = [mkTrack (VRef raw) (Key rk)])
        as ->.
      { unfold key_tracks, Utils.hasChanged, Object_is.
        by rewrite bool_decide_eq_true_2. }
      destruct (wrap false false _ _ (entry rk)) as [[v st1|st1]|]; done. }
    assert (Utils.strictEquals (VRef p) (VRef raw) = false) as ->.
    { cbn. apply bool_decide_eq_false_2. intros [= ->]. congruence. }
    cbn [negb]. rewrite Hinner. done.
Qed.

Lemma read_key_in_size d :
  read_key_in d K_size = bool_decide (is_Some (Native.size d)).
Proof.
  destruct d as [|[] ?|[] ?]; cbn; try done;
    symmetry; (apply bool_decide_eq_true_2; by eexists)
    || (apply bool_decide_eq_false_2; by intros [? ?]).
Qed.

(** [size] through a proxy that wraps the collection itself. *)
Lemma size_direct depth f st p raw t hd :
  heap_of st !! p = Some (Proxy raw hd) →
  hd = mutableCollectionHandlers ∨ hd = readonlyCollectionHandlers →
  heap_of st !! raw = Some (Ordinary t) →
  truthy (o_raw t) = false →
  read_size (S (S depth)) (S (S f)) st (VRef p) =
    Some (Done (Native.size (o_data t))
            (if read_key_in (o_data t) K_size
                && negb (handler_is_readonly hd)
             then tracked st [mkTrack (VRef raw) ITERATE_KEY] else st)).
Proof.
  intros Hp Hhd Hraw Hfalsy.
  assert (read_size (S (S depth)) (S (S f)) st (VRef p) =
          if read_key_in (o_data t) K_size
          then size (handler_is_readonly hd)
                 (read_size (S depth) (S (S f))) (S (S f)) st (VRef p)
          else Some (Done None st)) as ->.
  { cbn [read_size]. rewrite Hp.
    rewrite (underlying_ordinary _ _ _ _ Hraw). by destruct Hhd as [-> | ->]. }
  destruct (read_key_in (o_data t) K_size) eqn:Hin; cbn [andb].
  - unfold size. cbn [get_flag].
    rewrite (Get_proxy _ _ _ _ _ _ Hp), handler_get_RAW.
    cbn [mbind option_bind].
    destruct (handler_is_readonly hd); cbn [negb mbind option_bind].
    + cbn [read_size]. by rewrite Hraw.
    + rewrite (toRaw_ordinary _ _ _ _ Hraw Hfalsy). cbn [mbind option_bind].
      cbn [read_size]. change (heap_of (track st _ _)) with (heap_of st).
      by rewrite Hraw.
  - rewrite read_key_in_size in Hin. apply bool_decide_eq_false in Hin.
    destruct (Native.size (o_data t)); [|done]. destruct Hin. by eexists.
Qed.

(** [c.size] through the proxies of a collection is the number of entries
    of the raw Map or Set, and [undefined] for the weak collections, which
    have no such property.  The reactive proxy tracks the iteration key on
    the raw collection, directly and when it is read through its readonly
    proxy; the readonly proxy of the collection tracks nothing. *)
Theorem size_through_proxies (depth fuel : nat) (st : state) (raw : loc)
    (t : Target) :
  heap_of st !! raw = Some (Ordinary t) →
  truthy (o_raw t) = false →
  3 ≤ depth → 3 ≤ fuel →
  let d := o_data t in
  let st1 :=
    if read_key_in d K_size
    then tracked st [mkTrack (VRef raw) ITERATE_KEY] else st in
  (∀ p,
     heap_of st !! p = Some (Proxy raw mutableCollectionHandlers) →
     read_size depth fuel st (VRef p) = Some (Done (Native.size d) st1)) ∧
  (∀ q,
     heap_of st !! q = Some (Proxy raw readonlyCollectionHandlers) →
     read_size depth fuel st (VRef q) = Some (Done (Native.size d) st)) ∧
  (∀ p q,
     heap_of st !! p = Some (Proxy raw mutableCollectionHandlers) →
     heap_of st !! q = Some (Proxy p readonlyCollectionHandlers) →
     read_size depth fuel st (VRef q) = Some (Done (Native.size d) st1)) ∧
  (Native.size d = if read_key_in d K_size
                   then Some (match d with
                              | MapData _ es => length es
                              | SetData _ ms => length ms
                              | NoSlots => 0
                              end)
                   else None).
Proof.
  intros Hraw Hfalsy Hdepth Hfuel d st1.
  destruct depth as [|[|[|depth]]]; [lia..|].
  destruct fuel as [|[|[|f]]]; [lia..|].
  split; [|split; [|split]].
  - intros p Hp.
    rewrite (size_direct _ _ st p raw t _ Hp (or_introl eq_refl) Hraw Hfalsy).
    cbn [handler_is_readonly negb]. by rewrite andb_true_r.
  - intros q Hq.
    rewrite (size_direct _ _ st q raw t _ Hq (or_intror eq_refl) Hraw Hfalsy).
    cbn [handler_is_readonly negb]. by rewrite andb_false_r.
  - intros p q Hp Hq.
    assert (read_size (S (S (S depth))) (S (S (S f))) st (VRef q) =
            if read_key_in d K_size
            then size true (read_size (S (S depth)) (S (S (S f))))
                   (S (S (S f))) st (VRef q)
            else Some (Done None st)) as ->.
    { cbn [read_size]. rewrite Hq.
      rewrite (underlying_proxy _ _ _ _ _ Hp),
        (underlying_ordinary _ _ _ _ Hraw). done. }
    unfold st1.
    destruct (read_key_in d K_size) eqn:Hin.
    + unfold size. cbn [get_flag handler_is_readonly negb].
      rewrite (Get_proxy _ _ _ _ _ _ Hq), handler_get_RAW.
      cbn [mbind option_bind].
      rewrite (size_direct depth (S f) st p raw t _ Hp (or_introl eq_refl)
                 Hraw Hfalsy).
      fold d. rewrite Hin. done.
    + rewrite read_key_in_size in Hin. apply bool_decide_eq_false in Hin.
      destruct (Native.size d); [|done]. destruct Hin. by eexists.
  - by destruct d as [|[] ?|[] ?].
Qed.

(** *** Writing, then reading *)














Lemma has_through_proxies_witness :
  let st := Samples.st_weak_reads in
  let a := mkTrack (VRef 2%positive) (Key (VSym 1%positive)) in
  call_has 3 3 st (VRef 3%positive) (VSym 1%positive) =
    Some (Done true (tracked st [a])) ∧
  call_has 3 3 st (VRef 4%positive) (VSym 1%positive) =
    Some (Done true (tracked st [a])) ∧
  call_has 3 3 st (VRef 4%positive) (VSym 2%positive) =
    Some (Done false
            (tracked st [mkTrack (VRef 2%positive) (Key (VSym 2%positive))])).
Proof.
  intros st a.
  destruct (has_through_proxies 3 3 st 2%positive Samples.weakMapOfObject
              (VSym 1%positive) (VSym 1%positive)) as (Hp & _ & Hn);
    [reflexivity | reflexivity | discriminate | reflexivity | lia | lia |].
  destruct (has_through_proxies 3 3 st 2%positive Samples.weakMapOfObject
              (VSym 2%positive) (VSym 2%positive)) as (_ & _ & Hn');
    [reflexivity | reflexivity | discriminate | reflexivity | lia | lia |].
  split; [exact (Hp 3%positive eq_refl)|].
  split; [exact (Hn 3%positive 4%positive eq_refl eq_refl)|].
  exact (Hn' 3%positive 4%positive eq_refl eq_refl).
Defined.

Lemma get_through_proxies_witness :
  let st := Samples.st_weak_reads in
  ∃ st1 st2,
    call_get 3 3 st (VRef 3%positive) (VSym 1%positive) =
      Some (Done (VRef 5%positive) st1) ∧
    heap_of st1 !! 5%positive =
      Some (Proxy 1%positive mutableHandlers) ∧
    call_get 3 3 st1 (VRef 4%positive) (VSym 1%positive) =
      Some (Done (VRef 6%positive) st2) ∧
    heap_of st2 !! 6%positive =
      Some (Proxy 5%positive readonlyHandlers) ∧
    call_get 3 3 st (VRef 3%positive) (VSym 2%positive) =
      Some (Done VUndefined
              (tracked st [mkTrack (VRef 2%positive) (Key (VSym 2%positive))])).
Proof.
  intros st.
  destruct (get_through_proxies 3 3 st 2%positive Samples.weakMapOfObject true
              [(VSym 1%positive, VRef 1%positive)] (VSym 1%positive)
              (VSym 1%positive))
    as (Hp & _ & _);
    [reflexivity | reflexivity | reflexivity | reflexivity | lia | lia |].
  destruct (get_through_proxies 3 3 st 2%positive Samples.weakMapOfObject true
              [(VSym 1%positive, VRef 1%positive)] (VSym 2%positive)
              (VSym 2%positive))
    as (Hp' & _ & _);
    [reflexivity | reflexivity | reflexivity | reflexivity | lia | lia |].
  pose proof (Hp 3%positive eq_refl) as H1. cbn zeta in H1.
  pose proof (Hp' 3%positive eq_refl) as H3. cbn zeta in H3.
  eexists _, _. split; [rewrite H1; reflexivity|].
  split; [reflexivity|].
  split.
  - match goal with |- call_get _ _ ?s _ _ = _ => set (st1 := s) end.
    destruct (get_through_proxies 3 3 st1 2%positive Samples.weakMapOfObject
                true [(VSym 1%positive, VRef 1%positive)]
                (VSym 1%positive) (VSym 1%positive))
      as (_ & _ & Hn);
      [reflexivity | reflexivity | reflexivity | reflexivity | lia | lia |].
    rewrite (Hn 3%positive 4%positive eq_refl eq_refl). reflexivity.
  - split; [reflexivity|]. rewrite H3. reflexivity.
Defined.

Lemma size_through_proxies_witness :
  let st := Samples.st_reads in
  let it := mkTrack (VRef 2%positive) ITERATE_KEY in
  read_size 3 3 st (VRef 3%positive) = Some (Done (Some 1) (tracked st [it])) ∧
  read_size 3 3 st (VRef 4%positive) = Some (Done (Some 1) (tracked st [it])).
Proof.
  intros st it.
  destruct (size_through_proxies 3 3 st 2%positive Samples.mapOfObject)
    as (Hp & _ & Hn & _); [reflexivity | reflexivity | lia | lia |].
  split; [exact (Hp 3%positive eq_refl)|].
  exact (Hn 3%positive 4%positive eq_refl eq_refl).
Defined.



End ReadFacts.

Module ScopeFacts.
Import EffectScope ScopeInv.

(** C6.  For a scope [s] and a closure [fn]: when [s] is active, [fn] runs
    in the state in which [activeEffectScope] is [s]; [run] returns what
    [fn] returns and throws what [fn] throws, and in both cases
    [activeEffectScope] is afterwards what it was before the call.  When
    [s] is inactive, [run] returns [undefined], [fn] is not called and the
    state is unchanged. *)
Theorem run_spec {T : Type} (s : loc) (sc : EffectScope)
    (fn : state -> outcome T) (st : state) :
  heap st !! s = Some sc →
  (_active sc = true →
     activeEffectScope (set_activeEffectScope st (Some s)) = Some s ∧
     match fn (set_activeEffectScope st (Some s)) with
     | Ret r st1 =>
         ∃ st', run s fn st = Ret (Some r) st' ∧
                activeEffectScope st' = activeEffectScope st ∧
                heap st' = heap st1 ∧ log st' = log st1
     | Throw e st1 =>
         ∃ st', run s fn st = Throw e st' ∧
                activeEffectScope st' = activeEffectScope st ∧
                heap st' = heap st1 ∧ log st' = log st1
     | OutOfFuel => run s fn st = OutOfFuel
     end) ∧
  (_active sc = false → run s fn st = Ret None st).
Proof.
  intros Hs. unfold run. rewrite Hs. split.
  - intros ->. split; [done|].
    destruct (fn _) as [r st1|e st1|]; [| |done]; by eexists.
  - by intros ->.
Qed.

(** *** Bookkeeping *)

Lemma update_lookup st x sc f :
  heap st !! x = Some sc →
  update st x f = set_heap st (<[x := f sc]> (heap st)).
Proof. intros H. unfold update. by rewrite H. Qed.

Lemma update_insert h a lg x sc f :
  update (mkState (<[x := sc]> h) a lg) x f = mkState (<[x := f sc]> h) a lg.
Proof.
  unfold update, set_heap. cbn [heap activeEffectScope log].
  by rewrite lookup_insert_eq, insert_insert_eq.
Qed.

Lemma events_of_app y a b :
  events_of y (a ++ b) = events_of y a ++ events_of y b.
Proof. unfold events_of. apply List.filter_app. Qed.

Lemma events_of_own y sc : events_of y (own_events y sc) = own_events y sc.
Proof.
  unfold events_of, own_events. rewrite List.filter_app. f_equal.
  - induction (effects sc) as [|e l IH]; [done|]. cbn.
    rewrite bool_decide_eq_true_2 by done. by rewrite IH.
  - induction (cleanups sc) as [|e l IH]; [done|]. cbn.
    rewrite bool_decide_eq_true_2 by done. by rewrite IH.
Qed.

Lemma events_of_other y x sc : y ≠ x → events_of y (own_events x sc) = [].
Proof.
  intros Hne. unfold events_of, own_events. rewrite List.filter_app.
  assert (∀ (g : positive → event) (l : list positive),
            (∀ e, owner (g e) = x) →
            List.filter (fun e => bool_decide (owner e = y)) (map g l) = [])
    as Hnil.
  { intros g l Hg. induction l as [|e l IH]; [done|]. cbn.
    rewrite bool_decide_eq_false_2 by (rewrite Hg; congruence). done. }
  by rewrite !Hnil.
Qed.

Section Quiet.

(** The callbacks are quiet: [stopE], the [stop] of an effect, and [runC],
    the call of a cleanup, return and leave the scopes alone. *)
Variables stopE runC : callback.
Hypothesis stopE_quiet : ∀ e st, stopE e st = Ret tt st.
Hypothesis runC_quiet : ∀ c st, runC c st = Ret tt st.

(** A loop over the effects or the cleanups, when the callee is quiet. *)
Lemma stop_calls_quiet (arr : EffectScope → list positive)
    (ev : loc → positive → event) (call : callback) x :
  (∀ e st, call e st = Ret tt st) →
  ∀ n i st sc,
    heap st !! x = Some sc → i + n ≤ length (arr sc) →
    stop_calls arr ev call x i n st =
      Ret tt (emit st (map (ev x) (take n (drop i (arr sc))))).
Proof.
  intros Hcall. induction n as [|n IH]; intros i st sc Hx Hlen.
  - cbn [stop_calls take map]. unfold emit. rewrite app_nil_r.
    by destruct st.
  - cbn [stop_calls]. rewrite Hx.
    destruct (lookup_lt_is_Some_2 (arr sc) i) as [e He]; [lia|].
    rewrite He, Hcall. cbn [obind].
    rewrite (IH (S i) _ sc) by (done || lia).
    rewrite (drop_S _ _ _ He). cbn [take map].
    unfold emit. cbn [heap activeEffectScope log].
    by rewrite <- app_assoc.
Qed.

Lemma begin_stop_lookup x sc st :
  heap (begin_stop x sc st) !! x =
    Some (with_cleanups [] (with_effects [] (with_active false sc))).
Proof. unfold begin_stop. cbn [heap]. apply lookup_insert_eq. Qed.

(** The first half of [stop]: flag, effects and cleanups. *)
Lemma stop_begin f x fp st sc :
  heap st !! x = Some sc → _active sc = true →
  stop stopE runC (S f) x fp st =
    obind
      (match scopes sc with
       | Some l =>
           obind
             (stop_scopes (fun c => stop stopE runC f c true) x 0 (length l)
                (begin_stop x sc st))
             (fun _ st1 => truncate_scopes x st1)
       | None => Ret tt (begin_stop x sc st)
       end)
      (fun _ st2 =>
         obind (field x (fun sc => (detached sc, parent sc)) st2)
           (fun dp st2 =>
              obind
                (if negb (fst dp) && bool_decide (is_Some (snd dp))
                    && negb fp
                 then unlink x st2 else Ret tt st2)
                (fun _ st3 => Ret tt (update st3 x (with_parent None))))).
Proof.
  intros Hx Hact. cbn [stop]. rewrite Hx, Hact.
  rewrite (update_lookup st x sc) by done.
  rewrite (stop_calls_quiet effects EffectStopped stopE x stopE_quiet _ 0 _
             (with_active false sc));
    [|apply lookup_insert_eq | done].
  cbn [obind drop with_active effects]. rewrite firstn_all.
  unfold emit at 1, set_heap. cbn [heap activeEffectScope log].
  rewrite update_insert. unfold field at 1, set_heap.
  cbn [heap activeEffectScope log]. rewrite lookup_insert_eq.
  cbn [obind with_effects cleanups with_active].
  rewrite (stop_calls_quiet cleanups CleanupRun runC x runC_quiet _ 0 _
             (with_effects [] (with_active false sc)));
    [|apply lookup_insert_eq | done].
  cbn [obind drop with_effects with_active cleanups]. rewrite firstn_all.
  unfold emit, set_heap. cbn [heap activeEffectScope log].
  rewrite update_insert.
  match goal with
  | |- obind (field x scopes ?s) _ = _ =>
      assert (s = begin_stop x sc st) as ->
  end.
  { unfold begin_stop, own_events. by rewrite !drop_0, <- app_assoc. }
  unfold field at 1. rewrite begin_stop_lookup.
  cbn [obind with_cleanups with_effects with_active scopes]. reflexivity.
Qed.

(** *** The cascade relation *)

Lemma cascade_refl st : cascade st [] st.
Proof.
  split; try done.
  - intros y sc Hy Hact. by left.
  - intros y sc c Hy Hact (sc' & Hy' & Hin). congruence.
  - by rewrite app_nil_r.
Qed.

Lemma cascade_trans st n1 st1 n2 st2 :
  cascade st n1 st1 → cascade st1 n2 st2 → cascade st (n1 ++ n2) st2.
Proof.
  intros C1 C2. split.
  - intros y Hy. by apply (cs_dom _ _ _ C2), (cs_dom _ _ _ C1).
  - intros y sc Hy Hin.
    apply (cs_inactive _ _ _ C2); [by apply (cs_inactive _ _ _ C1) | done].
  - intros y sc Hy Hact. rewrite events_of_app.
    destruct (cs_active _ _ _ C1 y sc Hy Hact) as [[H1 E1]|[H1 E1]].
    + destruct (cs_active _ _ _ C2 y sc H1 Hact) as [[H2 E2]|[H2 E2]].
      * left. by rewrite E1, E2.
      * right. by rewrite E1, E2.
    + right. split; [by apply (cs_inactive _ _ _ C2)|].
      rewrite E1, (cs_quiet _ _ _ C2 y); [by rewrite app_nil_r|].
      intros sc' Hsc'. rewrite H1 in Hsc'. by injection Hsc' as <-.
  - intros y Hy. rewrite events_of_app.
    rewrite (cs_quiet _ _ _ C1 y Hy), (cs_quiet _ _ _ C2 y); [done|].
    intros sc1 H1. destruct (heap st !! y) as [sc|] eqn:E.
    + pose proof (Hy sc eq_refl) as Hin.
      rewrite (cs_inactive _ _ _ C1 y sc E Hin) in H1. by injection H1 as <-.
    + by rewrite (cs_dom _ _ _ C1 y E) in H1.
  - intros y sc c Hy Hact Hin Hc.
    destruct (cs_active _ _ _ C1 y sc Hy Hact) as [[H1 _]|[H1 _]].
    + by apply (cs_children _ _ _ C2 y sc).
    + assert (is_inactive st1 c) as (csc & Hcsc & Hcin).
      { apply (cs_children _ _ _ C1 y sc); [done..| |done].
        by exists (stopped sc). }
      exists csc. split; [|done]. by apply (cs_inactive _ _ _ C2).
  - by rewrite (cs_log _ _ _ C2), (cs_log _ _ _ C1), app_assoc.
  - by rewrite (cs_activeEffectScope _ _ _ C2), (cs_activeEffectScope _ _ _ C1).
Qed.

(** A record of [st'] is the record of [st] or its stopped form. *)
Lemma cascade_lookup st new st' y sc' :
  cascade st new st' → heap st' !! y = Some sc' →
  ∃ sc, heap st !! y = Some sc ∧ (sc' = sc ∨ sc' = stopped sc).
Proof.
  intros C H'. destruct (heap st !! y) as [sc|] eqn:E.
  - exists sc. split; [done|]. destruct (_active sc) eqn:Hact.
    + destruct (cs_active _ _ _ C y sc E Hact) as [[H1 _]|[H1 _]];
        rewrite H1 in H'; injection H' as <-; auto.
    + rewrite (cs_inactive _ _ _ C y sc E Hact) in H'.
      injection H' as <-. auto.
  - by rewrite (cs_dom _ _ _ C y E) in H'.
Qed.

Lemma cascade_is_Some st new st' y :
  cascade st new st' → is_Some (heap st !! y) → is_Some (heap st' !! y).
Proof.
  intros C [sc Hy]. destruct (_active sc) eqn:Hact.
  - destruct (cs_active _ _ _ C y sc Hy Hact) as [[H1 _]|[H1 _]];
      by eexists.
  - rewrite (cs_inactive _ _ _ C y sc Hy Hact). by eexists.
Qed.

Lemma child_of_stopped sc c : ¬ child_of (stopped sc) c.
Proof.
  unfold child_of, stopped. cbn. destruct (scopes sc); cbn;
    apply not_elem_of_nil.
Qed.

Lemma cascade_closed st new st' :
  cascade st new st' → closed st → closed st'.
Proof.
  intros C Hcl p sc' l i c Hp Hl Hi.
  destruct (cascade_lookup _ _ _ _ _ C Hp) as (sc & Hsc & [->| ->]).
  - destruct (Hcl p sc l i c Hsc Hl Hi) as (cl & -> & Hsome).
    exists cl. split; [done|]. by eapply cascade_is_Some.
  - unfold stopped in Hl. cbn in Hl. destruct (scopes sc); [|done].
    injection Hl as <-. by rewrite lookup_nil in Hi.
Qed.

Lemma cascade_ranked rank st new st' :
  cascade st new st' → ranked rank st → ranked rank st'.
Proof.
  intros C Hr p sc' c Hp Hc.
  destruct (cascade_lookup _ _ _ _ _ C Hp) as (sc & Hsc & [->| ->]).
  - by apply (Hr p sc).
  - by apply child_of_stopped in Hc.
Qed.

Lemma cascade_nactive st new st' :
  cascade st new st' → nactive st' ≤ nactive st.
Proof.
  intros C. unfold nactive. apply map_subseteq_size.
  apply map_subseteq_spec. intros y sc'.
  rewrite !map_lookup_filter_Some. cbn. intros [H' Hact].
  destruct (cascade_lookup _ _ _ _ _ C H') as (sc & Hsc & [->| ->]);
    [done|]. by cbn in Hact.
Qed.

Lemma nactive_begin_stop x sc st :
  heap st !! x = Some sc → _active sc = true →
  nactive (begin_stop x sc st) < nactive st.
Proof.
  intros Hx Hact. unfold nactive, begin_stop. cbn [heap].
  rewrite map_filter_insert_False by (cbn; congruence).
  rewrite map_filter_delete. apply map_subset_size, delete_subset.
  exists sc. by apply map_lookup_filter_Some.
Qed.

(** *** The loop over the child scopes *)

Lemma stop_scopes_ok rank f x l sc_a :
  stop_ok stopE runC rank f →
  _active sc_a = false → scopes sc_a = Some l →
  ∀ n i st1,
    i + n = length l →
    heap st1 !! x = Some sc_a →
    closed st1 → ranked rank st1 → nactive st1 < f →
    ∃ st2 new,
      stop_scopes (fun c => stop stopE runC f c true) x i n st1 = Ret tt st2 ∧
      cascade st1 new st2 ∧
      (∀ j c, i ≤ j → l !! j = Some (Some c) → is_inactive st2 c) ∧
      (∀ y, rank y ≤ rank x → heap st2 !! y = heap st1 !! y).
Proof.
  intros IH Hin Hl. induction n as [|n IHn]; intros i st1 Hlen Hx Hcl Hr Hn.
  - exists st1, []. split; [done|]. split; [apply cascade_refl|].
    split; [|done]. intros j c Hj Hc.
    apply lookup_lt_Some in Hc. lia.
  - cbn [stop_scopes]. rewrite Hx, Hl.
    destruct (lookup_lt_is_Some_2 l i) as [co Hco]; [lia|].
    destruct (Hcl x sc_a l i co Hx Hl Hco) as (c & -> & Hc).
    rewrite Hco.
    destruct (IH c st1 Hcl Hr Hc Hn) as (st1' & n1 & Hstop & C1 & Hcin & Hfr1).
    rewrite Hstop. cbn [obind].
    assert (rank x < rank c) as Hrank.
    { apply (Hr x sc_a c Hx). unfold child_of. rewrite Hl. cbn.
      by apply list_elem_of_lookup_2 with i. }
    destruct (IHn (S i) st1') as (st2 & n2 & Hloop & C2 & Hkids & Hfr2).
    + lia.
    + by apply (cs_inactive _ _ _ C1).
    + by eapply cascade_closed.
    + by eapply cascade_ranked.
    + pose proof (cascade_nactive _ _ _ C1). lia.
    + exists st2, (n1 ++ n2). split; [done|].
      split; [by eapply cascade_trans|]. split.
      * intros j c' Hj Hc'. destruct (decide (j = i)) as [->|Hne].
        -- rewrite Hco in Hc'. injection Hc' as <-.
           destruct Hcin as (csc & Hcsc & Hcact). exists csc.
           split; [|done]. by apply (cs_inactive _ _ _ C2).
        -- apply (Hkids j); [lia | done].
      * intros y Hy. rewrite Hfr2 by done. apply Hfr1; [|lia].
        intros ->. lia.
Qed.

(** *** One scope *)

Lemma begin_stop_lookup_ne x sc st y :
  y ≠ x → heap (begin_stop x sc st) !! y = heap st !! y.
Proof. intros. unfold begin_stop. cbn [heap]. by apply lookup_insert_ne. Qed.

Lemma begin_stop_closed x sc st :
  heap st !! x = Some sc → closed st → closed (begin_stop x sc st).
Proof.
  intros Hx Hcl p psc l i c Hp Hl Hi.
  assert (∃ psc0, heap st !! p = Some psc0 ∧ scopes psc0 = Some l)
    as (psc0 & Hp0 & Hl0).
  { destruct (decide (p = x)) as [->|Hne].
    - rewrite begin_stop_lookup in Hp. injection Hp as <-. by exists sc.
    - rewrite begin_stop_lookup_ne in Hp by done. by exists psc. }
  destruct (Hcl p psc0 l i c Hp0 Hl0 Hi) as (cl & -> & Hsome).
  exists cl. split; [done|].
  destruct (decide (cl = x)) as [->|Hne].
  - rewrite begin_stop_lookup. by eexists.
  - by rewrite begin_stop_lookup_ne.
Qed.

Lemma begin_stop_ranked rank x sc st :
  heap st !! x = Some sc → ranked rank st → ranked rank (begin_stop x sc st).
Proof.
  intros Hx Hr p psc c Hp Hc.
  destruct (decide (p = x)) as [->|Hne].
  - rewrite begin_stop_lookup in Hp. injection Hp as <-.
    by apply (Hr x sc).
  - rewrite begin_stop_lookup_ne in Hp by done. by apply (Hr p psc).
Qed.

(** The state in which the recursion leaves a scope that it stopped. *)
Lemma finish_cascade x sc st n st_b :
  heap st !! x = Some sc → _active sc = true →
  cascade (begin_stop x sc st) n st_b →
  (∀ c, child_of sc c → is_inactive st_b c) →
  cascade st (own_events x sc ++ n)
    (set_heap st_b (<[x := stopped sc]> (heap st_b))).
Proof.
  intros Hx Hact C Hkids.
  assert (∀ c, is_inactive st_b c →
               is_inactive (set_heap st_b (<[x := stopped sc]> (heap st_b))) c)
    as Hkeep.
  { intros c (csc & Hc & Hcin). unfold is_inactive. cbn [heap set_heap].
    destruct (decide (c = x)) as [->|Hne].
    - exists (stopped sc). by rewrite lookup_insert_eq.
    - exists csc. by rewrite lookup_insert_ne. }
  split; cbn [heap set_heap activeEffectScope log].
  - intros y Hy. assert (y ≠ x) as Hne by congruence.
    rewrite lookup_insert_ne by done. apply (cs_dom _ _ _ C).
    by rewrite begin_stop_lookup_ne.
  - intros y sc0 Hy Hin. assert (y ≠ x) as Hne by congruence.
    rewrite lookup_insert_ne by done. apply (cs_inactive _ _ _ C); [|done].
    by rewrite begin_stop_lookup_ne.
  - intros y sc0 Hy Hact0. rewrite events_of_app.
    destruct (decide (y = x)) as [->|Hne].
    + right. rewrite Hx in Hy. injection Hy as <-.
      split; [apply lookup_insert_eq|].
      rewrite events_of_own, (cs_quiet _ _ _ C x); [by rewrite app_nil_r|].
      intros sc1. rewrite begin_stop_lookup. by intros [= <-].
    + rewrite lookup_insert_ne, events_of_other by done. cbn [app].
      apply (cs_active _ _ _ C); [|done]. by rewrite begin_stop_lookup_ne.
  - intros y Hy. rewrite events_of_app.
    assert (y ≠ x) as Hne by (intros ->; specialize (Hy sc Hx); congruence).
    rewrite events_of_other by done. cbn [app].
    apply (cs_quiet _ _ _ C). intros sc1.
    rewrite begin_stop_lookup_ne by done. apply Hy.
  - intros y sc0 c Hy Hact0 Hyin Hc. apply Hkeep.
    destruct (decide (y = x)) as [->|Hne].
    + rewrite Hx in Hy. injection Hy as <-. by apply Hkids.
    + apply (cs_children _ _ _ C y sc0); [|done| |done].
      * by rewrite begin_stop_lookup_ne.
      * destruct Hyin as (ysc & Hysc & Hyact).
        cbn [heap set_heap] in Hysc. rewrite lookup_insert_ne in Hysc by done.
        by exists ysc.
  - rewrite (cs_log _ _ _ C). unfold begin_stop. cbn [log].
    by rewrite app_assoc.
  - by rewrite (cs_activeEffectScope _ _ _ C).
Qed.

Lemma finish_state x sc st_b :
  heap st_b !! x =
    Some (with_cleanups [] (with_effects [] (with_active false sc))) →
  update
    (match scopes sc with
     | Some _ => update st_b x (with_scopes (Some []))
     | None => st_b
     end) x (with_parent None) =
  set_heap st_b (<[x := stopped sc]> (heap st_b)).
Proof.
  intros Hx. destruct (scopes sc) as [l|] eqn:Hl.
  - rewrite (update_lookup st_b x _ _ Hx). unfold set_heap.
    rewrite update_insert. do 2 f_equal.
    unfold stopped, with_parent, with_scopes, with_cleanups, with_effects,
      with_active. cbn. by rewrite Hl.
  - rewrite (update_lookup st_b x _ _ Hx). unfold set_heap. do 2 f_equal.
    unfold stopped, with_parent, with_scopes, with_cleanups, with_effects,
      with_active. cbn. by rewrite Hl.
Qed.

(** The children loop of an active scope [x], from [begin_stop] on. *)
Lemma children_ok rank f x sc st :
  stop_ok stopE runC rank f →
  heap st !! x = Some sc → _active sc = true →
  closed st → ranked rank st → nactive st < S f →
  ∃ st_b new,
    match scopes sc with
    | Some l =>
        stop_scopes (fun c => stop stopE runC f c true) x 0 (length l)
          (begin_stop x sc st)
    | None => Ret tt (begin_stop x sc st)
    end = Ret tt st_b ∧
    cascade (begin_stop x sc st) new st_b ∧
    (∀ c, child_of sc c → is_inactive st_b c) ∧
    (∀ y, rank y ≤ rank x → heap st_b !! y = heap (begin_stop x sc st) !! y).
Proof.
  intros IH Hx Hact Hcl Hr Hn.
  pose proof (nactive_begin_stop x sc st Hx Hact) as Hlt.
  destruct (scopes sc) as [l|] eqn:Hl.
  - destruct (stop_scopes_ok rank f x l
                (with_cleanups [] (with_effects [] (with_active false sc)))
                IH eq_refl Hl (length l) 0 (begin_stop x sc st))
      as (st_b & new & Hloop & C & Hkids & Hfr).
    + done.
    + apply begin_stop_lookup.
    + by apply begin_stop_closed.
    + by apply begin_stop_ranked.
    + lia.
    + exists st_b, new. split; [done|]. split; [done|]. split; [|done].
      intros c Hc. unfold child_of in Hc. rewrite Hl in Hc. cbn in Hc.
      apply list_elem_of_lookup in Hc as [j Hj].
      apply (Hkids j c); [lia | done].
  - exists (begin_stop x sc st), []. split; [done|].
    split; [apply cascade_refl|]. split; [|done].
    intros c Hc. unfold child_of in Hc. rewrite Hl in Hc.
    by apply elem_of_nil in Hc.
Qed.

(** [stop] of an active scope, when its children are stopped by a
    recursion that is known to return. *)
Lemma stop_unfold rank f x fp st sc :
  stop_ok stopE runC rank f →
  heap st !! x = Some sc → _active sc = true →
  closed st → ranked rank st → nactive st < S f →
  stop stopE runC (S f) x fp st =
    obind
      (match scopes sc with
       | Some l =>
           obind
             (stop_scopes (fun c => stop stopE runC f c true) x 0 (length l)
                (begin_stop x sc st))
             (fun _ st1 => Ret tt (update st1 x (with_scopes (Some []))))
       | None => Ret tt (begin_stop x sc st)
       end)
      (fun _ st2 =>
         obind
           (if negb (detached sc) && bool_decide (is_Some (parent sc))
               && negb fp
            then unlink x st2 else Ret tt st2)
           (fun _ st3 => Ret tt (update st3 x (with_parent None)))).
Proof.
  intros IH Hx Hact Hcl Hr Hn. rewrite (stop_begin _ _ _ _ _ Hx Hact).
  destruct (children_ok rank f x sc st IH Hx Hact Hcl Hr Hn)
    as (st_b & new & Hloop & Cs & _ & _).
  assert (heap st_b !! x =
            Some (with_cleanups [] (with_effects [] (with_active false sc))))
    as Hxb.
  { apply (cs_inactive _ _ _ Cs); [apply begin_stop_lookup | done]. }
  destruct (scopes sc) as [l|] eqn:Hl.
  - rewrite Hloop. cbn [obind]. unfold truncate_scopes. rewrite Hxb.
    cbn [scopes with_cleanups with_effects with_active]. rewrite Hl.
    cbn [obind]. unfold field.
    rewrite (update_lookup st_b x _ _ Hxb). cbn [heap set_heap].
    rewrite lookup_insert_eq. reflexivity.
  - injection Hloop as <-. cbn [obind]. unfold field.
    rewrite begin_stop_lookup. reflexivity.
Qed.

(** The recursion of [stop] returns with fuel beyond the number of active
    scopes, and cascades. *)
Lemma stop_true_ok rank f : stop_ok stopE runC rank f.
Proof.
  induction f as [|f IH]; intros x st Hcl Hr [sc Hx] Hn; [lia|].
  destruct (_active sc) eqn:Hact.
  - rewrite (stop_unfold rank _ _ _ _ _ IH Hx Hact Hcl Hr Hn).
    destruct (children_ok rank f x sc st IH Hx Hact Hcl Hr Hn)
      as (st_b & new & Hloop & C & Hkids & Hfr).
    assert (heap st_b !! x =
              Some (with_cleanups [] (with_effects [] (with_active false sc))))
      as Hxb.
    { apply (cs_inactive _ _ _ C); [apply begin_stop_lookup | done]. }
    exists (set_heap st_b (<[x := stopped sc]> (heap st_b))),
      (own_events x sc ++ new).
    split.
    { rewrite <- (finish_state x sc st_b Hxb).
      rewrite andb_false_r.
      destruct (scopes sc) as [l|]; [rewrite Hloop | injection Hloop as <-];
        reflexivity. }
    split; [by apply finish_cascade|]. split.
    { exists (stopped sc). cbn [heap set_heap].
      by rewrite lookup_insert_eq. }
    intros y Hne Hy. cbn [heap set_heap].
    rewrite lookup_insert_ne by done.
    rewrite Hfr by done. by apply begin_stop_lookup_ne.
  - exists st, []. split; [cbn [stop]; by rewrite Hx, Hact|].
    split; [apply cascade_refl|]. split; [by exists sc | done].
Qed.

(** *** The dereference from the parent *)

Lemma unlink_spec s st scc p psc l :
  heap st !! s = Some scc → parent scc = Some p →
  heap st !! p = Some psc → scopes psc = Some l →
  p ≠ s →
  ∃ st',
    unlink s st = Ret tt st' ∧
    log st' = log st ∧
    activeEffectScope st' = activeEffectScope st ∧
    heap st' !! s = Some scc ∧
    (∀ y ysc, heap st !! y = Some ysc →
              ∃ ysc', heap st' !! y = Some ysc' ∧
                      _active ysc' = _active ysc) ∧
    (last l ≠ Some (Some p) →
     heap st' !! p =
       Some (with_scopes (Some (swap_pop s l (index scc))) psc)) ∧
    (∀ y, y ≠ p → (last l ≠ Some (Some y) ∨ y = s) →
          heap st' !! y = heap st !! y) ∧
    (∀ y ysc, last l = Some (Some y) → y ≠ s → y ≠ p →
              heap st !! y = Some ysc →
              heap st' !! y = Some (with_index (index scc) ysc)).
Proof.
  intros Hs Hpar Hp Hl Hne.
  unfold unlink. rewrite Hs, Hpar, Hp, Hl.
  rewrite (update_lookup st p psc _ Hp). unfold swap_pop, set_heap.
  assert (∀ (X : list (option loc)) a lg,
            mkState (<[p := with_scopes (Some X)
                               (with_scopes (Some (removelast l)) psc)]>
                       (heap st)) a lg =
            mkState (<[p := with_scopes (Some X) psc]> (heap st)) a lg)
    as Hover by done.
  destruct (last l) as [[lastScope|]|] eqn:Hlast.
  - case_bool_decide as Hls.
    + set (X := match index scc with
                | Some i => array_set (removelast l) i lastScope
                | None => removelast l
                end).
      assert (match index scc with
              | Some i =>
                  update
                    (mkState
                       (<[p := with_scopes (Some (removelast l)) psc]>
                          (heap st)) (activeEffectScope st) (log st))
                    p (with_scopes
                         (Some (array_set (removelast l) i lastScope)))
              | None =>
                  mkState
                    (<[p := with_scopes (Some (removelast l)) psc]>
                       (heap st)) (activeEffectScope st) (log st)
              end =
              mkState (<[p := with_scopes (Some X) psc]> (heap st))
                (activeEffectScope st) (log st)) as ->.
      { unfold X. destruct (index scc); [|done].
        by rewrite update_insert, Hover. }
      set (st2 := mkState (<[p := with_scopes (Some X) psc]> (heap st))
                    (activeEffectScope st) (log st)).
      destruct (heap st2 !! lastScope) as [lsc|] eqn:Hlsc.
      * rewrite (update_lookup st2 lastScope lsc _ Hlsc).
        eexists. split; [done|]. unfold set_heap. subst st2.
        cbn [heap log activeEffectScope] in *.
        split; [done|]. split; [done|]. split.
        { rewrite lookup_insert_ne by done.
          by rewrite lookup_insert_ne. }
        split.
        { intros y ysc Hy. destruct (decide (y = lastScope)) as [->|Hn1].
          - rewrite lookup_insert_eq. eexists. split; [done|].
            cbn in Hlsc. destruct (decide (lastScope = p)) as [->|Hn2].
            + rewrite lookup_insert_eq in Hlsc. injection Hlsc as <-.
              rewrite Hp in Hy. by injection Hy as <-.
            + rewrite lookup_insert_ne in Hlsc by done.
              rewrite Hy in Hlsc. by injection Hlsc as <-.
          - rewrite lookup_insert_ne by done.
            destruct (decide (y = p)) as [->|Hn2].
            + rewrite lookup_insert_eq. eexists. split; [done|].
              rewrite Hp in Hy. by injection Hy as <-.
            + rewrite lookup_insert_ne by done. by exists ysc. }
        split.
        { intros Hnp. rewrite lookup_insert_ne by congruence.
          by rewrite lookup_insert_eq. }
        split.
        { intros y Hyp [Hy| ->].
          - rewrite lookup_insert_ne by congruence.
            by rewrite lookup_insert_ne.
          - rewrite lookup_insert_ne by done.
            by rewrite lookup_insert_ne. }
        intros y ysc [= ->] Hys Hyp Hy.
        rewrite lookup_insert_eq. cbn in Hlsc.
        rewrite lookup_insert_ne in Hlsc by done.
        rewrite Hy in Hlsc. by injection Hlsc as <-.
      * unfold update. rewrite Hlsc.
        eexists. split; [done|]. subst st2.
        cbn [heap log activeEffectScope] in *.
        split; [done|]. split; [done|]. split.
        { by rewrite lookup_insert_ne. }
        split.
        { intros y ysc Hy. destruct (decide (y = p)) as [->|Hn2].
          - rewrite lookup_insert_eq. eexists. split; [done|].
            rewrite Hp in Hy. by injection Hy as <-.
          - rewrite lookup_insert_ne by done. by exists ysc. }
        split; [intros _; by rewrite lookup_insert_eq|].
        split; [intros y Hyp _; by rewrite lookup_insert_ne|].
        intros y ysc [= ->] Hys Hyp Hy. cbn in Hlsc.
        rewrite lookup_insert_ne in Hlsc by done. congruence.
    + assert (lastScope = s) as -> by (by destruct (decide (lastScope = s))).
      eexists. split; [done|]. cbn [heap log activeEffectScope].
      split; [done|]. split; [done|]. split.
      { by rewrite lookup_insert_ne. }
      split.
      { intros y ysc Hy. destruct (decide (y = p)) as [->|Hn2].
        - rewrite lookup_insert_eq. eexists. split; [done|].
          rewrite Hp in Hy. by injection Hy as <-.
        - rewrite lookup_insert_ne by done. by exists ysc. }
      split; [intros _; by rewrite lookup_insert_eq|].
      split; [intros y Hyp _; by rewrite lookup_insert_ne|].
      by intros y ysc [= ->] Hys.
  - eexists. split; [done|]. cbn [heap log activeEffectScope].
    split; [done|]. split; [done|]. split.
    { by rewrite lookup_insert_ne. }
    split.
    { intros y ysc Hy. destruct (decide (y = p)) as [->|Hn2].
      - rewrite lookup_insert_eq. eexists. split; [done|].
        rewrite Hp in Hy. by injection Hy as <-.
      - rewrite lookup_insert_ne by done. by exists ysc. }
    split; [intros _; by rewrite lookup_insert_eq|].
    split; [intros y Hyp _; by rewrite lookup_insert_ne|].
    by intros y ysc [=].
  - eexists. split; [done|]. cbn [heap log activeEffectScope].
    split; [done|]. split; [done|]. split.
    { by rewrite lookup_insert_ne. }
    split.
    { intros y ysc Hy. destruct (decide (y = p)) as [->|Hn2].
      - rewrite lookup_insert_eq. eexists. split; [done|].
        rewrite Hp in Hy. by injection Hy as <-.
      - rewrite lookup_insert_ne by done. by exists ysc. }
    split; [intros _; by rewrite lookup_insert_eq|].
    split; [intros y Hyp _; by rewrite lookup_insert_ne|].
    by intros y ysc [=].
Qed.

(** *** Where the stopped scopes come from *)

Lemma origin_refl root st : origin root st st.
Proof. intros y sc Hy Hact (sc' & Hy' & Hin). congruence. Qed.

Lemma origin_mono (R1 R2 : loc → Prop) st st' :
  (∀ y, R1 y → R2 y) → origin R1 st st' → origin R2 st st'.
Proof.
  intros HR Ho y sc Hy Hact Hin.
  destruct (Ho y sc Hy Hact Hin) as [H|H]; [left; by apply HR | by right].
Qed.

Lemma origin_trans (R1 R2 : loc → Prop) st n1 st1 n2 st2 :
  cascade st n1 st1 → cascade st1 n2 st2 →
  origin R1 st st1 → origin R2 st1 st2 →
  origin (fun y => R1 y ∨ R2 y) st st2.
Proof.
  intros C1 C2 O1 O2 y sc Hy Hact Hin.
  destruct (cs_active _ _ _ C1 y sc Hy Hact) as [[H1 _]|[H1 _]].
  - destruct (O2 y sc H1 Hact Hin) as [HR|(z & zsc & Hz & Hzact & Hzin & Hc)].
    + left. by right.
    + right. exists z, zsc. split; [|done].
      destruct (cascade_lookup _ _ _ _ _ C1 Hz) as (zsc0 & Hz0 & [->| ->]);
        [done | by cbn in Hzact].
  - destruct (O1 y sc Hy Hact) as [HR|(z & zsc & Hz & Hzact & Hzin & Hc)].
    + by exists (stopped sc).
    + left. by left.
    + right. exists z, zsc. split; [done|]. split; [done|]. split; [|done].
      destruct Hzin as (zsc1 & Hz1 & Hzin1). exists zsc1.
      split; [|done]. by apply (cs_inactive _ _ _ C2).
Qed.

Lemma stop_scopes_origin rank f x l sc_a :
  stop_origin stopE runC rank f →
  _active sc_a = false → scopes sc_a = Some l →
  ∀ n i st1 st2,
    i + n = length l →
    heap st1 !! x = Some sc_a →
    closed st1 → ranked rank st1 → nactive st1 < f →
    stop_scopes (fun c => stop stopE runC f c true) x i n st1 = Ret tt st2 →
    origin (fun y => Some y ∈ l) st1 st2.
Proof.
  intros IH Hin Hl. induction n as [|n IHn];
    intros i st1 st2 Hlen Hx Hcl Hr Hn Hloop.
  - injection Hloop as <-. apply origin_refl.
  - cbn [stop_scopes] in Hloop. rewrite Hx, Hl in Hloop.
    destruct (lookup_lt_is_Some_2 l i) as [co Hco]; [lia|].
    destruct (Hcl x sc_a l i co Hx Hl Hco) as (c & -> & Hc).
    rewrite Hco in Hloop.
    destruct (stop_true_ok rank f c st1 Hcl Hr Hc Hn)
      as (st1' & n1 & Hstop & C1 & Hcin & Hfr1).
    rewrite Hstop in Hloop. cbn [obind] in Hloop.
    assert (heap st1' !! x = Some sc_a) as Hx'
      by (by apply (cs_inactive _ _ _ C1)).
    assert (closed st1') as Hcl' by (by eapply cascade_closed).
    assert (ranked rank st1') as Hr' by (by eapply cascade_ranked).
    assert (nactive st1' < f) as Hn'
      by (pose proof (cascade_nactive _ _ _ C1); lia).
    destruct (stop_scopes_ok rank f x l sc_a (stop_true_ok rank f) Hin Hl n
                (S i) st1') as (st2' & n2 & Hloop' & C2 & _);
      [lia | done..|].
    rewrite Hloop in Hloop'. injection Hloop' as <-.
    eapply origin_mono;
      [|eapply (origin_trans (eq c) (fun y => Some y ∈ l)); try done].
    + intros y [<-|Hy]; [by apply list_elem_of_lookup_2 with i | done].
    + by apply IH.
    + apply (IHn (S i)); [lia | done..].
Qed.

Lemma stop_true_origin rank f : stop_origin stopE runC rank f.
Proof.
  induction f as [|f IH]; intros x st st' Hcl Hr [sc Hx] Hn Hstop; [lia|].
  destruct (_active sc) eqn:Hact.
  - rewrite (stop_unfold rank _ _ _ _ _ (stop_true_ok rank f) Hx Hact Hcl Hr
               Hn) in Hstop.
    destruct (children_ok rank f x sc st (stop_true_ok rank f) Hx Hact Hcl Hr
                Hn) as (st_b & new & Hloop & C & Hkids & Hfr).
    assert (heap st_b !! x =
              Some (with_cleanups [] (with_effects [] (with_active false sc))))
      as Hxb.
    { apply (cs_inactive _ _ _ C); [apply begin_stop_lookup | done]. }
    assert (origin (fun y => child_of sc y) (begin_stop x sc st) st_b) as Ob.
    { unfold child_of. destruct (scopes sc) as [l|] eqn:Hl.
      - apply (stop_scopes_origin rank f x l
                 (with_cleanups [] (with_effects [] (with_active false sc)))
                 IH eq_refl Hl (length l) 0); try done.
        + apply begin_stop_lookup.
        + by apply begin_stop_closed.
        + by apply begin_stop_ranked.
        + pose proof (nactive_begin_stop x sc st Hx Hact). lia.
      - injection Hloop as <-. apply origin_refl. }
    assert (st' = set_heap st_b (<[x := stopped sc]> (heap st_b))) as ->.
    { rewrite <- (finish_state x sc st_b Hxb).
      rewrite andb_false_r in Hstop.
      destruct (scopes sc) as [l|];
        [rewrite Hloop in Hstop | injection Hloop as <-];
        cbn [obind] in Hstop; by injection Hstop as <-. }
    intros y ysc Hy Hyact Hyin.
    destruct (decide (y = x)) as [->|Hne]; [by left|]. right.
    assert (is_inactive st_b y) as Hyb.
    { destruct Hyin as (y' & Hy' & Hyin'). cbn [heap set_heap] in Hy'.
      rewrite lookup_insert_ne in Hy' by done. by exists y'. }
    assert (∀ z, is_inactive st_b z →
              is_inactive (set_heap st_b (<[x := stopped sc]> (heap st_b))) z)
      as Hkeep.
    { intros z (zsc & Hz & Hzin). unfold is_inactive. cbn [heap set_heap].
      destruct (decide (z = x)) as [->|Hzx].
      - exists (stopped sc). by rewrite lookup_insert_eq.
      - exists zsc. by rewrite lookup_insert_ne. }
    destruct (Ob y ysc) as [Hroot|(z & zsc & Hz & Hzact & Hzin & Hc)];
      [by rewrite begin_stop_lookup_ne | done | done | |].
    + exists x, sc. split; [done|]. split; [done|]. split; [|done].
      exists (stopped sc). cbn [heap set_heap]. by rewrite lookup_insert_eq.
    + assert (z ≠ x) as Hzx.
      { intros ->. rewrite begin_stop_lookup in Hz. by injection Hz as <-. }
      rewrite begin_stop_lookup_ne in Hz by done.
      exists z, zsc. split; [done|]. split; [done|]. split; [|done].
      by apply Hkeep.
  - cbn [stop] in Hstop. rewrite Hx, Hact in Hstop. injection Hstop as <-.
    apply origin_refl.
Qed.

(** *** The constructor keeps the tree well formed *)

Lemma fresh_scope_None (st : state) : heap st !! fresh (dom (heap st)) = None.
Proof. apply not_elem_of_dom. apply is_fresh. Qed.

Lemma rank_new_old rank st y :
  is_Some (heap st !! y) → rank_new rank st y = rank y.
Proof.
  intros [sc Hy]. unfold rank_new. rewrite bool_decide_eq_false_2; [done|].
  intros ->. by rewrite fresh_scope_None in Hy.
Qed.

Lemma wf_child_lookup rank st p sc c :
  wf rank st → heap st !! p = Some sc → child_of sc c →
  ∃ l i csc, scopes sc = Some l ∧ l !! i = Some (Some c) ∧
             heap st !! c = Some csc ∧ parent csc = Some p ∧
             index csc = Some i ∧ detached csc = false.
Proof.
  intros Hwf Hp Hc. unfold child_of in Hc.
  destruct (scopes sc) as [l|] eqn:Hl; [|by apply elem_of_nil in Hc].
  cbn in Hc. apply list_elem_of_lookup in Hc as [i Hi].
  destruct (wf_children _ _ Hwf p sc l i _ Hp Hl Hi)
    as (cl & csc & [= <-] & Hcsc & Hpar & Hidx & Hdet).
  by exists l, i, csc.
Qed.

Lemma new_EffectScope_wf rank det st :
  wf rank st →
  (∀ a, activeEffectScope st = Some a → is_Some (heap st !! a)) →
  wf (rank_new rank st) (snd (new_EffectScope det st)).
Proof.
  intros Hwf Haes.
  set (this := fresh (dom (heap st))).
  assert (heap st !! this = None) as Hfresh by apply fresh_scope_None.
  assert (∀ y, is_Some (heap st !! y) → y ≠ this) as Hold.
  { intros y [sc Hy] ->. congruence. }
  (* the two shapes of the new heap *)
  assert (∀ sc0,
            parent sc0 = activeEffectScope st → scopes sc0 = None →
            _active sc0 = true →
            (det = false → activeEffectScope st = None) →
            detached sc0 = det →
            wf (rank_new rank st)
              (set_heap st (<[this := sc0]> (heap st)))) as Hplain.
  { intros sc0 Hpar Hsc Hact Hnone Hdet. split.
    - intros p sc l i c Hp Hl Hi. cbn [heap set_heap] in Hp.
      apply lookup_insert_Some in Hp as [[<- <-]|[Hne Hp]]; [congruence|].
      destruct (wf_children _ _ Hwf p sc l i c Hp Hl Hi)
        as (cl & csc & -> & Hc & Hrest).
      exists cl, csc. split; [done|]. split; [|done]. cbn [heap set_heap].
      rewrite lookup_insert_ne; [done|]. apply not_eq_sym, Hold. by eexists.
    - intros c csc p Hc Hp Hd. cbn [heap set_heap] in Hc.
      apply lookup_insert_Some in Hc as [[<- <-]|[Hne Hc]].
      + rewrite Hdet in Hd. rewrite Hpar, (Hnone Hd) in Hp. done.
      + destruct (wf_parent _ _ Hwf c csc p Hc Hp Hd)
          as (psc & l & i & Hpsc & Hrest).
        exists psc, l, i. split; [|done]. cbn [heap set_heap].
        rewrite lookup_insert_ne; [done|]. apply not_eq_sym, Hold.
        by eexists.
    - intros y sc Hy Hin. cbn [heap set_heap] in Hy.
      apply lookup_insert_Some in Hy as [[<- <-]|[Hne Hy]]; [congruence|].
      by apply (wf_inactive _ _ Hwf y sc).
    - intros p sc c Hp Hc. cbn [heap set_heap] in Hp.
      apply lookup_insert_Some in Hp as [[<- <-]|[Hne Hp]].
      + unfold child_of in Hc. rewrite Hsc in Hc. by apply elem_of_nil in Hc.
      + destruct (wf_child_lookup rank st p sc c Hwf Hp Hc)
          as (l & i & csc & _ & _ & Hcsc & _).
        rewrite !rank_new_old by (by eexists).
        by apply (wf_ranked _ _ Hwf p sc). }
  unfold new_EffectScope. fold this.
  destruct (activeEffectScope st) as [a|] eqn:Ha;
    [|apply Hplain; try done; by rewrite Ha].
  destruct det; cbn [negb];
    [apply Hplain; try done; by rewrite Ha|].
  destruct (Haes a eq_refl) as [asc Hasc]. rewrite Hasc. cbn [snd].
  assert (a ≠ this) as Hathis by (apply Hold; by eexists).
  set (l := default [] (scopes asc)).
  assert (∀ i c, l !! i = Some c →
            ∃ cl csc, c = Some cl ∧ heap st !! cl = Some csc ∧
                      parent csc = Some a ∧ index csc = Some i ∧
                      detached csc = false) as Hl.
  { intros i c Hi. unfold l in Hi.
    destruct (scopes asc) as [l0|] eqn:El; [|by cbn in Hi].
    by apply (wf_children _ _ Hwf a asc l0 i c). }
  assert (∀ c, Some c ∈ l → rank a < rank c) as Hlrank.
  { intros c Hc. by apply (wf_ranked _ _ Hwf a asc c). }
  split.
  - intros p sc l' i c Hp Hl' Hi. cbn [heap set_heap] in *.
    apply lookup_insert_Some in Hp as [[<- <-]|[Hne Hp]]; [done|].
    apply lookup_insert_Some in Hp as [[<- <-]|[Hne' Hp]].
    + cbn in Hl'. injection Hl' as <-.
      apply lookup_snoc_Some in Hi as [[Hlt Hi]|[-> <-]].
      * destruct (Hl i c Hi) as (cl & csc & -> & Hc & Hrest).
        assert (cl ≠ this) as Hn1 by (apply Hold; by eexists).
        assert (cl ≠ a) as Hn2.
        { intros ->. assert (rank a < rank a); [|lia]. apply Hlrank.
          by apply list_elem_of_lookup_2 with i. }
        exists cl, csc. split; [done|]. split; [|done].
        by rewrite !lookup_insert_ne.
      * eexists this, _. split; [done|].
        split; [apply lookup_insert_eq | done].
    + destruct (wf_children _ _ Hwf p sc l' i c Hp Hl' Hi)
        as (cl & csc & -> & Hc & Hpar & Hidx & Hdet).
      assert (cl ≠ this) as Hn1 by (apply Hold; by eexists).
      destruct (decide (cl = a)) as [->|Hn2].
      * rewrite Hasc in Hc. injection Hc as <-.
        eexists a, _. split; [done|]. rewrite lookup_insert_ne by done.
        split; [apply lookup_insert_eq | done].
      * exists cl, csc. split; [done|]. split; [|done].
        by rewrite !lookup_insert_ne.
  - intros c csc p Hc Hp Hd. cbn [heap set_heap] in *.
    apply lookup_insert_Some in Hc as [[<- <-]|[Hne Hc]].
    + cbn in Hp. injection Hp as <-.
      eexists _, _, (length l). rewrite lookup_insert_ne by done.
      split; [apply lookup_insert_eq|]. split; [done|]. split; [done|].
      apply lookup_snoc_Some. by right.
    + assert (∃ csc0, heap st !! c = Some csc0 ∧ parent csc0 = Some p ∧
                      detached csc0 = false ∧ index csc0 = index csc)
        as (csc0 & Hc0 & Hp0 & Hd0 & Hi0).
      { apply lookup_insert_Some in Hc as [[<- <-]|[Hne' Hc]].
        - by exists asc.
        - by exists csc. }
      destruct (wf_parent _ _ Hwf c csc0 p Hc0 Hp0 Hd0)
        as (psc & l' & i & Hpsc & Hl' & Hidx & Hli).
      assert (p ≠ this) as Hn1 by (apply Hold; by eexists).
      destruct (decide (p = a)) as [->|Hn2].
      * rewrite Hasc in Hpsc. injection Hpsc as <-.
        eexists _, _, i. rewrite lookup_insert_ne by done.
        split; [apply lookup_insert_eq|]. split; [done|].
        split; [congruence|]. unfold l. rewrite Hl'. cbn.
        apply lookup_snoc_Some. left.
        split; [by apply lookup_lt_Some in Hli | done].
      * exists psc, l', i. rewrite !lookup_insert_ne by done.
        split; [done|]. split; [done|]. split; [congruence | done].
  - intros y sc Hy Hin. cbn [heap set_heap] in Hy.
    apply lookup_insert_Some in Hy as [[<- <-]|[Hne Hy]]; [done|].
    apply lookup_insert_Some in Hy as [[<- <-]|[Hne' Hy]].
    + by apply (wf_inactive _ _ Hwf a asc).
    + by apply (wf_inactive _ _ Hwf y sc).
  - intros p sc c Hp Hc. cbn [heap set_heap] in Hp.
    apply lookup_insert_Some in Hp as [[<- <-]|[Hne Hp]].
    { unfold child_of in Hc. cbn in Hc. by apply elem_of_nil in Hc. }
    apply lookup_insert_Some in Hp as [[<- <-]|[Hne' Hp]].
    + unfold child_of in Hc. cbn in Hc.
      rewrite (rank_new_old rank st a) by (by eexists).
      apply elem_of_app in Hc as [Hc|Hc].
      * rewrite rank_new_old; [by apply Hlrank|].
        apply list_elem_of_lookup in Hc as [i Hi].
        destruct (Hl i _ Hi) as (cl & csc & [= <-] & Hcsc & _). by eexists.
      * apply list_elem_of_singleton in Hc. injection Hc as ->.
        unfold rank_new. fold this. rewrite bool_decide_eq_true_2 by done.
        rewrite Ha. cbn. lia.
    + destruct (wf_child_lookup rank st p sc c Hwf Hp Hc)
        as (l' & i & csc & _ & _ & Hcsc & _).
      rewrite !rank_new_old by (by eexists).
      by apply (wf_ranked _ _ Hwf p sc).
Qed.

(** *** Swap-and-pop *)

Lemma wf_children_NoDup rank st p sc l :
  wf rank st → heap st !! p = Some sc → scopes sc = Some l → NoDup l.
Proof.
  intros Hwf Hp Hl. apply NoDup_alt. intros i j c Hi Hj.
  destruct (wf_children _ _ Hwf p sc l i c Hp Hl Hi)
    as (cl & csc & -> & Hc & _ & Hidx & _).
  destruct (wf_children _ _ Hwf p sc l j _ Hp Hl Hj)
    as (cl' & csc' & [= <-] & Hc' & _ & Hidx' & _).
  congruence.
Qed.

(** Without holes and duplicates, swap-and-pop at the index of [s] removes
    [s] and keeps every other element. *)
Lemma swap_pop_elements s (l : list (option loc)) i :
  NoDup l → (∀ c, c ∈ l → is_Some c) → l !! i = Some (Some s) →
  ∀ c, Some c ∈ swap_pop s l (Some i) ↔ Some c ∈ l ∧ c ≠ s.
Proof.
  intros Hnd Hholes Hi c.
  destruct (last l) as [x|] eqn:Hlast;
    [|apply last_None in Hlast; subst; by rewrite lookup_nil in Hi].
  pose proof Hlast as Hlast'. apply last_Some in Hlast' as [l0 ->].
  destruct (Hholes x) as [lastScope ->];
    [apply elem_of_app; right; by apply list_elem_of_singleton|].
  apply NoDup_app in Hnd as (Hnd0 & Hsep & _).
  assert (Some lastScope ∉ l0) as Hlast0.
  { intros Hin. apply (Hsep _ Hin). by apply list_elem_of_singleton. }
  unfold swap_pop. rewrite Hlast, removelast_last.
  apply lookup_snoc_Some in Hi as [[Hlt Hi]|[-> [= ->]]].
  - assert (lastScope ≠ s) as Hne.
    { intros ->. apply Hlast0. by apply list_elem_of_lookup_2 with i. }
    rewrite bool_decide_eq_true_2 by done.
    unfold array_set. rewrite bool_decide_eq_true_2 by done.
    rewrite insert_take_drop by done.
    assert (∀ x, x ∈ l0 ↔ x ∈ take i l0 ∨ x = Some s ∨ x ∈ drop (S i) l0)
      as Hmem.
    { intros x. rewrite <- (take_drop_middle l0 i (Some s) Hi) at 1.
      by rewrite elem_of_app, elem_of_cons. }
    rewrite <- (take_drop_middle l0 i (Some s) Hi) in Hnd0.
    apply NoDup_app in Hnd0 as (_ & Hsep1 & Hnd1).
    apply NoDup_cons in Hnd1 as [Hs2 _].
    rewrite !elem_of_app, elem_of_cons, list_elem_of_singleton, Hmem.
    split.
    + intros [Hc|[[= ->]|Hc]].
      * split; [tauto|]. intros ->. apply (Hsep1 _ Hc). by left.
      * split; [tauto | done].
      * split; [tauto|]. by intros ->.
    + intros [[[Hc|[[= ->]|Hc]]|[= ->]] Hcs]; tauto.
  - rewrite bool_decide_eq_false_2 by (intros H; by apply H).
    rewrite elem_of_app, list_elem_of_singleton. split.
    + intros Hc. split; [tauto|]. by intros ->.
    + intros [[Hc|[= ->]] Hcs]; [done | by destruct Hcs].
Qed.

(** *** The whole of [stop] *)

Lemma wf_closed rank st : wf rank st → closed st.
Proof.
  intros Hwf p sc l i c Hp Hl Hi.
  destruct (wf_children _ _ Hwf p sc l i c Hp Hl Hi)
    as (cl & csc & -> & Hc & _).
  exists cl. split; [done | by eexists].
Qed.

(** In a well-formed state the scopes below an active scope are active. *)
Lemma wf_child_active rank st x sc c :
  wf rank st → heap st !! x = Some sc → child_of sc c →
  ∃ csc, heap st !! c = Some csc ∧ _active csc = true.
Proof.
  intros Hwf Hx Hc. unfold child_of in Hc.
  destruct (scopes sc) as [l|] eqn:Hl; [|by apply elem_of_nil in Hc].
  cbn in Hc. apply list_elem_of_lookup in Hc as [j Hj].
  destruct (wf_children _ _ Hwf x sc l j _ Hx Hl Hj)
    as (cl & csc & [= <-] & Hcsc & Hpar & _).
  exists csc. split; [done|]. destruct (_active csc) eqn:Hact; [done|].
  rewrite (wf_inactive _ _ Hwf c csc Hcsc Hact) in Hpar. done.
Qed.

Lemma desc_stopped rank st new st' x d :
  wf rank st → cascade st new st' → desc st x d →
  (∃ sc, heap st !! x = Some sc ∧ _active sc = true) →
  is_inactive st' x →
  ∃ dsc, heap st !! d = Some dsc ∧ _active dsc = true ∧ is_inactive st' d.
Proof.
  intros Hwf C Hd. induction Hd as [x|x sc c d Hx Hc Hd IH].
  - intros (sc & Hx & Hact) Hin. by exists sc.
  - intros (sc' & Hx' & Hact) Hin. rewrite Hx in Hx'. injection Hx' as <-.
    apply IH.
    + by apply (wf_child_active rank st x sc).
    + by apply (cs_children _ _ _ C x sc).
Qed.

Lemma after_scopes_spec x sc st_b :
  heap st_b !! x =
    Some (with_cleanups [] (with_effects [] (with_active false sc))) →
  ∃ scc,
    heap (after_scopes x sc st_b) !! x = Some scc ∧
    parent scc = parent sc ∧ index scc = index sc ∧
    with_parent None scc = stopped sc ∧
    (∀ y, y ≠ x → heap (after_scopes x sc st_b) !! y = heap st_b !! y) ∧
    log (after_scopes x sc st_b) = log st_b ∧
    activeEffectScope (after_scopes x sc st_b) = activeEffectScope st_b.
Proof.
  intros Hx. unfold after_scopes. destruct (scopes sc) as [l|] eqn:Hl.
  - rewrite (update_lookup st_b x _ _ Hx). unfold set_heap.
    cbn [heap log activeEffectScope]. eexists.
    split; [apply lookup_insert_eq|]. split; [done|]. split; [done|].
    split.
    { unfold stopped, with_parent, with_scopes, with_cleanups, with_effects,
        with_active. cbn. by rewrite Hl. }
    split; [|done]. intros y Hne. by rewrite lookup_insert_ne.
  - eexists. split; [exact Hx|]. split; [done|]. split; [done|]. split.
    { unfold stopped, with_parent, with_scopes, with_cleanups, with_effects,
        with_active. cbn. by rewrite Hl. }
    done.
Qed.

(** C5, amended.  The callbacks are quiet, as this section assumes: the
    [stop] of every effect and every cleanup returns and leaves the scopes
    alone.  Then [s.stop()] on an active scope [s] of a well-formed tree,
    with fuel beyond the number of active scopes, does what the claim
    says: it returns; it first stops the
    effects of [s] in insertion order, then runs the cleanups of [s] in
    insertion order, and only then come the events of the child scopes;
    every descendant of [s] ends up stopped, having emitted its own events
    exactly once and in order; [s] is removed from the array of its parent
    by swap-and-pop at its recorded index; and any further [stop] of [s]
    does nothing. *)
Theorem stop_cascades (rank : loc -> nat) (fuel : nat) (st : state)
    (s : loc) (sc : EffectScope) :
  wf rank st → heap st !! s = Some sc → _active sc = true →
  nactive st < fuel →
  ∃ st' rest,
    stop stopE runC fuel s false st = Ret tt st' ∧
    log st' =
      log st ++ map (EffectStopped s) (effects sc)
             ++ map (CleanupRun s) (cleanups sc) ++ rest ∧
    events_of s rest = [] ∧
    heap st' !! s = Some (stopped sc) ∧
    (∀ d dsc,
       desc st s d → heap st !! d = Some dsc →
       is_inactive st' d ∧
       events_of d (own_events s sc ++ rest) = own_events d dsc) ∧
    (∀ p,
       parent sc = Some p → detached sc = false →
       ∃ psc l,
         heap st !! p = Some psc ∧ scopes psc = Some l ∧
         heap st' !! p =
           Some (with_scopes (Some (swap_pop s l (index sc))) psc) ∧
         (∀ c, Some c ∈ swap_pop s l (index sc) ↔ Some c ∈ l ∧ c ≠ s)) ∧
    (∀ fuel' fromParent,
       stop stopE runC (S fuel') s fromParent st' = Ret tt st').
Proof.
  intros Hwf Hs Hact Hfuel. destruct fuel as [|f]; [lia|].
  pose proof (wf_closed _ _ Hwf) as Hcl.
  pose proof (wf_ranked _ _ Hwf) as Hr.
  rewrite (stop_unfold rank _ _ _ _ _ (stop_true_ok rank f) Hs Hact Hcl Hr
             Hfuel).
  destruct (children_ok rank f s sc st (stop_true_ok rank f) Hs Hact Hcl Hr
              Hfuel) as (st_b & new & Hloop & C & Hkids & Hfr).
  assert (heap st_b !! s =
            Some (with_cleanups [] (with_effects [] (with_active false sc))))
    as Hsb.
  { apply (cs_inactive _ _ _ C); [apply begin_stop_lookup | done]. }
  pose proof (finish_cascade s sc st new st_b Hs Hact C Hkids) as Cfin.
  set (st_t := set_heap st_b (<[s := stopped sc]> (heap st_b))) in Cfin.
  destruct (after_scopes_spec s sc st_b Hsb)
    as (scc & Hsc & Hpar & Hidx & Hstopped & Hother & Hlog & Haes).
  assert (match scopes sc with
          | Some l =>
              obind
                (stop_scopes (fun c => stop stopE runC f c true) s 0 (length l)
                   (begin_stop s sc st))
                (fun _ st1 => Ret tt (update st1 s (with_scopes (Some []))))
          | None => Ret tt (begin_stop s sc st)
          end = Ret tt (after_scopes s sc st_b)) as ->.
  { unfold after_scopes.
    destruct (scopes sc) as [l|]; [by rewrite Hloop | done]. }
  cbn [obind].
  (* what the conclusions need of the final state *)
  assert (∀ st',
            heap st' !! s = Some (stopped sc) →
            log st' = log st_b →
            (∀ y, is_inactive st_b y → y ≠ s → is_inactive st' y) →
            log st' =
              log st ++ map (EffectStopped s) (effects sc)
                     ++ map (CleanupRun s) (cleanups sc) ++ new ∧
            events_of s new = [] ∧
            heap st' !! s = Some (stopped sc) ∧
            (∀ d dsc,
               desc st s d → heap st !! d = Some dsc →
               is_inactive st' d ∧
               events_of d (own_events s sc ++ new) = own_events d dsc) ∧
            (∀ fuel' fromParent,
               stop stopE runC (S fuel') s fromParent st' = Ret tt st'))
    as Hconcl.
  { intros st' Hs' Hlog' Hkeep.
    split.
    { rewrite Hlog', (cs_log _ _ _ C). unfold begin_stop, own_events.
      cbn [log]. by rewrite <- !app_assoc. }
    split.
    { apply (cs_quiet _ _ _ C). intros sc1. rewrite begin_stop_lookup.
      by intros [= <-]. }
    split; [done|]. split.
    { intros d dsc Hd Hdsc.
      destruct (desc_stopped rank st _ st_t s d Hwf Cfin Hd)
        as (dsc' & Hdsc' & Hdact & Hdin).
      - by exists sc.
      - exists (stopped sc). unfold st_t. cbn [heap set_heap].
        by rewrite lookup_insert_eq.
      - rewrite Hdsc in Hdsc'. injection Hdsc' as <-. split.
        + destruct (decide (d = s)) as [->|Hne];
            [by exists (stopped sc)|].
          apply Hkeep; [|done]. destruct Hdin as (x & Hx & Hxin).
          unfold st_t in Hx. cbn [heap set_heap] in Hx.
          rewrite lookup_insert_ne in Hx by done. by exists x.
        + destruct (cs_active _ _ _ Cfin d dsc Hdsc Hdact)
            as [[Hsame _]|[_ Hev]]; [|done].
          destruct Hdin as (x & Hx & Hxin). congruence. }
    intros fuel' fp. cbn [stop]. by rewrite Hs'. }
  destruct (negb (detached sc) && bool_decide (is_Some (parent sc))
            && negb false) eqn:Hcond.
  - (* linked to a parent *)
    apply andb_prop in Hcond as [Hcond _].
    apply andb_prop in Hcond as [Hdet Hsome].
    apply negb_true_iff in Hdet. apply bool_decide_eq_true in Hsome.
    destruct Hsome as [p Hp].
    destruct (wf_parent _ _ Hwf s sc p Hs Hp Hdet)
      as (psc & l & i & Hpsc & Hl & Hi & Hli).
    assert (rank p < rank s) as Hrank.
    { apply (Hr p psc s Hpsc). unfold child_of. rewrite Hl. cbn.
      by apply list_elem_of_lookup_2 with i. }
    assert (p ≠ s) as Hne by (intros ->; lia).
    assert (heap (after_scopes s sc st_b) !! p = Some psc) as Hpc.
    { rewrite Hother by done. rewrite Hfr by lia.
      by rewrite begin_stop_lookup_ne. }
    destruct (unlink_spec s (after_scopes s sc st_b) scc p psc l)
      as (st_d & Hun & Hlogd & Haesd & Hsd & Hactd & Hpd & _ & _);
      [done | congruence | done..|].
    rewrite Hun. cbn [obind].
    rewrite (update_lookup st_d s scc _ Hsd), Hstopped.
    eexists _, new. split; [done|].
    unfold set_heap.
    destruct (Hconcl (mkState (<[s := stopped sc]> (heap st_d))
                        (activeEffectScope st_d) (log st_d)))
      as (H1 & H2 & H3 & H4 & H5).
    { cbn [heap]. apply lookup_insert_eq. }
    { cbn [log]. congruence. }
    { intros y (ysc & Hy & Hyin) Hys. unfold is_inactive. cbn [heap].
      rewrite lookup_insert_ne by done.
      rewrite <- Hother in Hy by done.
      destruct (Hactd y ysc Hy) as (ysc' & Hy' & Hya).
      exists ysc'. split; [done | congruence]. }
    split; [done|]. split; [done|]. split; [done|]. split; [done|].
    split; [|done].
    intros p' Hp' _. rewrite Hp in Hp'. injection Hp' as <-.
    exists psc, l. split; [done|]. split; [done|]. cbn [heap]. split.
    { rewrite lookup_insert_ne by done. rewrite <- Hidx. apply Hpd.
      intros Hlast. apply last_Some in Hlast as [l' ->].
      assert (rank p < rank p); [|lia].
      apply (Hr p psc p Hpsc). unfold child_of. rewrite Hl. cbn.
      apply elem_of_app. right. apply list_elem_of_singleton. done. }
    rewrite Hi. apply swap_pop_elements; [|intros c Hc|done].
    { by apply (wf_children_NoDup rank st p psc). }
    apply list_elem_of_lookup in Hc as [j Hj].
    destruct (wf_children _ _ Hwf p psc l j c Hpsc Hl Hj) as (cl & _ & -> & _).
    by eexists.
  - (* detached, or without a parent *)
    cbn [obind]. rewrite (update_lookup _ s scc _ Hsc), Hstopped.
    eexists _, new. split; [done|].
    unfold set_heap.
    destruct (Hconcl (mkState (<[s := stopped sc]>
                                 (heap (after_scopes s sc st_b)))
                        (activeEffectScope (after_scopes s sc st_b))
                        (log (after_scopes s sc st_b))))
      as (H1 & H2 & H3 & H4 & H5).
    { cbn [heap]. apply lookup_insert_eq. }
    { cbn [log]. congruence. }
    { intros y (ysc & Hy & Hyin) Hys. unfold is_inactive. cbn [heap].
      rewrite lookup_insert_ne by done. rewrite Hother by done.
      by exists ysc. }
    split; [done|]. split; [done|]. split; [done|]. split; [done|].
    split; [|done].
    intros p' Hp' Hdet'. rewrite Hdet' in Hcond.
    rewrite bool_decide_eq_true_2 in Hcond by (by exists p'). done.
Qed.

(** *** [stop] keeps the tree well formed *)

Lemma stop_shape rank f st s sc st' :
  wf rank st → heap st !! s = Some sc → _active sc = true →
  nactive st < S f →
  stop stopE runC (S f) s false st = Ret tt st' →
  ∃ st_t new,
    cascade st new st_t ∧
    origin (eq s) st st_t ∧
    heap st_t !! s = Some (stopped sc) ∧
    (∀ y, y ≠ s → rank y ≤ rank s → heap st_t !! y = heap st !! y) ∧
    unlinked_from st s sc st_t st'.
Proof.
  intros Hwf Hs Hact Hfuel Hstop.
  pose proof (wf_closed _ _ Hwf) as Hcl.
  pose proof (wf_ranked _ _ Hwf) as Hr.
  destruct (children_ok rank f s sc st (stop_true_ok rank f) Hs Hact Hcl Hr
              Hfuel) as (st_b & new & Hloop & C & Hkids & Hfr).
  assert (heap st_b !! s =
            Some (with_cleanups [] (with_effects [] (with_active false sc))))
    as Hsb.
  { apply (cs_inactive _ _ _ C); [apply begin_stop_lookup | done]. }
  set (st_t := set_heap st_b (<[s := stopped sc]> (heap st_b))).
  assert (match scopes sc with
          | Some l =>
              obind
                (stop_scopes (fun c => stop stopE runC f c true) s 0 (length l)
                   (begin_stop s sc st))
                (fun _ st1 => Ret tt (update st1 s (with_scopes (Some []))))
          | None => Ret tt (begin_stop s sc st)
          end = Ret tt (after_scopes s sc st_b)) as Hafter.
  { unfold after_scopes.
    destruct (scopes sc) as [l|]; [by rewrite Hloop | done]. }
  assert (stop stopE runC (S f) s true st = Ret tt st_t) as Htrue.
  { rewrite (stop_unfold rank _ _ _ _ _ (stop_true_ok rank f) Hs Hact Hcl Hr
               Hfuel), Hafter, andb_false_r.
    cbn [obind]. unfold after_scopes. by rewrite (finish_state s sc st_b Hsb). }
  destruct (after_scopes_spec s sc st_b Hsb)
    as (scc & Hsc & Hpar & Hidx & Hstopped & Hother & _ & _).
  exists st_t, (own_events s sc ++ new).
  split; [by apply finish_cascade|].
  split; [by apply (stop_true_origin rank (S f) s st st_t Hcl Hr)|].
  split; [apply lookup_insert_eq|].
  split.
  { intros y Hne Hy. unfold st_t. cbn [heap set_heap].
    rewrite lookup_insert_ne by done. rewrite Hfr by done.
    by apply begin_stop_lookup_ne. }
  rewrite (stop_unfold rank _ _ _ _ _ (stop_true_ok rank f) Hs Hact Hcl Hr
             Hfuel), Hafter in Hstop.
  cbn [obind] in Hstop. unfold unlinked_from.
  destruct (negb (detached sc) && bool_decide (is_Some (parent sc))) eqn:Hcond;
    cbn [andb negb] in Hstop.
  - right.
    apply andb_prop in Hcond as [Hdet Hsome].
    apply negb_true_iff in Hdet. apply bool_decide_eq_true in Hsome.
    destruct Hsome as [P HP].
    destruct (wf_parent _ _ Hwf s sc P Hs HP Hdet)
      as (psc & l & i & Hpsc & Hl & Hi & Hli).
    assert (rank P < rank s) as Hrank.
    { apply (Hr P psc s Hpsc). unfold child_of. rewrite Hl. cbn.
      by apply list_elem_of_lookup_2 with i. }
    assert (P ≠ s) as Hne by (intros ->; lia).
    assert (heap (after_scopes s sc st_b) !! P = Some psc) as Hpc.
    { rewrite Hother by done. rewrite Hfr by lia.
      by rewrite begin_stop_lookup_ne. }
    destruct (unlink_spec s (after_scopes s sc st_b) scc P psc l)
      as (st_d & Hun & _ & _ & Hsd & _ & Hpd & Hsame & Hmoved);
      [done | congruence | done..|].
    rewrite Hun in Hstop. cbn [obind] in Hstop.
    rewrite (update_lookup st_d s scc _ Hsd), Hstopped in Hstop.
    injection Hstop as <-. unfold st_t. cbn [heap set_heap].
    assert (last l ≠ Some (Some P)) as HlastP.
    { intros Hlast. apply last_Some in Hlast as [l' ->].
      assert (rank P < rank P); [|lia].
      apply (Hr P psc P Hpsc). unfold child_of. rewrite Hl. cbn.
      apply elem_of_app. right. by apply list_elem_of_singleton. }
    exists P, psc, l, i. do 6 (split; [done|]). split; [|split].
    + rewrite lookup_insert_ne by done. rewrite <- Hi, <- Hidx. by apply Hpd.
    + intros y Hy Hlast. destruct (decide (y = s)) as [->|Hys].
      * by rewrite !lookup_insert_eq.
      * rewrite !lookup_insert_ne by done.
        rewrite Hsame by done. by apply Hother.
    + intros y ysc Hlast Hys Hy. unfold st_t in Hy. cbn [heap set_heap] in Hy.
      rewrite lookup_insert_ne in Hy by done.
      rewrite lookup_insert_ne by done.
      rewrite <- Hi, <- Hidx. apply Hmoved; try done.
      * intros ->. by rewrite Hlast in HlastP.
      * by rewrite Hother.
  - left. split; [done|]. intros y. cbn [obind] in Hstop.
    rewrite (update_lookup _ s scc _ Hsc), Hstopped in Hstop.
    injection Hstop as <-. unfold st_t. cbn [heap set_heap].
    destruct (decide (y = s)) as [->|Hys].
    + by rewrite !lookup_insert_eq.
    + rewrite !lookup_insert_ne by done. by apply Hother.
Qed.

(** Step one: after the cascade everything is in order except, possibly,
    the entry of [s] in the array of its parent. *)
Lemma cascade_wfx rank st new st_t s sc :
  wf rank st → heap st !! s = Some sc →
  cascade st new st_t → origin (eq s) st st_t →
  wfx rank s st_t ∧
  (∀ p psc l j,
     heap st_t !! p = Some psc → scopes psc = Some l →
     l !! j = Some (Some s) →
     parent sc = Some p ∧ detached sc = false ∧ index sc = Some j ∧
     heap st !! p = Some psc).
Proof.
  intros Hwf Hs C O.
  assert (∀ p psc l j c,
            heap st_t !! p = Some psc → scopes psc = Some l →
            l !! j = Some c → heap st !! p = Some psc) as Hsame.
  { intros p psc l j c Hp Hl Hj.
    destruct (cascade_lookup _ _ _ _ _ C Hp) as (psc0 & Hp0 & [->| ->]);
      [done|].
    unfold stopped in Hl. cbn in Hl. destruct (scopes psc0); [|done].
    injection Hl as <-. by rewrite lookup_nil in Hj. }
  split; [split|].
  - intros p psc l i c Hp Hl Hi.
    pose proof (Hsame p psc l i c Hp Hl Hi) as Hp0.
    destruct (wf_children _ _ Hwf p psc l i c Hp0 Hl Hi)
      as (cl & csc & -> & Hc & Hpar & Hidx & Hdet).
    exists cl. split; [done|].
    destruct (decide (cl = s)) as [->|Hne]; [by left|]. right.
    exists csc. split; [|done].
    destruct (_active csc) eqn:Hact;
      [|by apply (cs_inactive _ _ _ C)].
    destruct (cs_active _ _ _ C cl csc Hc Hact) as [[H1 _]|[H1 _]]; [done|].
    exfalso.
    destruct (O cl csc Hc Hact) as [Heq|(z & zsc & Hz & Hzact & Hzin & Hzc)];
      [by exists (stopped csc) | congruence |].
    destruct (wf_child_lookup rank st z zsc cl Hwf Hz Hzc)
      as (_ & _ & csc' & _ & _ & Hc' & Hpar' & _).
    rewrite Hc in Hc'. injection Hc' as <-.
    rewrite Hpar in Hpar'. injection Hpar' as <-.
    destruct Hzin as (psc' & Hp' & Hin'). rewrite Hp in Hp'.
    injection Hp' as <-. rewrite Hp0 in Hz. injection Hz as <-. congruence.
  - intros c csc' p Hc Hpar Hdet.
    destruct (cascade_lookup _ _ _ _ _ C Hc) as (csc & Hc0 & [->| ->]);
      [|done].
    destruct (wf_parent _ _ Hwf c csc p Hc0 Hpar Hdet)
      as (psc & l & i & Hp & Hl & Hidx & Hli).
    exists psc, l, i. split; [|done].
    destruct (_active psc) eqn:Hact;
      [|by apply (cs_inactive _ _ _ C)].
    destruct (cs_active _ _ _ C p psc Hp Hact) as [[H1 _]|[H1 _]]; [done|].
    exfalso.
    assert (is_inactive st_t c) as (csc1 & Hc1 & Hin1).
    { apply (cs_children _ _ _ C p psc c Hp Hact); [by exists (stopped psc)|].
      unfold child_of. rewrite Hl. cbn.
      by apply list_elem_of_lookup_2 with i. }
    rewrite Hc in Hc1. injection Hc1 as <-.
    by rewrite (wf_inactive _ _ Hwf c csc Hc0 Hin1) in Hpar.
  - intros y ysc' Hy Hin.
    destruct (cascade_lookup _ _ _ _ _ C Hy) as (ysc & Hy0 & [->| ->]);
      [|done].
    by apply (wf_inactive _ _ Hwf y ysc).
  - apply (cascade_ranked rank st new st_t C), Hwf.
  - intros p psc l j Hp Hl Hj.
    pose proof (Hsame p psc l j _ Hp Hl Hj) as Hp0.
    destruct (wf_children _ _ Hwf p psc l j _ Hp0 Hl Hj)
      as (cl & csc & [= <-] & Hc & Hpar & Hidx & Hdet).
    rewrite Hs in Hc. injection Hc as <-. done.
Qed.

(** The positions after swap-and-pop: the last element sits where [s] was,
    and every other element but [s] stays where it was. *)
Lemma swap_pop_lookup s (l : list (option loc)) i :
  NoDup l → (∀ c, c ∈ l → is_Some c) → l !! i = Some (Some s) →
  ∀ j c,
    swap_pop s l (Some i) !! j = Some c ↔
    c ≠ Some s ∧
    ((j = i ∧ last l = Some c) ∨
     (j ≠ i ∧ l !! j = Some c ∧ last l ≠ Some c)).
Proof.
  intros Hnd Hholes Hi j c.
  destruct (last l) as [x|] eqn:Hlast;
    [|apply last_None in Hlast; subst; by rewrite lookup_nil in Hi].
  pose proof Hlast as Hlast'. apply last_Some in Hlast' as [l0 ->].
  destruct (Hholes x) as [lastScope ->];
    [apply elem_of_app; right; by apply list_elem_of_singleton|].
  pose proof (proj1 (NoDup_alt _) Hnd) as Hnd'.
  assert ((l0 ++ [Some lastScope]) !! length l0 = Some (Some lastScope))
    as Hend by (apply lookup_snoc_Some; by right).
  unfold swap_pop. rewrite Hlast, removelast_last.
  apply lookup_snoc_Some in Hi as [[Hlt Hi]|[-> [= ->]]].
  - assert ((l0 ++ [Some lastScope]) !! i = Some (Some s)) as Hi'
      by (apply lookup_snoc_Some; left; done).
    assert (lastScope ≠ s) as Hne.
    { intros ->. pose proof (Hnd' _ _ _ Hi' Hend). lia. }
    rewrite bool_decide_eq_true_2 by done.
    unfold array_set. rewrite bool_decide_eq_true_2 by done.
    destruct (decide (j = i)) as [->|Hji].
    + rewrite list_lookup_insert_eq by done. split.
      * intros [= <-]. split; [congruence|]. by left.
      * intros [_ [[_ [= ->]]|[? _]]]; done.
    + rewrite list_lookup_insert_ne by done. split.
      * intros Hj.
        assert ((l0 ++ [Some lastScope]) !! j = Some c) as Hj'
          by (apply lookup_snoc_Some; left;
              split; [by apply lookup_lt_Some in Hj | done]).
        split.
        { intros ->. by pose proof (Hnd' _ _ _ Hi' Hj'). }
        right. split; [done|]. split; [done|]. intros [= <-].
        pose proof (Hnd' _ _ _ Hend Hj'). apply lookup_lt_Some in Hj. lia.
      * intros [_ [[? _]|[_ [Hj Hnl]]]]; [done|].
        apply lookup_snoc_Some in Hj as [[_ Hj]|[_ <-]]; done.
  - rewrite bool_decide_eq_false_2 by (intros H; by apply H). split.
    + intros Hj.
      assert ((l0 ++ [Some s]) !! j = Some c) as Hj'
        by (apply lookup_snoc_Some; left;
            split; [by apply lookup_lt_Some in Hj | done]).
      assert (j ≠ length l0) as Hjl by (apply lookup_lt_Some in Hj; lia).
      assert (c ≠ Some s) as Hcs.
      { intros ->. by pose proof (Hnd' _ _ _ Hend Hj'). }
      split; [done|]. right. split; [done|]. split; [done | congruence].
    + intros [Hcs [[_ [= <-]]|[Hjl [Hj _]]]]; [done|].
      apply lookup_snoc_Some in Hj as [[_ Hj]|[? _]]; done.
Qed.

(** Step two, for a scope that is in no array. *)
Lemma wfx_unlinked rank s st_t st' :
  wfx rank s st_t →
  (∀ p psc l j,
     heap st_t !! p = Some psc → scopes psc = Some l →
     l !! j ≠ Some (Some s)) →
  (∀ y, heap st' !! y = heap st_t !! y) →
  wf rank st'.
Proof.
  intros Hx Hno Heq. split.
  - intros p sc l i c Hp Hl Hi. rewrite Heq in Hp.
    destruct (wfx_children _ _ _ Hx p sc l i c Hp Hl Hi)
      as (cl & -> & [->|(csc & Hc & Hrest)]).
    + by destruct (Hno p sc l i Hp Hl).
    + exists cl, csc. by rewrite Heq.
  - intros c csc p Hc Hpar Hdet. rewrite Heq in Hc.
    destruct (wfx_parent _ _ _ Hx c csc p Hc Hpar Hdet)
      as (psc & l & i & Hp & Hrest).
    exists psc, l, i. by rewrite Heq.
  - intros y sc Hy. rewrite Heq in Hy. by apply (wfx_inactive _ _ _ Hx y).
  - intros p sc c Hp. rewrite Heq in Hp. by apply (wfx_ranked _ _ _ Hx p).
Qed.

(** Step two, for a scope in the array [l] of its parent [P]. *)
Lemma wfx_linked rank s st_t st' ssc P psc l i :
  wfx rank s st_t →
  heap st_t !! s = Some ssc → parent ssc = None →
  heap st_t !! P = Some psc → scopes psc = Some l →
  l !! i = Some (Some s) → NoDup l →
  (∀ p psc' l' j,
     heap st_t !! p = Some psc' → scopes psc' = Some l' →
     l' !! j = Some (Some s) → p = P) →
  heap st' !! P = Some (with_scopes (Some (swap_pop s l (Some i))) psc) →
  (∀ y, y ≠ P → (last l ≠ Some (Some y) ∨ y = s) →
        heap st' !! y = heap st_t !! y) →
  (∀ y ysc, last l = Some (Some y) → y ≠ s →
            heap st_t !! y = Some ysc →
            heap st' !! y = Some (with_index (Some i) ysc)) →
  wf rank st'.
Proof.
  intros Hx Hs Hspar HP Hl Hi Hnd Huniq EP Eo Em.
  pose proof (wfx_ranked _ _ _ Hx) as Hr.
  assert (∀ c, c ∈ l → is_Some c) as Hholes.
  { intros c Hc. apply list_elem_of_lookup in Hc as [j Hj].
    destruct (wfx_children _ _ _ Hx P psc l j c HP Hl Hj) as (cl & -> & _).
    by eexists. }
  assert (∀ j cl, l !! j = Some (Some cl) → rank P < rank cl) as Hlrank.
  { intros j cl Hj. apply (Hr P psc cl HP). unfold child_of. rewrite Hl. cbn.
    by apply list_elem_of_lookup_2 with j. }
  assert (∀ j cl, l !! j = Some (Some cl) → cl ≠ s →
            ∃ csc, heap st_t !! cl = Some csc ∧ parent csc = Some P ∧
                   index csc = Some j ∧ detached csc = false) as Hlrec.
  { intros j cl Hj Hne.
    by destruct (wfx_children _ _ _ Hx P psc l j _ HP Hl Hj)
      as (cl' & [= <-] & [->|Hrec]). }
  assert (∀ y, last l = Some (Some y) → y ≠ P) as HlastP.
  { intros y Hlast ->. rewrite last_lookup in Hlast.
    pose proof (Hlrank _ _ Hlast). lia. }
  pose proof (swap_pop_lookup s l i Hnd Hholes Hi) as Hswap.
  (* the records of [st'] against those of [st_t] *)
  assert (∀ y ysc',
            heap st' !! y = Some ysc' →
            ∃ ysc, heap st_t !! y = Some ysc ∧
                   _active ysc' = _active ysc ∧ parent ysc' = parent ysc ∧
                   detached ysc' = detached ysc ∧
                   (y ≠ P → scopes ysc' = scopes ysc) ∧
                   (¬ (last l = Some (Some y) ∧ y ≠ s) →
                    index ysc' = index ysc)) as G.
  { intros y ysc' Hy. destruct (decide (y = P)) as [->|HyP].
    - rewrite EP in Hy. injection Hy as <-. exists psc. by repeat split.
    - destruct (decide (last l = Some (Some y) ∧ y ≠ s)) as [[Hlast Hys]|Hno].
      + rewrite last_lookup in Hlast.
        destruct (Hlrec _ y Hlast Hys) as (ysc & Hyt & _).
        rewrite last_lookup in Em.
        rewrite (Em y ysc Hlast Hys Hyt) in Hy. injection Hy as <-.
        exists ysc. repeat split; try done. intros Hn. destruct Hn.
        by rewrite last_lookup.
      + rewrite Eo in Hy; [|done|].
        * exists ysc'. by repeat split.
        * destruct (decide (y = s)); [by right | left].
          intros Hlast. by apply Hno. }
  assert (∀ y ysc,
            heap st_t !! y = Some ysc →
            ∃ ysc', heap st' !! y = Some ysc' ∧
                    parent ysc' = parent ysc ∧
                    detached ysc' = detached ysc ∧
                    (y ≠ P → scopes ysc' = scopes ysc) ∧
                    (last l = Some (Some y) → y ≠ s → index ysc' = Some i) ∧
                    (¬ (last l = Some (Some y) ∧ y ≠ s) →
                     index ysc' = index ysc)) as G'.
  { intros y ysc Hy. destruct (decide (y = P)) as [->|HyP].
    - rewrite HP in Hy. injection Hy as <-. eexists. split; [exact EP|].
      repeat split; try done. intros Hlast. by destruct (HlastP _ Hlast).
    - destruct (decide (last l = Some (Some y) ∧ y ≠ s)) as [[Hlast Hys]|Hno].
      + eexists. split; [by apply Em|]. repeat split; try done.
        intros Hn. by destruct Hn.
      + exists ysc. rewrite Eo; [|done|].
        * repeat split; try done. intros Hlast Hys. by destruct Hno.
        * destruct (decide (y = s)); [by right | left].
          intros Hlast. by apply Hno. }
  assert (P ≠ s) as HPs.
  { intros ->. pose proof (Hlrank _ _ Hi). lia. }
  split.
  - (* children *)
    intros p sc' l' j c Hp Hl' Hj.
    destruct (decide (p = P)) as [->|HpP].
    + rewrite EP in Hp. injection Hp as <-. cbn in Hl'. injection Hl' as <-.
      apply Hswap in Hj as [Hcs [[-> Hlast]|(Hji & Hj & Hlast)]].
      * destruct (Hholes c) as [cl ->].
        { rewrite last_lookup in Hlast. by apply list_elem_of_lookup_2 in Hlast. }
        assert (cl ≠ s) as Hne by congruence.
        pose proof Hlast as Hlast'. rewrite last_lookup in Hlast'.
        destruct (Hlrec _ cl Hlast' Hne) as (csc & Hc & Hpar & _ & Hdet).
        exists cl, (with_index (Some i) csc). split; [done|].
        split; [by apply Em | done].
      * destruct (Hholes c) as [cl ->];
          [by apply list_elem_of_lookup_2 in Hj|].
        assert (cl ≠ s) as Hne by congruence.
        destruct (Hlrec _ cl Hj Hne) as (csc & Hc & Hpar & Hidx & Hdet).
        exists cl, csc. split; [done|]. split; [|done].
        rewrite Eo; [done| |by left].
        intros ->. pose proof (Hlrank _ _ Hj). lia.
    + destruct (G p sc' Hp) as (sc & Hpt & _ & _ & _ & Hsc & _).
      rewrite (Hsc HpP) in Hl'.
      destruct (wfx_children _ _ _ Hx p sc l' j c Hpt Hl' Hj)
        as (cl & -> & [->|(csc & Hc & Hpar & Hidx & Hdet)]).
      * by destruct (HpP (Huniq p sc l' j Hpt Hl' Hj)).
      * destruct (G' cl csc Hc) as (csc' & Hc' & Hpar' & Hdet' & _ & _ & Hidx').
        exists cl, csc'. split; [done|]. split; [done|].
        split; [congruence|]. split; [|congruence].
        rewrite Hidx'; [done|]. intros [Hlast Hcs].
        rewrite last_lookup in Hlast.
        destruct (Hlrec _ cl Hlast Hcs) as (csc2 & Hc2 & Hpar2 & _).
        congruence.
  - (* parent *)
    intros c csc' p Hc Hpar Hdet.
    destruct (G c csc' Hc) as (csc & Hct & _ & Hpar' & Hdet' & Hsc & Hidx).
    rewrite Hpar' in Hpar. rewrite Hdet' in Hdet.
    assert (c ≠ s) as Hcs by (intros ->; congruence).
    destruct (wfx_parent _ _ _ Hx c csc p Hct Hpar Hdet)
      as (psc0 & l0 & j & Hp & Hl0 & Hj & Hlj).
    destruct (decide (p = P)) as [->|HpP].
    + rewrite HP in Hp. injection Hp as <-. rewrite Hl in Hl0.
      injection Hl0 as <-.
      eexists _, _. destruct (decide (last l = Some (Some c))) as [Hlast|Hnl].
      * exists i. split; [exact EP|]. split; [done|]. split.
        { destruct (G' c csc Hct) as (csc2 & Hc2 & _ & _ & _ & Hmoved & _).
          rewrite Hc in Hc2. injection Hc2 as <-. by apply Hmoved. }
        apply Hswap. split; [congruence|]. by left.
      * exists j. split; [exact EP|]. split; [done|]. split.
        { rewrite Hidx; [done|]. by intros [? _]. }
        apply Hswap. split; [congruence|]. right.
        split; [|done]. intros ->. congruence.
    + destruct (G' p psc0 Hp) as (psc' & Hp' & _ & _ & Hsc' & _).
      exists psc', l0, j. split; [done|]. split; [by rewrite Hsc'|].
      split; [|done]. rewrite Hidx; [done|]. intros [Hlast _].
      rewrite last_lookup in Hlast.
      destruct (Hlrec _ c Hlast Hcs) as (csc2 & Hc2 & Hpar2 & _). congruence.
  - (* inactive *)
    intros y ysc' Hy Hin.
    destruct (G y ysc' Hy) as (ysc & Hyt & Hact & Hpar & _).
    rewrite Hpar. apply (wfx_inactive _ _ _ Hx y ysc Hyt). congruence.
  - (* ranked *)
    intros p sc' c Hp Hc.
    destruct (decide (p = P)) as [->|HpP].
    + rewrite EP in Hp. injection Hp as <-. unfold child_of in Hc. cbn in Hc.
      apply list_elem_of_lookup in Hc as [j Hj].
      apply Hswap in Hj as [_ [[_ Hlast]|(_ & Hj & _)]].
      * rewrite last_lookup in Hlast. by apply (Hlrank _ _ Hlast).
      * by apply (Hlrank _ _ Hj).
    + destruct (G p sc' Hp) as (sc & Hpt & _ & _ & _ & Hsc & _).
      apply (Hr p sc c Hpt). unfold child_of in *. by rewrite <- (Hsc HpP).
Qed.

(** [stop()] keeps the scope tree well formed: after the call the arrays,
    the parent fields and the indices of all scopes are consistent again,
    so the constant-time removal can be repeated on any other scope. *)
Theorem stop_wf rank fuel st s sc st' :
  wf rank st → heap st !! s = Some sc → nactive st < fuel →
  stop stopE runC fuel s false st = Ret tt st' → wf rank st'.
Proof.
  intros Hwf Hs Hfuel Hstop. destruct fuel as [|f]; [lia|].
  destruct (_active sc) eqn:Hact.
  2:{ cbn [stop] in Hstop. rewrite Hs, Hact in Hstop. by injection Hstop as <-. }
  destruct (stop_shape rank f st s sc st' Hwf Hs Hact Hfuel Hstop)
    as (st_t & new & C & O & Hst & Hfr & U).
  destruct (cascade_wfx rank st new st_t s sc Hwf Hs C O) as [Hx Hlink].
  destruct U as [[Hun Heq]|(P & psc & l & i & Hdet & Hpar & HP & Hl & Hidx &
                             Hi & EP & Eo & Em)].
  - apply (wfx_unlinked rank s st_t st' Hx); [|done].
    intros p psc l j Hp Hl Hj.
    destruct (Hlink p psc l j Hp Hl Hj) as (Hpar & Hdet & _).
    rewrite Hpar, Hdet in Hun. cbn [negb andb] in Hun.
    apply bool_decide_eq_false in Hun. by destruct Hun.
  - assert (rank P < rank s) as Hrank.
    { apply (wf_ranked _ _ Hwf P psc s HP). unfold child_of. rewrite Hl. cbn.
      by apply list_elem_of_lookup_2 with i. }
    apply (wfx_linked rank s st_t st' (stopped sc) P psc l i); try done.
    + rewrite Hfr; [done| |lia]. intros ->. lia.
    + by apply (wf_children_NoDup rank st P psc).
    + intros p psc' l' j Hp Hl' Hj.
      destruct (Hlink p psc' l' j Hp Hl' Hj) as (Hpar' & _). congruence.
Qed.

(** *** Further properties of effectScope.ts *)

Lemma wf_same_heap rank st st' :
  heap st' = heap st → wf rank st → wf rank st'.
Proof.
  intros Heq [H1 H2 H3 H4]. split; unfold ranked in *; rewrite Heq; eauto.
Qed.

Lemma new_EffectScope_fst det st :
  fst (new_EffectScope det st) = fresh (dom (heap st)).
Proof.
  unfold new_EffectScope. destruct (activeEffectScope st) as [a|]; [|done].
  destruct det; [done|]. cbn [negb]. by destruct (heap st !! a).
Qed.

(** [new EffectScope(detached)].  The scope is new, active, and has the
    active scope as parent, detached or not.  When it is not detached and
    there is an active scope, it is pushed onto that scope's array and
    gets its position as index; otherwise no other scope is touched.  In
    both cases the scope tree stays well formed. *)
Theorem new_EffectScope_registers (rank : loc -> nat) (det : bool)
    (st : state) :
  wf rank st →
  (∀ a, activeEffectScope st = Some a → is_Some (heap st !! a)) →
  let this := fst (new_EffectScope det st) in
  let st' := snd (new_EffectScope det st) in
  let fresh_scope :=
    mkScope true 0 [] [] false (activeEffectScope st) None None det None in
  heap st !! this = None ∧
  wf (rank_new rank st) st' ∧
  activeEffectScope st' = activeEffectScope st ∧
  log st' = log st ∧
  (∀ a asc,
     det = false → activeEffectScope st = Some a → heap st !! a = Some asc →
     let l := default [] (scopes asc) in
     heap st' =
       <[this := with_index (Some (length l)) fresh_scope]>
         (<[a := with_scopes (Some (l ++ [Some this])) asc]> (heap st))) ∧
  (det = true ∨ activeEffectScope st = None →
   heap st' = <[this := fresh_scope]> (heap st)).
Proof.
  intros Hwf Hact this st' fresh_scope.
  split; [unfold this; rewrite new_EffectScope_fst; apply fresh_scope_None|].
  split; [by apply new_EffectScope_wf|].
  unfold st', this, new_EffectScope.
  destruct (activeEffectScope st) as [a|] eqn:Ha.
  - destruct (Hact a eq_refl) as [asc Hasc]. rewrite Hasc.
    destruct det; cbn [negb fst snd heap activeEffectScope log set_heap].
    + split; [done|]. split; [done|]. split; [done|]. by intros _.
    + split; [done|]. split; [done|]. split.
      * intros a' asc' _ [= <-] Hasc'. rewrite Hasc in Hasc'.
        by injection Hasc' as <-.
      * by intros [?|?].
  - cbn [negb fst snd heap activeEffectScope log set_heap].
    split; [done|]. split; [done|]. split; [done|]. by intros _.
Qed.

(** [stop] keeps [activeEffectScope] as it is. *)
Lemma stop_scopes_activeEffectScope (stp : loc → state → outcome unit) x :
  (∀ c st st', stp c st = Ret tt st' →
               activeEffectScope st' = activeEffectScope st) →
  ∀ n i st st',
    stop_scopes stp x i n st = Ret tt st' →
    activeEffectScope st' = activeEffectScope st.
Proof.
  intros Hstp n. induction n as [|n IH]; intros i st st' H; cbn in H.
  - by injection H as <-.
  - destruct (heap st !! x) as [sc|]; [|done].
    destruct (scopes sc) as [l|]; [|done].
    destruct (l !! i) as [[c|]|]; [|done..].
    destruct (stp c st) as [[] st1| |] eqn:Hc; [|done..].
    cbn [obind] in H. rewrite (IH _ _ _ H). by apply (Hstp c).
Qed.

Lemma update_activeEffectScope st x f :
  activeEffectScope (update st x f) = activeEffectScope st.
Proof. unfold update. by destruct (heap st !! x). Qed.

Lemma unlink_activeEffectScope x st st' :
  unlink x st = Ret tt st' → activeEffectScope st' = activeEffectScope st.
Proof.
  unfold unlink. destruct (heap st !! x) as [sc|]; [|done].
  destruct (parent sc) as [p|]; [|by intros [= <-]].
  destruct (heap st !! p) as [psc|]; [|done].
  destruct (scopes psc) as [l|]; [|done].
  destruct (last l) as [[lastScope|]|];
    [|intros [= <-]; apply update_activeEffectScope..].
  case_bool_decide; [|intros [= <-]; apply update_activeEffectScope].
  intros [= <-]. rewrite update_activeEffectScope.
  destruct (index sc); by rewrite !update_activeEffectScope.
Qed.

Lemma stop_activeEffectScope fuel :
  ∀ x fp st st',
    stop stopE runC fuel x fp st = Ret tt st' →
    activeEffectScope st' = activeEffectScope st.
Proof.
  induction fuel as [|f IH]; intros x fp st st' H; [done|].
  destruct (heap st !! x) as [sc|] eqn:Hx;
    [|cbn [stop] in H; by rewrite Hx in H].
  destruct (_active sc) eqn:Hact;
    [|cbn [stop] in H; rewrite Hx, Hact in H; by injection H as <-].
  rewrite (stop_begin _ _ _ _ _ Hx Hact) in H.
  match type of H with
  | obind ?m _ = _ => destruct m as [[] st1| |] eqn:Hkids; [|done..]
  end.
  cbn [obind] in H.
  assert (activeEffectScope st1 = activeEffectScope st) as H1.
  { destruct (scopes sc) as [l|].
    - match type of Hkids with
      | obind ?m _ = _ => destruct m as [[] st0| |] eqn:Hloop; [|done..]
      end.
      cbn [obind] in Hkids. unfold truncate_scopes in Hkids.
      destruct (heap st0 !! x) as [sc0|]; [|done].
      destruct (scopes sc0); [|done]. injection Hkids as <-.
      rewrite update_activeEffectScope.
      by rewrite (stop_scopes_activeEffectScope _ x (fun c => IH c true)
                    _ _ _ _ Hloop).
    - by injection Hkids as <-. }
  unfold field in H. destruct (heap st1 !! x) as [sc1|]; [|done].
  cbn [obind] in H.
  match type of H with
  | obind ?m _ = _ => destruct m as [[] st2| |] eqn:Hun; [|done..]
  end.
  cbn [obind] in H. injection H as <-. rewrite update_activeEffectScope.
  rewrite <- H1. destruct (_ && _ && _).
  - by rewrite (unlink_activeEffectScope _ _ _ Hun).
  - by injection Hun as <-.
Qed.

(** [stop()] returns in a well-formed state, whatever the scope. *)
Lemma stop_returns rank f st s sc :
  wf rank st → heap st !! s = Some sc → nactive st < S f →
  ∃ st', stop stopE runC (S f) s false st = Ret tt st'.
Proof.
  intros Hwf Hs Hfuel.
  destruct (_active sc) eqn:Hact.
  2:{ exists st. cbn [stop]. by rewrite Hs, Hact. }
  pose proof (wf_closed _ _ Hwf) as Hcl.
  pose proof (wf_ranked _ _ Hwf) as Hr.
  destruct (children_ok rank f s sc st (stop_true_ok rank f) Hs Hact Hcl Hr
              Hfuel) as (st_b & new & Hloop & C & Hkids & Hfr).
  assert (heap st_b !! s =
            Some (with_cleanups [] (with_effects [] (with_active false sc))))
    as Hsb.
  { apply (cs_inactive _ _ _ C); [apply begin_stop_lookup | done]. }
  assert (match scopes sc with
          | Some l =>
              obind
                (stop_scopes (fun c => stop stopE runC f c true) s 0 (length l)
                   (begin_stop s sc st))
                (fun _ st1 => Ret tt (update st1 s (with_scopes (Some []))))
          | None => Ret tt (begin_stop s sc st)
          end = Ret tt (after_scopes s sc st_b)) as Hafter.
  { unfold after_scopes.
    destruct (scopes sc) as [l|]; [by rewrite Hloop | done]. }
  destruct (after_scopes_spec s sc st_b Hsb)
    as (scc & Hsc & Hpar & Hidx & Hstopped & Hother & _ & _).
  rewrite (stop_unfold rank _ _ _ _ _ (stop_true_ok rank f) Hs Hact Hcl Hr
             Hfuel), Hafter.
  cbn [obind].
  destruct (negb (detached sc) && bool_decide (is_Some (parent sc))) eqn:Hcond;
    cbn [andb negb obind]; [|by eexists].
  apply andb_prop in Hcond as [Hdet Hsome].
  apply negb_true_iff in Hdet. apply bool_decide_eq_true in Hsome.
  destruct Hsome as [P HP].
  destruct (wf_parent _ _ Hwf s sc P Hs HP Hdet)
    as (psc & l & i & Hpsc & Hl & Hi & Hli).
  assert (rank P < rank s) as Hrank.
  { apply (Hr P psc s Hpsc). unfold child_of. rewrite Hl. cbn.
    by apply list_elem_of_lookup_2 with i. }
  assert (P ≠ s) as Hne by (intros ->; lia).
  assert (heap (after_scopes s sc st_b) !! P = Some psc) as Hpc.
  { rewrite Hother by done. rewrite Hfr by lia.
    by rewrite begin_stop_lookup_ne. }
  destruct (unlink_spec s (after_scopes s sc st_b) scc P psc l)
    as (st_d & Hun & _); [done | congruence | done..|].
  rewrite Hun. cbn [obind]. by eexists.
Qed.

(** [stop()] keeps the scope tree well formed when the callbacks are
    quiet (the [stop] of every effect and every cleanup returns and leaves
    the scopes alone).  In every well-formed state, on every scope, the
    call returns; afterwards arrays, parents and
    indices are consistent again, so that the constant-time removal works
    for the next scope that is stopped; and [activeEffectScope] is what it
    was, also when the stopped scope is the active one. *)
Theorem stop_keeps_wf (rank : loc -> nat) (fuel : nat) (st : state)
    (s : loc) (sc : EffectScope) :
  wf rank st → heap st !! s = Some sc → nactive st < fuel →
  ∃ st',
    stop stopE runC fuel s false st = Ret tt st' ∧
    wf rank st' ∧
    activeEffectScope st' = activeEffectScope st.
Proof.
  intros Hwf Hs Hfuel. destruct fuel as [|f]; [lia|].
  destruct (stop_returns rank f st s sc Hwf Hs Hfuel) as [st' Hstop].
  exists st'. split; [done|]. split.
  - by apply (stop_wf rank (S f) st s sc).
  - by apply (stop_activeEffectScope (S f) s false).
Qed.

(** After [s.stop()] every scope of the array of [s] is inactive. *)
Lemma stop_children_inactive rank f st s sc st' :
  wf rank st → heap st !! s = Some sc → _active sc = true →
  nactive st < S f →
  stop stopE runC (S f) s false st = Ret tt st' →
  ∀ c, child_of sc c → is_inactive st' c.
Proof.
  intros Hwf Hs Hact Hfuel Hstop c Hc.
  destruct (stop_shape rank f st s sc st' Hwf Hs Hact Hfuel Hstop)
    as (st_t & new & C & O & Hst & Hfr & U).
  assert (is_inactive st_t c) as (csc & Hcsc & Hcin).
  { apply (cs_children _ _ _ C s sc c Hs Hact); [|done]. by exists (stopped sc). }
  assert (rank s < rank c) as Hrank by (by apply (wf_ranked _ _ Hwf s sc)).
  destruct U as [[_ Heq]|(P & psc & l & i & Hdet & Hpar & HP & Hl & Hidx &
                           Hi & EP & Eo & Em)].
  - exists csc. by rewrite Heq.
  - assert (rank P < rank s) as HrankP.
    { apply (wf_ranked _ _ Hwf P psc s HP). unfold child_of. rewrite Hl. cbn.
      by apply list_elem_of_lookup_2 with i. }
    assert (c ≠ P) as HcP by (intros ->; lia).
    assert (c ≠ s) as Hcs by (intros ->; lia).
    destruct (decide (last l = Some (Some c))) as [Hlast|Hnl].
    + exists (with_index (Some i) csc). split; [by apply Em | done].
    + exists csc. rewrite Eo; [done..|by left].
Qed.

(** A detached scope is out of reach of [stop] when the callbacks are
    quiet.  When a scope [s] is
    stopped, a detached scope [d] keeps its record, whether it was created
    inside [s] or not, except that [d], being the parent of [s], loses
    [s] from its array: [d] stays active and keeps its effects, its
    cleanups and its parent field. *)
Theorem detached_survives_stop (rank : loc -> nat) (fuel : nat)
    (st : state) (s d : loc) (sc dsc : EffectScope) :
  wf rank st → heap st !! s = Some sc → nactive st < fuel →
  heap st !! d = Some dsc → detached dsc = true → d ≠ s →
  ∃ st' dsc',
    stop stopE runC fuel s false st = Ret tt st' ∧
    heap st' !! d = Some dsc' ∧
    _active dsc' = _active dsc ∧
    effects dsc' = effects dsc ∧
    cleanups dsc' = cleanups dsc ∧
    parent dsc' = parent dsc ∧
    (parent sc ≠ Some d → dsc' = dsc).
Proof.
  intros Hwf Hs Hfuel Hd Hdet Hds. destruct fuel as [|f]; [lia|].
  destruct (stop_returns rank f st s sc Hwf Hs Hfuel) as [st' Hstop].
  exists st'.
  cut (∃ dsc', heap st' !! d = Some dsc' ∧
               _active dsc' = _active dsc ∧ effects dsc' = effects dsc ∧
               cleanups dsc' = cleanups dsc ∧ parent dsc' = parent dsc ∧
               (parent sc ≠ Some d → dsc' = dsc)).
  { intros (dsc' & H). by exists dsc'. }
  destruct (_active sc) eqn:Hact.
  2:{ cbn [stop] in Hstop. rewrite Hs, Hact in Hstop. injection Hstop as <-.
      by exists dsc. }
  destruct (stop_shape rank f st s sc st' Hwf Hs Hact Hfuel Hstop)
    as (st_t & new & C & O & Hst & Hfr & U).
  assert (∀ z zsc, heap st !! z = Some zsc → ¬ child_of zsc d) as Hnochild.
  { intros z zsc Hz Hc. unfold child_of in Hc.
    destruct (scopes zsc) as [l|] eqn:Hl; [|by apply elem_of_nil in Hc].
    cbn in Hc. apply list_elem_of_lookup in Hc as [j Hj].
    destruct (wf_children _ _ Hwf z zsc l j _ Hz Hl Hj)
      as (cl & csc & [= <-] & Hcl & _ & _ & Hdet').
    congruence. }
  assert (heap st_t !! d = Some dsc) as Hdt.
  { destruct (_active dsc) eqn:Hdact.
    - destruct (cs_active _ _ _ C d dsc Hd Hdact) as [[Hsame _]|[Hstopped _]];
        [done|].
      destruct (O d dsc Hd Hdact) as [Heq|(z & zsc & Hz & _ & _ & Hc)].
      + by exists (stopped dsc).
      + congruence.
      + by destruct (Hnochild z zsc Hz).
    - by apply (cs_inactive _ _ _ C). }
  destruct U as [[_ Heq]|(P & psc & l & i & Hdet' & Hpar & HP & Hl & Hidx &
                           Hi & EP & Eo & Em)].
  - exists dsc. by rewrite Heq.
  - destruct (decide (d = P)) as [->|HdP].
    + rewrite HP in Hd. injection Hd as <-. eexists. split; [exact EP|].
      by repeat split.
    + exists dsc. rewrite Eo; [done..|]. left. intros Hlast.
      apply (Hnochild P psc HP). unfold child_of. rewrite Hl. cbn.
      rewrite last_lookup in Hlast. by apply list_elem_of_lookup_2 in Hlast.
Qed.

(** Scopes created inside [run] are collected: after
    [s.run(() => new EffectScope())] the new scope is the last child of
    [s], the active scope is what it was before, and [s.stop()], when the
    callbacks are quiet, stops the new scope too. *)
Theorem run_collects_scopes (rank : loc -> nat) (fuel : nat) (st : state)
    (s : loc) (sc : EffectScope) :
  wf rank st → heap st !! s = Some sc → _active sc = true →
  S (nactive st) < fuel →
  let create := fun st1 =>
    Ret (fst (new_EffectScope false st1)) (snd (new_EffectScope false st1)) in
  ∃ c st1 st2 csc,
    run s create st = Ret (Some c) st1 ∧
    heap st !! c = None ∧
    activeEffectScope st1 = activeEffectScope st ∧
    heap st1 !! c = Some csc ∧ _active csc = true ∧ parent csc = Some s ∧
    index csc = Some (length (default [] (scopes sc))) ∧
    heap st1 !! s =
      Some (with_scopes (Some (default [] (scopes sc) ++ [Some c])) sc) ∧
    stop stopE runC fuel s false st1 = Ret tt st2 ∧
    is_inactive st2 c ∧ is_inactive st2 s.
Proof.
  intros Hwf Hs Hact Hfuel create.
  set (st0 := set_activeEffectScope st (Some s)).
  set (c := fst (new_EffectScope false st0)).
  set (stc := snd (new_EffectScope false st0)).
  assert (wf rank st0) as Hwf0 by (by apply (wf_same_heap rank st)).
  assert (wf (rank_new rank st0) stc) as Hwfc.
  { apply new_EffectScope_wf; [done|]. intros a [= <-]. by exists sc. }
  assert (heap st !! c = None) as Hfresh.
  { unfold c. rewrite new_EffectScope_fst. apply (fresh_scope_None st0). }
  assert (c ≠ s) as Hcs by (intros Heq; rewrite Heq in Hfresh; congruence).
  set (l := default [] (scopes sc)).
  set (csc := mkScope true 0 [] [] false (Some s) None (Some (length l))
                false None).
  set (sc' := with_scopes (Some (l ++ [Some c])) sc).
  assert (heap stc = <[c := csc]> (<[s := sc']> (heap st))) as Hheap.
  { assert (c = fresh (dom (heap st))) as ->
      by apply (new_EffectScope_fst false st0).
    unfold stc, new_EffectScope.
    cbn [activeEffectScope st0 set_activeEffectScope negb heap].
    rewrite Hs. reflexivity. }
  set (st1 := set_activeEffectScope stc (activeEffectScope st)).
  assert (wf (rank_new rank st0) st1) as Hwf1
    by (by apply (wf_same_heap _ stc)).
  assert (heap st1 !! s = Some sc') as Hs1.
  { cbn [st1 heap set_activeEffectScope]. rewrite Hheap.
    rewrite lookup_insert_ne by done. apply lookup_insert_eq. }
  assert (heap st1 !! c = Some csc) as Hc1.
  { cbn [st1 heap set_activeEffectScope]. rewrite Hheap.
    apply lookup_insert_eq. }
  assert (nactive st1 ≤ S (nactive st)) as Hn.
  { unfold nactive. cbn [st1 heap set_activeEffectScope]. rewrite Hheap.
    rewrite map_filter_insert_True by done.
    rewrite map_size_insert_None.
    2:{ apply map_lookup_filter_None. left.
        by rewrite lookup_insert_ne by done. }
    apply le_n_S. rewrite map_filter_insert_True by done.
    rewrite map_size_insert_Some; [done|].
    exists sc. apply map_lookup_filter_Some. by split. }
  destruct fuel as [|f]; [lia|].
  destruct (stop_returns (rank_new rank st0) f st1 s sc' Hwf1 Hs1)
    as [st2 Hstop]; [lia|].
  exists c, st1, st2, csc.
  split.
  { unfold run. rewrite Hs, Hact. reflexivity. }
  split; [done|]. split; [done|]. split; [done|]. split; [done|].
  split; [done|]. split; [done|]. split; [done|]. split; [done|].
  split.
  - apply (stop_children_inactive (rank_new rank st0) f st1 s sc' st2);
      try done; [lia|].
    unfold child_of, sc'. cbn. apply elem_of_app. right.
    by apply list_elem_of_singleton.
  - (* the scope itself *)
    destruct (stop_shape (rank_new rank st0) f st1 s sc' st2 Hwf1 Hs1 Hact)
      as (st_t & new & C & O & Hst & Hfr & U); [lia | done |].
    destruct U as [[_ Heq]|(P & psc & l0 & i & Hdet' & Hpar & HP & Hl & Hidx &
                             Hi & EP & Eo & Em)].
    + exists (stopped sc'). by rewrite Heq.
    + assert (rank_new rank st0 P < rank_new rank st0 s) as HrankP.
      { apply (wf_ranked _ _ Hwf1 P psc s HP). unfold child_of. rewrite Hl.
        cbn. by apply list_elem_of_lookup_2 with i. }
      exists (stopped sc'). rewrite Eo; [done| |by right].
      intros ->. lia.
Qed.

End Quiet.

(** One call of [on] and of [off] in the three situations. *)
Lemma on_first st s sc :
  heap st !! s = Some sc → _on sc = 0 →
  on s st = Ret tt (switched_on st s sc 1).
Proof.
  intros Hs H0. unfold on. rewrite Hs, H0. unfold incr.
  rewrite bool_decide_eq_true_2 by done.
  rewrite bool_decide_eq_true_2 by done.
  unfold update. rewrite Hs. cbn [heap set_heap].
  rewrite lookup_insert_eq. cbn [heap set_heap activeEffectScope].
  by rewrite insert_insert_eq.
Qed.

Lemma on_next st s sc n :
  0 < n → (Z.of_nat n < 2 ^ 53)%Z →
  on s (switched_on st s sc n) = Ret tt (switched_on st s sc (S n)).
Proof.
  intros Hn Hlt. unfold on, switched_on. cbn [heap].
  rewrite lookup_insert_eq. cbn [_on with_prevScope with_on]. unfold incr.
  rewrite (bool_decide_eq_true_2 (Z.of_nat n < 2 ^ 53)%Z) by done.
  rewrite bool_decide_eq_false_2 by lia.
  unfold update. cbn [heap]. rewrite lookup_insert_eq.
  unfold set_heap. cbn [heap activeEffectScope log].
  by rewrite insert_insert_eq.
Qed.

Lemma off_inner st s sc n :
  0 < n →
  off s (switched_on st s sc (S n)) = Ret tt (switched_on st s sc n).
Proof.
  intros Hn. unfold off, switched_on. cbn [heap].
  rewrite lookup_insert_eq. cbn [_on with_prevScope with_on].
  rewrite bool_decide_eq_true_2 by lia.
  rewrite bool_decide_eq_false_2 by lia.
  unfold update. cbn [heap]. rewrite lookup_insert_eq.
  unfold set_heap. cbn [heap activeEffectScope log].
  rewrite insert_insert_eq. by replace (S n - 1) with n by lia.
Qed.

Lemma off_last st s sc :
  heap st !! s = Some sc → _on sc = 0 → prevScope sc = None →
  off s (switched_on st s sc 1) = Ret tt st.
Proof.
  intros Hs H0 Hprev. unfold off, switched_on. cbn [heap].
  rewrite lookup_insert_eq. cbn [_on with_prevScope with_on prevScope].
  rewrite bool_decide_eq_true_2 by lia.
  rewrite bool_decide_eq_true_2 by done.
  unfold update, set_activeEffectScope. cbn [heap].
  rewrite lookup_insert_eq. unfold set_heap. cbn [heap activeEffectScope log].
  rewrite insert_insert_eq, lookup_insert_eq, insert_insert_eq.
  assert (with_prevScope None
            (with_on (1 - 1) (with_prevScope (activeEffectScope st)
                                (with_on 1 sc))) = sc) as ->.
  { destruct sc. cbn in *. by subst. }
  rewrite insert_id by done. by destruct st.
Qed.

Lemma times_on st s sc k n :
  0 < n → (Z.of_nat (n + k) ≤ 2 ^ 53)%Z →
  times k (on s) (switched_on st s sc n) =
    Ret tt (switched_on st s sc (n + k)).
Proof.
  revert n. induction k as [|k IH]; intros n Hn Hle; cbn [times].
  - by rewrite Nat.add_0_r.
  - rewrite on_next by lia. cbn [obind]. rewrite IH by lia.
    by replace (S n + k) with (n + S k) by lia.
Qed.

Lemma times_off_inner st s sc j n :
  0 < n →
  times j (off s) (switched_on st s sc (n + j)) =
    Ret tt (switched_on st s sc n).
Proof.
  revert n. induction j as [|j IH]; intros n Hn; cbn [times].
  - by rewrite Nat.add_0_r.
  - replace (n + S j) with (S (n + j)) by lia.
    rewrite off_inner by lia. cbn [obind]. by apply IH.
Qed.

(** [on] and [off] nest.  From a scope that is switched off, [k] calls of
    [on] make it the active scope and remember the scope that was active;
    the active scope stays [s] until the last of [k] calls of [off], which
    puts back the remembered scope and leaves the state exactly as it was
    before the first [on]. *)
Theorem on_off_balanced (s : loc) (sc : EffectScope) (st : state)
    (k : nat) :
  heap st !! s = Some sc → _on sc = 0 → prevScope sc = None →
  1 ≤ k → (Z.of_nat k ≤ 2 ^ 53)%Z →
  ∃ st_on,
    times k (on s) st = Ret tt st_on ∧
    activeEffectScope st_on = Some s ∧
    heap st_on !! s =
      Some (with_prevScope (activeEffectScope st) (with_on k sc)) ∧
    (∀ j, j < k →
          ∃ st_j, times j (off s) st_on = Ret tt st_j ∧
                  activeEffectScope st_j = Some s) ∧
    times k (off s) st_on = Ret tt st.
Proof.
  intros Hs H0 Hprev Hk Hle. destruct k as [|k]; [lia|].
  exists (switched_on st s sc (S k)).
  split.
  { cbn [times]. rewrite (on_first _ _ _ Hs H0). cbn [obind].
    apply (times_on st s sc k 1); lia. }
  split; [done|].
  split; [apply lookup_insert_eq|].
  split.
  - intros j Hj. exists (switched_on st s sc (S k - j)). split; [|done].
    replace (S k) with ((S k - j) + j) at 1 by lia.
    apply times_off_inner. lia.
  - replace (S k) with (1 + k) at 2 by lia.
    assert (∀ m f st0 st1,
              times m f st0 = Ret tt st1 →
              times (S m) f st0 = f st1) as Hsnoc.
    { intros m f. induction m as [|m IH]; intros st0 st1 H; cbn [times] in *.
      - injection H as <-. by destruct (f st0) as [[] ?| |].
      - destruct (f st0) as [[] st0'| |]; cbn [obind] in *; [|done..].
        by apply IH. }
    replace (S k) with (S k) by done.
    rewrite (Hsnoc k (off s) _ (switched_on st s sc 1)).
    + by apply off_last.
    + apply (times_off_inner st s sc k 1). lia.
Qed.

Lemma run_spec_witness :
  ∃ st',
    run 1%positive (fun st => Ret 42 st) Samples.st_scopes =
      Ret (Some 42) st' ∧
    activeEffectScope st' = activeEffectScope Samples.st_scopes.
Proof.
  destruct (run_spec 1%positive Samples.parentScope
              (fun st => Ret 42 st) Samples.st_scopes eq_refl)
    as [Hactive _].
  destruct (Hactive eq_refl) as [_ (st' & Hrun & Haes & _)].
  exists st'. split; [exact Hrun | exact Haes].
Defined.

Lemma wf_sample : wf Pos.to_nat Samples.st_scopes.
Proof.
  split.
  - intros p sc l i c Hp Hl Hi. cbn in Hp.
    apply lookup_insert_Some in Hp as [[<- <-]|[_ Hp]].
    + injection Hl as <-. destruct i as [|i]; [|done].
      injection Hi as <-. by exists 2%positive, Samples.childScope.
    + apply lookup_insert_Some in Hp as [[<- <-]|[_ Hp]]; done.
  - intros c csc p Hc Hp Hdet. cbn in Hc.
    apply lookup_insert_Some in Hc as [[<- <-]|[_ Hc]]; [done|].
    apply lookup_insert_Some in Hc as [[<- <-]|[_ Hc]]; [|done].
    injection Hp as <-. by exists Samples.parentScope, [Some 2%positive], 0.
  - intros y sc Hy Hact. cbn in Hy.
    apply lookup_insert_Some in Hy as [[<- <-]|[_ Hy]]; [done|].
    apply lookup_insert_Some in Hy as [[<- <-]|[_ Hy]]; done.
  - intros p sc c Hp Hc. cbn in Hp.
    apply lookup_insert_Some in Hp as [[<- <-]|[_ Hp]].
    + unfold child_of in Hc. cbn in Hc.
      apply list_elem_of_singleton in Hc. injection Hc as ->. cbn. lia.
    + apply lookup_insert_Some in Hp as [[<- <-]|[_ Hp]]; [|done].
      unfold child_of in Hc. cbn in Hc. by apply elem_of_nil in Hc.
Qed.

(** *** pause and resume *)

Lemma same_shape_refl st : same_shape st st.
Proof. intros y. by destruct (heap st !! y). Qed.

Lemma same_shape_sym st st' : same_shape st st' → same_shape st' st.
Proof.
  intros H y. specialize (H y).
  destruct (heap st !! y), (heap st' !! y); try done.
  destruct H as (? & ? & ? & ?). by repeat split.
Qed.


Lemma same_shape_lookup st st' y sc :
  same_shape st st' → heap st !! y = Some sc →
  ∃ sc', heap st' !! y = Some sc' ∧ alike sc sc'.
Proof.
  intros H Hy. specialize (H y). rewrite Hy in H.
  destruct (heap st' !! y) as [sc'|]; [|done]. by exists sc'.
Qed.

Lemma same_shape_child st st' p sc c :
  same_shape st st' → heap st !! p = Some sc → child_of sc c →
  ∃ sc', heap st' !! p = Some sc' ∧ child_of sc' c.
Proof.
  intros H Hp Hc. destruct (same_shape_lookup _ _ _ _ H Hp)
    as (sc' & Hp' & Hsc & _).
  exists sc'. split; [done|]. unfold child_of. by rewrite Hsc.
Qed.

Lemma same_shape_desc st st' x y :
  same_shape st st' → desc st x y → desc st' x y.
Proof.
  intros H Hd. induction Hd as [x|x sc c d Hx Hc Hd IH]; [constructor|].
  destruct (same_shape_child _ _ _ _ _ H Hx Hc) as (sc' & Hx' & Hc').
  by apply (desc_step st' x sc' c).
Qed.

Lemma same_shape_tree rank N st st' :
  tree_ok rank N st → same_shape st st' → tree_ok rank N st'.
Proof.
  intros [Hcl Hr Hch Hnd Hb] H.
  pose proof (same_shape_sym _ _ H) as H'.
  split.
  - intros p sc' l i c Hp Hl Hi.
    destruct (same_shape_lookup _ _ _ _ H' Hp) as (sc & Hp0 & Hsc & _).
    rewrite Hl in Hsc.
    destruct (Hcl p sc l i c Hp0 Hsc Hi) as (cl & -> & [csc Hcsc]).
    exists cl. split; [done|].
    destruct (same_shape_lookup _ _ _ _ H Hcsc) as (csc' & ? & _).
    by eexists.
  - intros p sc' c Hp Hc.
    destruct (same_shape_child _ _ _ _ _ H' Hp Hc) as (sc & Hp0 & Hc0).
    by apply (Hr p sc).
  - intros p sc' c Hp Hc.
    destruct (same_shape_child _ _ _ _ _ H' Hp Hc) as (sc & Hp0 & Hc0).
    destruct (Hch p sc c Hp0 Hc0) as (csc & Hcsc & Hact & Hpar).
    destruct (same_shape_lookup _ _ _ _ H Hcsc)
      as (csc' & Hcsc' & _ & Hact' & Hpar' & _).
    exists csc'. split; [done|]. split; congruence.
  - intros p sc' l Hp Hl.
    destruct (same_shape_lookup _ _ _ _ H' Hp) as (sc & Hp0 & Hsc & _).
    rewrite Hl in Hsc. by apply (Hnd p sc).
  - intros y [sc' Hy]. apply Hb.
    destruct (same_shape_lookup _ _ _ _ H' Hy) as (sc & ? & _).
    by eexists.
Qed.

Lemma alike_with_isPaused b sc : alike sc (with_isPaused b sc).
Proof. by repeat split. Qed.

Lemma sweep_same_shape b made D st calls st' :
  sweep b made D st calls st' → same_shape st st'.
Proof.
  intros S y. destruct (sw_either _ _ _ _ _ _ S y) as [-> | ->].
  - by destruct (heap st !! y).
  - destruct (heap st !! y); [apply alike_with_isPaused | done].
Qed.

Lemma update_same_shape st x b :
  same_shape st (update st x (with_isPaused b)).
Proof.
  intros y. unfold update. destruct (heap st !! x) as [sc|] eqn:Hx.
  - cbn [heap set_heap]. destruct (decide (y = x)) as [->|Hne].
    + rewrite lookup_insert_eq, Hx. apply alike_with_isPaused.
    + rewrite lookup_insert_ne by done. by destruct (heap st !! y).
  - by destruct (heap st !! y).
Qed.

Lemma tree_ok_of_wf rank N st :
  wf rank st → (∀ y, is_Some (heap st !! y) → rank y ≤ N) →
  tree_ok rank N st.
Proof.
  intros Hwf Hb. split; [by apply (wf_closed rank) | apply Hwf | | | done].
  - intros p sc c Hp Hc.
    destruct (wf_child_lookup _ _ _ _ _ Hwf Hp Hc)
      as (l & i & csc & _ & _ & Hcsc & Hpar & _).
    exists csc. split; [done|]. split; [|done].
    destruct (_active csc) eqn:Hact; [done|].
    rewrite (wf_inactive _ _ Hwf c csc Hcsc Hact) in Hpar. done.
  - intros p sc l Hp Hl. by apply (wf_children_NoDup rank st p sc).
Qed.

Lemma rank_bounded (rank : loc → nat) (st : state) :
  ∃ N, ∀ y, is_Some (heap st !! y) → rank y ≤ N.
Proof.
  induction (heap st) as [|i x m Hi IH] using map_ind.
  - exists 0. intros y [? H]. by rewrite lookup_empty in H.
  - destruct IH as [N HN]. exists (Nat.max N (rank i)).
    intros y [sc Hy]. apply lookup_insert_Some in Hy as [[<- _]|[_ Hy]];
      [lia|].
    assert (rank y ≤ N) by (apply HN; by eexists). lia.
Qed.

Lemma desc_rank rank st a y :
  ranked rank st → desc st a y → rank a ≤ rank y.
Proof.
  intros Hr Hd. induction Hd as [x|x sc c d Hx Hc Hd IH]; [done|].
  pose proof (Hr x sc c Hx Hc). lia.
Qed.

Lemma desc_trans st a b y : desc st a b → desc st b y → desc st a y.
Proof.
  intros Hab Hby. induction Hab as [x|x sc c d Hx Hc Hd IH]; [done|].
  apply (desc_step st x sc c); [done..|]. by apply IH.
Qed.

Lemma tree_parent_unique rank N st a asc b bsc c :
  tree_ok rank N st →
  heap st !! a = Some asc → child_of asc c →
  heap st !! b = Some bsc → child_of bsc c → a = b.
Proof.
  intros T Ha Hac Hb Hbc.
  destruct (tr_child _ _ _ T a asc c Ha Hac) as (csc & Hc & _ & Hpa).
  destruct (tr_child _ _ _ T b bsc c Hb Hbc) as (csc' & Hc' & _ & Hpb).
  congruence.
Qed.

(** A proper ancestor of a scope is an ancestor of its parent. *)
Lemma desc_through_parent rank N st b c a asc :
  tree_ok rank N st → desc st b c → b ≠ c →
  heap st !! a = Some asc → child_of asc c → desc st b a.
Proof.
  intros T Hd. induction Hd as [x|x sc c' d Hx Hc Hd IH]; [done|].
  intros Hne Ha Hac. destruct (decide (c' = d)) as [->|Hne'].
  - rewrite (tree_parent_unique _ _ _ _ _ _ _ _ T Hx Hc Ha Hac).
    constructor.
  - apply (desc_step st x sc c'); [done..|]. by apply IH.
Qed.

(** The ancestors of a scope form a chain. *)
Lemma desc_chain rank N st a b y :
  tree_ok rank N st → desc st a y → desc st b y →
  desc st a b ∨ desc st b a.
Proof.
  intros T Ha. revert b. induction Ha as [x|x sc c d Hx Hc Hd IH];
    intros b Hb; [by right|].
  destruct (IH b Hb) as [Hcb|Hbc].
  - left. by apply (desc_step st x sc c).
  - destruct (decide (b = c)) as [->|Hne].
    + left. apply (desc_step st x sc c); [done..|constructor].
    + right. by apply (desc_through_parent rank N st b c x sc).
Qed.

(** Two children of a scope have no descendant in common. *)
Lemma sibling_disjoint rank N st x sc c1 c2 y :
  tree_ok rank N st → heap st !! x = Some sc →
  child_of sc c1 → child_of sc c2 → c1 ≠ c2 →
  desc st c1 y → desc st c2 y → False.
Proof.
  intros T Hx H1 H2 Hne Hd1 Hd2.
  assert (∀ a b, child_of sc a → child_of sc b → a ≠ b → desc st a b → False)
    as Hno.
  { intros a b Ha Hb Hab Hd.
    pose proof (desc_through_parent rank N st a b x sc T Hd Hab Hx Hb) as Hax.
    pose proof (desc_rank rank st a x (tr_ranked _ _ _ T) Hax).
    pose proof (tr_ranked _ _ _ T x sc a Hx Ha). lia. }
  destruct (desc_chain rank N st c1 c2 y T Hd1 Hd2) as [H|H].
  - by apply (Hno c1 c2).
  - by apply (Hno c2 c1).
Qed.

Lemma desc_inv st x y :
  desc st x y →
  y = x ∨ ∃ sc c, heap st !! x = Some sc ∧ child_of sc c ∧ desc st c y.
Proof. intros [|? sc c d Hx Hc Hd]; [by left | right; by exists sc, c]. Qed.

Lemma calls_of_app y a b : calls_of y (a ++ b) = calls_of y a ++ calls_of y b.
Proof. unfold calls_of. apply List.filter_app. Qed.

Lemma calls_of_own (made : loc → positive → effect_call) y effs :
  (∀ z e, scope_of (made z e) = z) →
  calls_of y (map (made y) effs) = map (made y) effs.
Proof.
  intros Hmade. unfold calls_of. induction effs as [|e effs IH]; [done|].
  cbn [map List.filter]. rewrite Hmade, bool_decide_eq_true_2 by done.
  by rewrite IH.
Qed.

Lemma calls_of_other (made : loc → positive → effect_call) y x effs :
  (∀ z e, scope_of (made z e) = z) → y ≠ x →
  calls_of y (map (made x) effs) = [].
Proof.
  intros Hmade Hne. unfold calls_of. induction effs as [|e effs IH]; [done|].
  cbn [map List.filter]. rewrite Hmade, bool_decide_eq_false_2 by done.
  by rewrite IH.
Qed.

Lemma sweep_nil b made (D : loc → Prop) st :
  (∀ y, ¬ D y) → sweep b made D st [] st.
Proof.
  intros HD. split; try done.
  - intros y sc Hy. by destruct (HD y).
  - intros y. by left.
Qed.

Lemma sweep_ext b made (D D' : loc → Prop) st calls st' :
  (∀ y, D y ↔ D' y) → sweep b made D st calls st' →
  sweep b made D' st calls st'.
Proof.
  intros HD [H1 H2 H3 H4 H5]. split; try done.
  - intros y sc Hy. apply H1. by apply HD.
  - intros y Hy. apply H2. intros Hn. apply Hy. by apply HD.
Qed.

(** Two sweeps over disjoint sets, one after the other. *)
Lemma sweep_trans b made (D1 D2 : loc → Prop) st c1 st1 c2 st2 :
  sweep b made D1 st c1 st1 → sweep b made D2 st1 c2 st2 →
  (∀ y, D1 y → D2 y → False) →
  sweep b made (fun y => D1 y ∨ D2 y) st (c1 ++ c2) st2.
Proof.
  intros S1 S2 Hdis. split.
  - intros y sc [Hy|Hy] Hsc.
    + destruct (sw_in _ _ _ _ _ _ S1 y sc Hy Hsc) as [Hh Hc].
      destruct (sw_out _ _ _ _ _ _ S2 y (Hdis y Hy)) as [Hh' Hc'].
      rewrite calls_of_app, Hc, Hc', app_nil_r. split; congruence.
    + destruct (sw_out _ _ _ _ _ _ S1 y (fun H => Hdis y H Hy)) as [Hh Hc].
      rewrite <- Hh in Hsc.
      destruct (sw_in _ _ _ _ _ _ S2 y sc Hy Hsc) as [Hh' Hc'].
      rewrite calls_of_app, Hc, Hc'. done.
  - intros y Hy.
    destruct (sw_out _ _ _ _ _ _ S1 y (fun H => Hy (or_introl H))) as [Hh Hc].
    destruct (sw_out _ _ _ _ _ _ S2 y (fun H => Hy (or_intror H)))
      as [Hh' Hc'].
    rewrite calls_of_app, Hc, Hc'. split; [congruence | done].
  - intros y.
    destruct (sw_either _ _ _ _ _ _ S1 y) as [E1|E1],
      (sw_either _ _ _ _ _ _ S2 y) as [E2|E2]; rewrite E2, E1;
      [by left | by right | by right |].
    right. by destruct (heap st !! y).
  - by rewrite (sw_log _ _ _ _ _ _ S2), (sw_log _ _ _ _ _ _ S1).
  - by rewrite (sw_activeEffectScope _ _ _ _ _ _ S2),
      (sw_activeEffectScope _ _ _ _ _ _ S1).
Qed.

Section Sweep.

Variables (rank : loc → nat) (N : nat) (b : bool).
Variable made : loc → positive → effect_call.
Hypothesis made_scope : ∀ z e, scope_of (made z e) = z.

(** The method that the loop calls on the child scopes, and what it needs
    of a child. *)
Variable call : loc → state → outcome (list effect_call).
Variable ready : state → loc → Prop.
Variable x : loc.

Hypothesis call_ok : ∀ c st,
  tree_ok rank N st →
  (∃ csc, heap st !! c = Some csc ∧ _active csc = true) →
  rank x < rank c → ready st c →
  ∃ calls st',
    call c st = Ret calls st' ∧ sweep b made (desc st c) st calls st'.

Hypothesis ready_stable : ∀ c st (D : loc → Prop) calls st',
  ready st c → sweep b made D st calls st' →
  (∀ y, desc st c y → ¬ D y) → ready st' c.

(** The loop over the child scopes sweeps the scopes below them. *)
Lemma each_scope_ok (l : list (option loc)) :
  ∀ n i st sc,
    tree_ok rank N st →
    heap st !! x = Some sc → scopes sc = Some l →
    i + n = length l →
    (∀ j c, i ≤ j → l !! j = Some (Some c) → ready st c) →
    ∃ calls st',
      each_scope call x i n st = Ret calls st' ∧
      sweep b made
        (fun y => ∃ j c, i ≤ j ∧ l !! j = Some (Some c) ∧ desc st c y)
        st calls st'.
Proof.
  induction n as [|n IH]; intros i st sc T Hx Hl Hlen Hready.
  - exists [], st. split; [done|]. apply sweep_nil.
    intros y (j & c & Hij & Hj & _). apply lookup_lt_Some in Hj. lia.
  - assert (i < length l) as Hi by lia.
    destruct (lookup_lt_is_Some_2 l i Hi) as [oc Hoc].
    destruct (tr_closed _ _ _ T x sc l i oc Hx Hl Hoc) as (c & -> & _).
    assert (child_of sc c) as Hc.
    { unfold child_of. rewrite Hl. cbn. by apply list_elem_of_lookup_2 with i. }
    destruct (tr_child _ _ _ T x sc c Hx Hc) as (csc & Hcsc & Hact & _).
    destruct (call_ok c st T) as (c1 & st1 & Hcall & S1);
      [by exists csc | by apply (tr_ranked _ _ _ T x sc) | by apply (Hready i)
      |].
    pose proof (sweep_same_shape _ _ _ _ _ _ S1) as Hshape.
    pose proof (same_shape_tree _ _ _ _ T Hshape) as T1.
    destruct (same_shape_lookup _ _ _ _ Hshape Hx) as (sc1 & Hx1 & Hsc1 & _).
    rewrite Hl in Hsc1.
    assert (∀ j c', S i ≤ j → l !! j = Some (Some c') →
                    ∀ y, desc st c' y → ¬ desc st c y) as Hdis.
    { intros j c' Hj Hlj y Hd' Hd.
      apply (sibling_disjoint rank N st x sc c c' y T Hx Hc); try done.
      - unfold child_of. rewrite Hl. cbn.
        by apply list_elem_of_lookup_2 with j.
      - intros ->.
        pose proof (NoDup_lookup l i j (Some c')
                      (tr_nodup _ _ _ T x sc l Hx Hl) Hoc Hlj). lia. }
    destruct (IH (S i) st1 sc1 T1 Hx1 Hsc1) as (c2 & st2 & Hrest & S2);
      [lia| |].
    { intros j c' Hj Hlj.
      apply (ready_stable c' st (desc st c) c1 st1); [|done|].
      - apply (Hready j); [lia | done].
      - by apply (Hdis j c'). }
    exists (c1 ++ c2), st2. split.
    { cbn [each_scope]. rewrite Hx, Hl, Hoc, Hcall. cbn [obind].
      by rewrite Hrest. }
    apply (sweep_ext b made
             (fun y => desc st c y ∨
                       ∃ j c', S i ≤ j ∧ l !! j = Some (Some c') ∧
                               desc st1 c' y)).
    + intros y. split.
      * intros [Hd|(j & c' & Hj & Hlj & Hd)].
        -- exists i, c. by repeat split.
        -- exists j, c'. split; [lia|]. split; [done|].
           apply (same_shape_desc st1 st); [by apply same_shape_sym | done].
      * intros (j & c' & Hj & Hlj & Hd).
        destruct (decide (j = i)) as [->|Hne].
        -- left. rewrite Hoc in Hlj. by injection Hlj as <-.
        -- right. exists j, c'. split; [lia|]. split; [done|].
           by apply (same_shape_desc st st1).
    + apply (sweep_trans _ _ _ _ _ _ _ _ _ S1 S2).
      intros y Hd (j & c' & Hj & Hlj & Hd').
      apply (Hdis j c' Hj Hlj y); [|done].
      apply (same_shape_desc st1 st); [by apply same_shape_sym | done].
Qed.

(** The scope itself: its flag before the loop, its effects after it. *)
Lemma own_sweep st sc :
  tree_ok rank N st →
  heap st !! x = Some sc →
  (∀ c, child_of sc c → ready (update st x (with_isPaused b)) c) →
  ∃ calls st',
    obind
      (match scopes sc with
       | Some l =>
           each_scope call x 0 (length l) (update st x (with_isPaused b))
       | None => Ret [] (update st x (with_isPaused b))
       end)
      (each_effect made x) = Ret calls st' ∧
    sweep b made (desc st x) st calls st' ∧
    ∃ before, calls = before ++ map (made x) (effects sc) ∧
              calls_of x before = [].
Proof.
  intros T Hx Hready.
  set (st0 := update st x (with_isPaused b)) in *.
  pose proof (update_same_shape st x b) as Hshape0. fold st0 in Hshape0.
  pose proof (same_shape_tree _ _ _ _ T Hshape0) as T0.
  assert (heap st0 !! x = Some (with_isPaused b sc)) as Hx0.
  { unfold st0, update. rewrite Hx. apply lookup_insert_eq. }
  assert (∀ y, y ≠ x → heap st0 !! y = heap st !! y) as Hother.
  { intros y Hy. unfold st0, update. rewrite Hx. cbn [heap set_heap].
    by rewrite lookup_insert_ne. }
  set (Dch := fun y => ∃ c, child_of sc c ∧ desc st c y).
  assert (∃ c1 st1,
            match scopes sc with
            | Some l => each_scope call x 0 (length l) st0
            | None => Ret [] st0
            end = Ret c1 st1 ∧ sweep b made Dch st0 c1 st1)
    as (c1 & st1 & -> & S1).
  { destruct (scopes sc) as [l|] eqn:Hl.
    - destruct (each_scope_ok l (length l) 0 st0 (with_isPaused b sc) T0 Hx0
                  Hl eq_refl) as (c1 & st1 & Hloop & S1).
      { intros j c _ Hj. apply Hready. unfold child_of. rewrite Hl. cbn.
        by apply list_elem_of_lookup_2 with j. }
      exists c1, st1. split; [done|].
      eapply sweep_ext; [|exact S1]. intros y. cbv beta. split.
      + intros (j & c & _ & Hj & Hd). exists c. split.
        * unfold child_of. rewrite Hl. cbn.
          by apply list_elem_of_lookup_2 with j.
        * apply (same_shape_desc st0 st); [by apply same_shape_sym | done].
      + intros (c & Hc & Hd). unfold child_of in Hc. rewrite Hl in Hc.
        cbn in Hc. apply list_elem_of_lookup in Hc as [j Hj].
        exists j, c. split; [lia|]. split; [done|].
        by apply (same_shape_desc st st0).
    - exists [], st0. split; [done|]. apply sweep_nil.
      intros y (c & Hc & _). unfold child_of in Hc. rewrite Hl in Hc.
      by apply elem_of_nil in Hc. }
  assert (¬ Dch x) as HDx.
  { intros (c & Hc & Hd).
    pose proof (desc_rank rank st c x (tr_ranked _ _ _ T) Hd).
    pose proof (tr_ranked _ _ _ T x sc c Hx Hc). lia. }
  destruct (sw_out _ _ _ _ _ _ S1 x HDx) as [Hx1 Hcx].
  rewrite Hx0 in Hx1.
  exists (c1 ++ map (made x) (effects sc)), st1.
  split; [cbn [obind]; unfold each_effect; by rewrite Hx1|].
  split; [|by exists c1].
  split.
  - intros y ysc Hd Hy. apply desc_inv in Hd as [->|(sc' & c & Hx' & Hc & Hd)].
    + rewrite Hx in Hy. injection Hy as <-. split; [done|].
      by rewrite calls_of_app, Hcx, calls_of_own.
    + rewrite Hx in Hx'. injection Hx' as <-.
      assert (y ≠ x) as Hne.
      { intros ->. apply HDx. by exists c. }
      destruct (sw_in _ _ _ _ _ _ S1 y ysc) as [Hh Hc1];
        [by exists c | by rewrite Hother |].
      split; [done|].
      by rewrite calls_of_app, Hc1, (calls_of_other made y x), app_nil_r.
  - intros y Hy.
    assert (y ≠ x) as Hne by (intros ->; apply Hy; constructor).
    assert (¬ Dch y) as HD.
    { intros (c & Hc & Hd). apply Hy. by apply (desc_step st x sc c). }
    destruct (sw_out _ _ _ _ _ _ S1 y HD) as [Hh Hc1].
    split; [by rewrite Hh, Hother|].
    by rewrite calls_of_app, Hc1, (calls_of_other made y x).
  - intros y. destruct (decide (y = x)) as [->|Hne].
    + right. by rewrite Hx1, Hx.
    + rewrite <- (Hother y Hne). apply (sw_either _ _ _ _ _ _ S1).
  - rewrite (sw_log _ _ _ _ _ _ S1). unfold st0, update.
    by destruct (heap st !! x).
  - rewrite (sw_activeEffectScope _ _ _ _ _ _ S1). unfold st0, update.
    by destruct (heap st !! x).
Qed.

End Sweep.

Lemma pause_ok rank N fuel :
  ∀ x st sc,
    tree_ok rank N st → heap st !! x = Some sc → _active sc = true →
    N - rank x < fuel →
    ∃ calls st',
      pause fuel x st = Ret calls st' ∧
      sweep true Paused (desc st x) st calls st' ∧
      ∃ before, calls = before ++ map (Paused x) (effects sc) ∧
                calls_of x before = [].
Proof.
  induction fuel as [|f IH]; intros x st sc T Hx Hact Hf; [lia|].
  cbn [pause]. rewrite Hx, Hact.
  apply (own_sweep rank N true Paused (fun _ _ => eq_refl) (pause f)
           (fun _ _ => True) x); try done.
  intros c st0 T0 (csc & Hc & Hcact) Hrank _.
  destruct (IH c st0 csc T0 Hc Hcact) as (calls & st' & Hp & S & _).
  - assert (rank c ≤ N) by (apply (tr_bound _ _ _ T0); by eexists). lia.
  - by exists calls, st'.
Qed.


(** Extra (effectScope.ts, pause): [pause()] on an active scope of a
    well-formed state returns once the fuel exceeds the depth left below the
    scope. It sets [_isPaused] on the scope and on every scope below it,
    pauses each effect of these scopes exactly once, in the order of their
    [effects] arrays, the scope's own effects last, and leaves every other
    scope, the active scope and the event log as they were. *)
Theorem pause_cascades (rank : loc → nat) (N fuel : nat) (st : state)
    (s : loc) (sc : EffectScope) :
  wf rank st → heap st !! s = Some sc → _active sc = true →
  (∀ y, is_Some (heap st !! y) → rank y ≤ N) → N - rank s < fuel →
  ∃ calls st',
    pause fuel s st = Ret calls st' ∧
    (∀ y ysc, desc st s y → heap st !! y = Some ysc →
       heap st' !! y = Some (with_isPaused true ysc) ∧
       calls_of y calls = map (Paused y) (effects ysc)) ∧
    (∀ y, ¬ desc st s y →
       heap st' !! y = heap st !! y ∧ calls_of y calls = []) ∧
    (∃ before, calls = before ++ map (Paused s) (effects sc)) ∧
    activeEffectScope st' = activeEffectScope st ∧ log st' = log st.
Proof.
  intros Hwf Hs Hact HN Hf.
  destruct (pause_ok rank N fuel s st sc (tree_ok_of_wf rank N st Hwf HN)
              Hs Hact Hf) as (calls & st' & Hp & S & before & -> & _).
  exists (before ++ map (Paused s) (effects sc)), st'.
  split; [done|]. split; [apply S|]. split; [apply S|].
  split; [by exists before|]. split; apply S.
Qed.


Lemma wf_running : wf Pos.to_nat Samples.st_running.
Proof. by apply (wf_same_heap _ Samples.st_scopes), wf_sample. Qed.

Lemma running_allocated a :
  activeEffectScope Samples.st_running = Some a →
  is_Some (heap Samples.st_running !! a).
Proof. intros [= <-]. by eexists. Qed.

Lemma new_EffectScope_registers_witness :
  wf Pos.to_nat Samples.st_running ∧
  let st' := snd (new_EffectScope false Samples.st_running) in
  wf (rank_new Pos.to_nat Samples.st_running) st' ∧
  heap st' !! 1%positive =
    Some (with_scopes (Some [Some 2%positive; Some 3%positive])
            Samples.parentScope) ∧
  (index <$> heap st' !! 3%positive) = Some (Some 1).
Proof.
  split; [exact wf_running|].
  destruct (new_EffectScope_registers Pos.to_nat false Samples.st_running
              wf_running running_allocated)
    as (_ & Hwf & _ & _ & Hreg & _).
  split; [exact Hwf|].
  rewrite (Hreg 1%positive Samples.parentScope eq_refl eq_refl eq_refl).
  split; reflexivity.
Defined.

Lemma stop_keeps_wf_witness :
  wf Pos.to_nat Samples.st_scopes ∧
  ∃ st',
    stop quiet quiet 3 2%positive false Samples.st_scopes = Ret tt st' ∧
    wf Pos.to_nat st' ∧
    activeEffectScope st' = activeEffectScope Samples.st_scopes ∧
    (scopes <$> heap st' !! 1%positive) = Some (Some []).
Proof.
  split; [exact wf_sample|].
  destruct (stop_keeps_wf quiet quiet (fun _ _ => eq_refl)
              (fun _ _ => eq_refl) Pos.to_nat 3 Samples.st_scopes 2%positive
              Samples.childScope wf_sample eq_refl)
    as (st' & Hstop & Hwf & Hact).
  { vm_compute. lia. }
  exists st'. split; [exact Hstop|]. split; [exact Hwf|].
  split; [exact Hact|].
  assert (stop quiet quiet 3 2%positive false Samples.st_scopes =
            Ret tt st') as Hs by exact Hstop.
  vm_compute in Hs. injection Hs as <-. reflexivity.
Defined.

Lemma wf_detached :
  wf (rank_new Pos.to_nat Samples.st_running) Samples.st_detached.
Proof. apply new_EffectScope_wf; [exact wf_running | exact running_allocated]. Qed.

Lemma detached_survives_stop_witness :
  ∃ st' dsc',
    stop quiet quiet 4 1%positive false Samples.st_detached = Ret tt st' ∧
    heap st' !! Samples.o_detached = Some dsc' ∧
    _active dsc' = true ∧ parent dsc' = Some 1%positive ∧
    is_inactive st' 1%positive ∧ is_inactive st' 2%positive.
Proof.
  destruct (detached_survives_stop quiet quiet (fun _ _ => eq_refl)
              (fun _ _ => eq_refl)
              (rank_new Pos.to_nat Samples.st_running) 4
              Samples.st_detached 1%positive Samples.o_detached
              Samples.parentScope
              (mkScope true 0 [] [] false (Some 1%positive) None None true
                 None)
              wf_detached eq_refl)
    as (st' & dsc' & Hstop & Hd & Hact & _ & _ & Hpar & _);
    [vm_compute; lia | reflexivity | reflexivity | done |].
  exists st', dsc'. split; [exact Hstop|]. split; [exact Hd|].
  split; [exact Hact|]. split; [exact Hpar|].
  assert (stop quiet quiet 4 1%positive false Samples.st_detached =
            Ret tt st') as Hs by exact Hstop.
  vm_compute in Hs. injection Hs as <-.
  split; eexists; split; reflexivity.
Defined.

Lemma run_collects_scopes_witness :
  wf Pos.to_nat Samples.st_scopes ∧
  ∃ c st1 st2,
    run 2%positive
      (fun st1 =>
         Ret (fst (new_EffectScope false st1))
           (snd (new_EffectScope false st1)))
      Samples.st_scopes = Ret (Some c) st1 ∧
    activeEffectScope st1 = activeEffectScope Samples.st_scopes ∧
    stop quiet quiet 5 2%positive false st1 = Ret tt st2 ∧
    is_inactive st2 c.
Proof.
  split; [exact wf_sample|].
  destruct (run_collects_scopes quiet quiet (fun _ _ => eq_refl)
              (fun _ _ => eq_refl) Pos.to_nat 5 Samples.st_scopes 2%positive
              Samples.childScope wf_sample eq_refl eq_refl)
    as (c & st1 & st2 & csc & Hrun & _ & Hact & _ & _ & _ & _ & _ & Hstop &
        Hc & _).
  { vm_compute. lia. }
  exists c, st1, st2. split; [exact Hrun|]. split; [exact Hact|].
  split; [exact Hstop | exact Hc].
Defined.

Lemma on_off_balanced_witness :
  let st := Samples.st_scopes in
  ∃ st_on,
    times 2 (on 2%positive) st = Ret tt st_on ∧
    activeEffectScope st_on = Some 2%positive ∧
    (∃ st_1, times 1 (off 2%positive) st_on = Ret tt st_1 ∧
             activeEffectScope st_1 = Some 2%positive) ∧
    times 2 (off 2%positive) st_on = Ret tt st.
Proof.
  intros st.
  destruct (on_off_balanced 2%positive Samples.childScope st 2 eq_refl
              eq_refl eq_refl) as (st_on & Hon & Hact & _ & Hin & Hoff);
    [lia | lia |].
  exists st_on. split; [exact Hon|]. split; [exact Hact|].
  split; [apply Hin; lia | exact Hoff].
Defined.

Lemma wf_siblings :
  wf (rank_new Pos.to_nat Samples.st_running) Samples.st_siblings.
Proof. apply new_EffectScope_wf; [exact wf_running | exact running_allocated]. Qed.

Lemma stop_cascades_witness :
  wf (rank_new Pos.to_nat Samples.st_running) Samples.st_siblings ∧
  ∃ st',
    stop quiet quiet 4 2%positive false Samples.st_siblings = Ret tt st' ∧
    log st' = [EffectStopped 2%positive 5%positive;
               CleanupRun 2%positive 7%positive] ∧
    is_inactive st' 2%positive ∧
    (scopes <$> heap st' !! 1%positive) = Some (Some [Some 3%positive]) ∧
    (index <$> heap st' !! 3%positive) = Some (Some 0) ∧
    stop quiet quiet 1 2%positive false st' = Ret tt st'.
Proof.
  split; [exact wf_siblings|].
  destruct (stop_cascades quiet quiet (fun _ _ => eq_refl)
              (fun _ _ => eq_refl) (rank_new Pos.to_nat Samples.st_running)
              4 Samples.st_siblings 2%positive Samples.childScope
              wf_siblings eq_refl eq_refl)
    as (st' & rest & Hstop & Hlog & _ & _ & Hdesc & _ & Hidem).
  { vm_compute. lia. }
  exists st'. split; [exact Hstop|].
  assert (stop quiet quiet 4 2%positive false Samples.st_siblings =
            Ret tt st') as Hs by exact Hstop.
  vm_compute in Hs. injection Hs as <-.
  split; [reflexivity|]. split; [by eexists|].
  split; [reflexivity|]. split; [reflexivity | apply Hidem].
Defined.

(** C5, as the claim states it, fails when a cleanup throws or calls back
    into the scopes.  In the first sample tree the scope 2 is a child of
    the scope 1 and has the cleanup 7.  When that cleanup throws, [stop()]
    of the scope 2 throws: the scope is left inactive but is not removed
    from the array of its parent and keeps its parent and its cleanup; and
    since it is inactive, a further [stop()] does nothing, so the removal
    never takes place and the tree is no longer well formed.  In the
    second sample tree the scope 1 has the children 2 and 3.  When the
    cleanup 7 of the scope 2 stops the scope 3, that scope removes itself
    from the array of the scope 1 while [stop()] of the scope 1 loops over
    it: the loop then calls [stop] on [undefined], and [stop()] of the
    scope 1 ends in a TypeError with its array not emptied. *)
Lemma stop_cleanup_throws :
  (wf Pos.to_nat Samples.st_scopes ∧
   ∃ st',
     stop quiet (Samples.throws_at 7) 3 2%positive false Samples.st_scopes =
       Throw (Thrown 7%positive) st' ∧
     (_active <$> heap st' !! 2%positive) = Some false ∧
     (parent <$> heap st' !! 2%positive) = Some (Some 1%positive) ∧
     (cleanups <$> heap st' !! 2%positive) = Some [7%positive] ∧
     (scopes <$> heap st' !! 1%positive) = Some (Some [Some 2%positive]) ∧
     (∀ fuel fromParent,
        stop quiet (Samples.throws_at 7) (S fuel) 2%positive fromParent st' =
          Ret tt st') ∧
     ¬ wf Pos.to_nat st') ∧
  (wf (rank_new Pos.to_nat Samples.st_running) Samples.st_siblings ∧
   ∃ st',
     stop quiet Samples.stops_sibling 4 1%positive false Samples.st_siblings =
       Throw TypeError st' ∧
     log st' = [EffectStopped 2%positive 5%positive;
                CleanupRun 2%positive 7%positive] ∧
     (scopes <$> heap st' !! 1%positive) = Some (Some [Some 2%positive])).
Proof.
  split.
  - split; [exact wf_sample|].
    eexists. split; [vm_compute; reflexivity|].
    split; [reflexivity|]. split; [reflexivity|]. split; [reflexivity|].
    split; [reflexivity|]. split; [intros fuel fp; reflexivity|].
    intros Hwf.
    by pose proof (wf_inactive _ _ Hwf 2%positive _ eq_refl eq_refl).
  - split; [exact wf_siblings|].
    eexists. split; [vm_compute; reflexivity|].
    split; reflexivity.
Qed.

Lemma sample_bound :
  ∀ y, is_Some (heap Samples.st_scopes !! y) → Pos.to_nat y ≤ 2.
Proof.
  intros y [sc Hy]. cbn in Hy.
  apply lookup_insert_Some in Hy as [[<- _]|[_ Hy]]; [cbn; lia|].
  apply lookup_insert_Some in Hy as [[<- _]|[_ Hy]]; [cbn; lia | done].
Qed.

Lemma sample_desc : desc Samples.st_scopes 1%positive 2%positive.
Proof.
  apply (desc_step _ 1%positive Samples.parentScope 2%positive);
    [done | apply list_elem_of_here | constructor].
Qed.

Lemma pause_cascades_witness :
  wf Pos.to_nat Samples.st_scopes ∧
  ∃ calls st',
    pause 2 1%positive Samples.st_scopes = Ret calls st' ∧
    heap st' !! 1%positive = Some (with_isPaused true Samples.parentScope) ∧
    heap st' !! 2%positive = Some (with_isPaused true Samples.childScope) ∧
    calls_of 2%positive calls = [Paused 2%positive 5%positive].
Proof.
  split; [exact wf_sample|].
  destruct (pause_cascades Pos.to_nat 2 2 Samples.st_scopes 1%positive
              Samples.parentScope wf_sample eq_refl eq_refl sample_bound)
    as (calls & st' & Hp & Hin & _).
  { vm_compute. lia. }
  exists calls, st'. split; [exact Hp|].
  split; [exact (proj1 (Hin _ _ (desc_refl _ _) eq_refl))|].
  exact (Hin 2%positive Samples.childScope sample_desc eq_refl).
Defined.


End ScopeFacts.

Module ComputedFacts.
Import Computed.

(** C7.  A computed constructed without a setter has its readonly flag
    set, and one constructed with a setter has it cleared.  A write to a
    computed without a setter calls nothing and leaves the whole state,
    the computed included, as it was; a write to a computed with a setter
    is exactly the call of that setter on the value written. *)
Theorem computed_write (Dep Link World : Type) (new_Dep : loc -> Dep)
    (DIRTY : Z)
    (call : positive -> value -> state Dep Link World ->
            outcome Dep Link World)
    (st : state Dep Link World) (c : loc) (rec : ComputedRefImpl Dep Link)
    (x : value) :
  heap st !! c = Some rec →
  (∀ fn (st0 : state Dep Link World),
     let '(this, st1) := new_ComputedRefImpl new_Dep DIRTY fn None st0 in
     ∃ r, heap st1 !! this = Some r ∧ __v_isReadonly r = true ∧
          setter r = None) ∧
  (∀ fn f (st0 : state Dep Link World),
     let '(this, st1) := new_ComputedRefImpl new_Dep DIRTY fn (Some f) st0 in
     ∃ r, heap st1 !! this = Some r ∧ __v_isReadonly r = false ∧
          setter r = Some f) ∧
  (setter rec = None → set_value call c x st = Ret st) ∧
  (∀ f, setter rec = Some f → set_value call c x st = call f x st).
Proof.
  intros Hc. split; [|split; [|split]].
  - intros fn st0. cbn. eexists. split; [apply lookup_insert_eq|]. done.
  - intros fn f st0. cbn. eexists. split; [apply lookup_insert_eq|].
    done.
  - intros Hset. unfold set_value. by rewrite Hc, Hset.
  - intros f Hset. unfold set_value. by rewrite Hc, Hset.
Qed.

Lemma computed_write_witness :
  set_value Samples.count_call 1%positive (VBool true) Samples.st_writable =
    Samples.count_call 3%positive (VBool true) Samples.st_writable.
Proof.
  destruct (computed_write unit unit nat (fun _ => tt) 16%Z
              Samples.count_call Samples.st_writable 1%positive
              Samples.writableComputed (VBool true) eq_refl)
    as (_ & _ & _ & Hcall).
  exact (Hcall 3%positive eq_refl).
Defined.

End ComputedFacts.

